(** * backup-scheduler: the scheduling and retention core

    A shallow embedding of the JavaScript sources

    - [Backup.js]            the [Backup] record and its constructor,
    - [BackupScheduler.js]   the scheduler core; the repository holds two
                             revisions of this class, embedded below as the
                             modules [Strict] (the [list] result must be an
                             array, [create] must return a [Backup]) and
                             [ShortCircuit] ([list] may answer [false]),
    - [S3BackupScheduler.js] and [DiskBackupScheduler.js], as far as their
                             constructors, [list] and [delete] go.

    JavaScript values are a small inductive type, numbers are the extended
    rationals, objects used as dictionaries are [gmap string value], and the
    asynchronous [cycle] method is a term of a free monad whose nodes are
    the reads and writes of [#in_flight], the awaited backend calls and the
    [emit] of the event emitter.  *)

From Stdlib Require Import QArith Qcanon Qround.
From stdpp Require Import base numbers strings list sorting gmap.

Set Default Proof Using "Type".
Set Warnings "-register-all".
Local Open Scope Z_scope.

(** ** JavaScript numbers

    Every finite double is a rational, so the doubles embed in [number];
    the two zeros are identified (the code only tests a zero for truthiness
    and with [<], which do not tell them apart).  Comparison is exact on
    doubles, and a rounded difference of two doubles has the sign of the
    exact difference, which is all [Array.prototype.sort] looks at. *)

Inductive number : Type :=
  | NaN
  | PosInf
  | NegInf
  | Fin (q : Qc).

Definition num (z : Z) : number := Fin (Qc_of_Z z).

(** [a < b] on numbers: false as soon as one side is [NaN]. *)
Definition num_lt (a b : number) : bool :=
  match a, b with
  | NaN, _ | _, NaN => false
  | PosInf, _ => false
  | _, PosInf => true
  | _, NegInf => false
  | NegInf, _ => true
  | Fin x, Fin y => bool_decide (x < y)%Qc
  end.

Definition num_opp (a : number) : number :=
  match a with
  | NaN => NaN
  | PosInf => NegInf
  | NegInf => PosInf
  | Fin x => Fin (- x)%Qc
  end.

Definition num_add (a b : number) : number :=
  match a, b with
  | NaN, _ | _, NaN => NaN
  | PosInf, NegInf | NegInf, PosInf => NaN
  | PosInf, _ | _, PosInf => PosInf
  | NegInf, _ | _, NegInf => NegInf
  | Fin x, Fin y => Fin (x + y)%Qc
  end.

Definition num_sub (a b : number) : number := num_add a (num_opp b).

(** ToBoolean on a number: [0] and [NaN] are falsy. *)
Definition num_truthy (a : number) : bool :=
  match a with
  | NaN => false
  | Fin x => negb (bool_decide (x = Qc_of_Z 0))
  | PosInf | NegInf => true
  end.

(** ToIntegerOrInfinity keeps the infinities, sends [NaN] to [0] and
    truncates towards zero. *)
Inductive integer_or_infinity : Type :=
  | IPosInf
  | INegInf
  | IFin (z : Z).

Definition ToIntegerOrInfinity (a : number) : integer_or_infinity :=
  match a with
  | NaN => IFin 0
  | PosInf => IPosInf
  | NegInf => INegInf
  | Fin x => IFin (Z.quot (Qnum (this x)) (Z.pos (Qden (this x))))
  end.

(** What the specification calls a positive number and a positive
    integer. *)
Definition positive_number (a : number) : Prop := num_lt (num 0) a = true.

Definition positive_integer (a : number) : Prop := ∃ z : Z, 0 < z ∧ a = num z.

(** ** JavaScript values *)

(** An instance of the class [Backup] of [Backup.js]; the two public fields
    have the types the class documents. *)
Module Backup.
Record t : Type := make {
  id : string;
  created_at : number;
}.
End Backup.

Inductive value : Type :=
  | VUndefined
  | VNull
  | VBoolean (b : bool)
  | VNumber (n : number)
  | VString (s : string)
  | VFunction (f : nat)
  | VError (message : string)      (* an instance of Error *)
  | VBackup (b : Backup.t)         (* an instance of Backup *)
  | VArray (elements : list value)
  | VOpaque (o : nat).             (* any other object; it has none of the
                                      properties the code reads *)

(** The completion of a call: a returned value or a thrown one. *)
Inductive completion (A : Type) : Type :=
  | Normal (a : A)
  | Throw (e : value).
Arguments Normal {A} a.
Arguments Throw {A} e.

#[global] Instance completion_ret : MRet completion := @Normal.

#[global] Instance completion_bind : MBind completion := λ A B f c,
  match c with
  | Normal a => f a
  | Throw e => Throw e
  end.

Definition typeof (v : value) : string :=
  match v with
  | VUndefined => "undefined"
  | VBoolean _ => "boolean"
  | VNumber _ => "number"
  | VString _ => "string"
  | VFunction _ => "function"
  | VNull | VError _ | VBackup _ | VArray _ | VOpaque _ => "object"
  end.

Definition ToBoolean (v : value) : bool :=
  match v with
  | VUndefined | VNull => false
  | VBoolean b => b
  | VNumber n => num_truthy n
  | VString s => negb (bool_decide (s = EmptyString))
  | VFunction _ | VError _ | VBackup _ | VArray _ | VOpaque _ => true
  end.

(** [!v] *)
Definition not_ (v : value) : bool := negb (ToBoolean v).

(** [typeof v !== t] *)
Definition typeof_isnt (v : value) (t : string) : bool :=
  bool_decide (typeof v ≠ t).

(** ToNumber, on the values that need no parsing.  The code applies it to
    a value behind a [typeof v !== 'number'] test, to [undefined], to the
    [created_at] of a [Backup] and to [this.options.limit], a number since
    the constructor; a string never reaches it. *)
Definition ToNumber (v : value) : number :=
  match v with
  | VNumber n => n
  | VNull => num 0
  | VBoolean b => if b then num 1 else num 0
  | _ => NaN
  end.

(** [v < n] for a number literal [n]. *)
Definition less_than (v : value) (n : number) : bool := num_lt (ToNumber v) n.

(** [v instanceof Backup] *)
Definition instanceof_Backup (v : value) : bool :=
  match v with
  | VBackup _ => true
  | _ => false
  end.

(** [v === false] *)
Definition is_false (v : value) : bool :=
  match v with
  | VBoolean false => true
  | _ => false
  end.

(** [Array.isArray(v)] *)
Definition Array_isArray (v : value) : bool :=
  match v with
  | VArray _ => true
  | _ => false
  end.

Definition elements_of (v : value) : list value :=
  match v with
  | VArray l => l
  | _ => []
  end.

(** [l.find(p)]: the first element that satisfies [p], or [undefined]. *)
Definition Array_find (p : value → bool) (l : list value) : value :=
  default VUndefined (head (filter (λ v, p v = true) l)).

(** [l.slice(start, end)], with the relative indices of ECMAScript. *)
Definition relative_index (len : nat) (i : integer_or_infinity) : nat :=
  match i with
  | INegInf => 0%nat
  | IPosInf => len
  | IFin z => if z <? 0 then Z.to_nat (Z.max (Z.of_nat len + z) 0)
              else Z.to_nat (Z.min z (Z.of_nat len))
  end.

Definition Array_slice (l : list value) (start end_ : number) : list value :=
  let k := relative_index (length l) (ToIntegerOrInfinity start) in
  let final := relative_index (length l) (ToIntegerOrInfinity end_) in
  take (final - k)%nat (drop k l).

(** *** Array.prototype.sort

    ECMAScript (2019 and later) makes [sort] stable, and for a comparator
    that is consistent on the elements this fixes the result; [Array_sort]
    is the stable insertion sort.  [SortCompare] is the abstract operation
    of the standard: [undefined] goes last without a call of the comparator,
    and a [NaN] answer counts as [0].  An exception of the comparator leaves
    the sort.  Where the comparator is not consistent (it answers [NaN] on a
    value that is no [Backup]) the standard leaves the order to the engine,
    and the order here is one of those; the statements below read the order
    on arrays of [Backup]s only. *)
Definition SortCompare (comparefn : value → value → completion value)
    (x y : value) : completion number :=
  match x, y with
  | VUndefined, VUndefined => Normal (num 0)
  | VUndefined, _ => Normal (num 1)
  | _, VUndefined => Normal (num (-1))
  | _, _ =>
      v ← comparefn x y;
      Normal (match ToNumber v with NaN => num 0 | n => n end)
  end.

Fixpoint sort_insert (comparefn : value → value → completion value)
    (x : value) (l : list value) : completion (list value) :=
  match l with
  | [] => Normal [x]
  | y :: l' =>
      c ← SortCompare comparefn x y;
      if num_lt (num 0) c then
        r ← sort_insert comparefn x l'; Normal (y :: r)
      else Normal (x :: l)
  end.

Fixpoint Array_sort (comparefn : value → value → completion value)
    (l : list value) : completion (list value) :=
  match l with
  | [] => Normal []
  | x :: l' => s ← Array_sort comparefn l'; sort_insert comparefn x s
  end.

(** [v.created_at]: a TypeError on [null] and [undefined], the field of a
    [Backup], and [undefined] on everything else. *)
Definition get_created_at (v : value) : completion value :=
  match v with
  | VUndefined | VNull =>
      Throw (VError "TypeError: Cannot read properties of null or undefined (reading 'created_at')")
  | VBackup b => Normal (VNumber (Backup.created_at b))
  | _ => Normal VUndefined
  end.

(** [(a, b) => a.created_at - b.created_at] *)
Definition by_created_at (a b : value) : completion value :=
  x ← get_created_at a;
  y ← get_created_at b;
  Normal (VNumber (num_sub (ToNumber x) (ToNumber y))).

(** ** Backup.js: the constructor

    The messages of the source quote the name of the offending parameter
    with double quotes; they are written with single quotes here. *)
Definition Backup_id_message : string :=
  "new Backup(id, created_at) -> Please provide a valid 'id' to identify this backup.".

Definition Backup_created_at_message : string :=
  "new Backup(id, created_at) -> Please provide a valid 'created_at' timestamp (in milliseconds) for this backup.".

Definition new_Backup (id created_at : value) : completion Backup.t :=
  if not_ id || typeof_isnt id "string" then
    Throw (VError Backup_id_message)
  else if not_ created_at || typeof_isnt created_at "number"
          || less_than created_at (num 1) then
    Throw (VError Backup_created_at_message)
  else
    match id, created_at with
    | VString s, VNumber n => Normal (Backup.make s n)
    | _, _ => Throw (VError Backup_id_message) (* excluded by the tests above *)
    end.

(** A [Backup] as the constructor makes them. *)
Definition constructed (b : Backup.t) : Prop :=
  ∃ id created_at, new_Backup id created_at = Normal b.

Definition constructed_value (v : value) : Prop :=
  ∃ b, v = VBackup b ∧ constructed b.

(** ** The scheduler object *)

(** The argument of a constructor: an object with its own properties, or
    any other value (which has none of the properties the constructors
    read). *)
Inductive argument : Type :=
  | Object (properties : gmap string value)
  | Other (v : value).

(** [!o] and [typeof o !== t] on an argument. *)
Definition arg_not (o : argument) : bool :=
  match o with
  | Object _ => false
  | Other v => not_ v
  end.

Definition arg_typeof_isnt (o : argument) (t : string) : bool :=
  match o with
  | Object _ => bool_decide ("object" ≠ t)
  | Other v => typeof_isnt v t
  end.

(** [o.key]; the constructors read it behind [!o] only. *)
Definition get (o : argument) (key : string) : value :=
  match o with
  | Object properties => default VUndefined (properties !! key)
  | Other _ => VUndefined
  end.

(** [{...o}] *)
Definition spread (o : argument) : gmap string value :=
  match o with
  | Object properties => properties
  | Other _ => ∅
  end.

(** A listener, as [emit] sees it: it returns or throws.  [emit] runs the
    listeners registered when it is called.  What an emission does to the
    scheduler besides (a listener registered with [once] is removed, a
    listener may call [on], [off] or [destroy]) is not a part of [emit]
    here: [cycle] reads neither the listeners nor the timer after its one
    emission, so these changes show in the scheduler the next call is made
    on (see [outside] below).  A [cycle] called from a listener returns at
    the entry guard, since the emitting cycle is still in flight. *)
Definition listener : Type := value → completion value.

(** The fields of a [BackupScheduler]: the public [options], the private
    [#interval] (the timer, kept as the value [setInterval] was called with,
    [None] once it is cleared; the period Node makes of that value, which is
    1 ms for a value above 2^31 - 1, is no part of the embedding), the
    private [#in_flight], and the listeners the event emitter holds, in the
    order of their registration. *)
Record scheduler : Type := mkScheduler {
  options : argument;
  interval : option value;
  in_flight : bool;
  listeners : list (string * listener);
}.

Definition set_in_flight (b : bool) (s : scheduler) : scheduler :=
  mkScheduler (options s) (interval s) b (listeners s).

Definition clear_interval (s : scheduler) : scheduler :=
  mkScheduler (options s) None (in_flight s) (listeners s).

Definition on (name : string) (l : listener) (s : scheduler) : scheduler :=
  mkScheduler (options s) (interval s) (in_flight s) (listeners s ++ [(name, l)]).

(** The three operations of a backend, as [this.options] holds them. *)
Inductive method : Type :=
  | op_list
  | op_create
  | op_delete.

#[global] Instance method_eq_dec : EqDecision method.
Proof. solve_decision. Defined.

(** What an observer of a scheduler sees happen. *)
Inductive event : Type :=
  | Called (m : method) (args : list value)   (* this.options.m(...args) *)
  | Emitted (name : string) (arg : value)     (* this.emit(name, arg) *)
  | Delivered (name : string) (arg : value).  (* a listener ran on arg *)

(** *** EventEmitter.prototype.emit (Node.js)

    The listeners of the event run in the order of their registration; an
    exception of a listener leaves [emit].  An ['error'] event without a
    listener is thrown: the argument itself when it is an [Error], an
    [ERR_UNHANDLED_ERROR] otherwise.  Any other event without a listener
    answers [false]. *)
Fixpoint notify (name : string) (hs : list listener) (arg : value)
    : list event * completion bool :=
  match hs with
  | [] => ([], Normal true)
  | h :: hs' =>
      match h arg with
      | Throw e => ([Delivered name arg], Throw e)
      | Normal _ =>
          let '(tr, c) := notify name hs' arg in (Delivered name arg :: tr, c)
      end
  end.

Definition listeners_of (name : string) (ls : list (string * listener))
    : list listener :=
  (filter (λ l, l.1 = name) ls).*2.

Definition unhandled (arg : value) : value :=
  match arg with
  | VError _ => arg
  | _ => VError "Unhandled error."
  end.

Definition EventEmitter_emit (ls : list (string * listener)) (name : string)
    (arg : value) : list event * completion bool :=
  match listeners_of name ls with
  | [] => if bool_decide (name = "error") then ([], Throw (unhandled arg))
          else ([], Normal false)
  | hs => notify name hs arg
  end.

(** ** Asynchronous methods

    The body of an [async] method is a tree: a leaf returns or throws, a
    node reads or writes [this.#in_flight], reads a property of
    [this.options], awaits a call of a backend operation, or calls
    [this.emit].  Only [Await] suspends the method; everything between two
    awaits runs in one turn of the event loop. *)
Inductive prog (A : Type) : Type :=
  | Ret (a : A)
  | Raise (e : value)
  | ReadInFlight (k : bool → prog A)
  | WriteInFlight (b : bool) (k : prog A)
  | ReadOption (key : string) (k : value → prog A)
  | Await (m : method) (args : list value) (k : completion value → prog A)
  | EmitEvent (name : string) (arg : value) (k : completion bool → prog A).
Arguments Ret {A} a.
Arguments Raise {A} e.
Arguments ReadInFlight {A} k.
Arguments WriteInFlight {A} b k.
Arguments ReadOption {A} key k.
Arguments Await {A} m args k.
Arguments EmitEvent {A} name arg k.

Fixpoint prog_bind {A B : Type} (f : A → prog B) (p : prog A) : prog B :=
  match p with
  | Ret a => f a
  | Raise e => Raise e
  | ReadInFlight k => ReadInFlight (λ b, prog_bind f (k b))
  | WriteInFlight b k => WriteInFlight b (prog_bind f k)
  | ReadOption key k => ReadOption key (λ v, prog_bind f (k v))
  | Await m args k => Await m args (λ c, prog_bind f (k c))
  | EmitEvent name arg k => EmitEvent name arg (λ c, prog_bind f (k c))
  end.

#[global] Instance prog_ret : MRet prog := @Ret.
#[global] Instance prog_mbind : MBind prog := @prog_bind.

(** [try { p } catch (error) { h error }] *)
Fixpoint try_catch {A : Type} (p : prog A) (h : value → prog A) : prog A :=
  match p with
  | Ret a => Ret a
  | Raise e => h e
  | ReadInFlight k => ReadInFlight (λ b, try_catch (k b) h)
  | WriteInFlight b k => WriteInFlight b (try_catch k h)
  | ReadOption key k => ReadOption key (λ v, try_catch (k v) h)
  | Await m args k => Await m args (λ c, try_catch (k c) h)
  | EmitEvent name arg k => EmitEvent name arg (λ c, try_catch (k c) h)
  end.

(** A completion continues the method or throws into it. *)
Definition settle {A : Type} (c : completion A) : prog A :=
  match c with
  | Normal a => Ret a
  | Throw e => Raise e
  end.

Definition this_in_flight : prog bool := ReadInFlight Ret.
Definition this_in_flight_set (b : bool) : prog unit := WriteInFlight b (Ret tt).
Definition this_options (key : string) : prog value := ReadOption key Ret.
Definition await (m : method) (args : list value) : prog value :=
  Await m args settle.
Definition this_emit (name : string) (arg : value) : prog bool :=
  EmitEvent name arg settle.

(** *** One turn of the event loop

    [advance p s] runs [p] on the scheduler [s] up to its next await or to
    its end. *)
Inductive promise (A : Type) : Type :=
  | Fulfilled (a : A)
  | Rejected (e : value)
  | Suspended (m : method) (args : list value) (k : completion value → prog A).
Arguments Fulfilled {A} a.
Arguments Rejected {A} e.
Arguments Suspended {A} m args k.

Fixpoint advance {A : Type} (p : prog A) (s : scheduler)
    : scheduler * list event * promise A :=
  match p with
  | Ret a => (s, [], Fulfilled a)
  | Raise e => (s, [], Rejected e)
  | ReadInFlight k => advance (k (in_flight s)) s
  | WriteInFlight b k => advance k (set_in_flight b s)
  | ReadOption key k => advance (k (get (options s) key)) s
  | Await m args k => (s, [Called m args], Suspended m args k)
  | EmitEvent name arg k =>
      let '(heard, c) := EventEmitter_emit (listeners s) name arg in
      let '(s', tr, pr) := advance (k c) s in
      (s', Emitted name arg :: heard ++ tr, pr)
  end.

(** *** A whole call against a backend

    A backend answers each operation with a completion and moves its own
    state ([W]: the directory, the bucket).  [run] drives a method to its
    end, no other method running in between. *)
Record backend (W : Type) : Type := mkBackend {
  invoke : method → list value → W → completion value * W;
}.
Arguments mkBackend {W} invoke.
Arguments invoke {W} b m args w.

Fixpoint run {W A : Type} (be : backend W) (p : prog A) (s : scheduler) (w : W)
    : completion A * scheduler * W * list event :=
  match p with
  | Ret a => (Normal a, s, w, [])
  | Raise e => (Throw e, s, w, [])
  | ReadInFlight k => run be (k (in_flight s)) s w
  | WriteInFlight b k => run be k (set_in_flight b s) w
  | ReadOption key k => run be (k (get (options s) key)) s w
  | Await m args k =>
      let '(c, w') := invoke be m args w in
      let '(r, s', w'', tr) := run be (k c) s w' in
      (r, s', w'', Called m args :: tr)
  | EmitEvent name arg k =>
      let '(heard, c) := EventEmitter_emit (listeners s) name arg in
      let '(r, s', w', tr) := run be (k c) s w in
      (r, s', w', Emitted name arg :: heard ++ tr)
  end.

Definition result_of {W A : Type} (x : completion A * scheduler * W * list event)
    : completion A := x.1.1.1.
Definition scheduler_of {W A : Type} (x : completion A * scheduler * W * list event)
    : scheduler := x.1.1.2.
Definition trace_of {W A : Type} (x : completion A * scheduler * W * list event)
    : list event := x.2.

(** The backend calls of a trace. *)
Definition calls (tr : list event) : list (method * list value) :=
  omap (λ e, match e with Called m args => Some (m, args) | _ => None end) tr.

Definition calls_of (m : method) (tr : list event) : list (list value) :=
  omap (λ c, if decide (c.1 = m) then Some c.2 else None) (calls tr).

Definition emissions (tr : list event) : list (string * value) :=
  omap (λ e, match e with Emitted n a => Some (n, a) | _ => None end) tr.

(** ** BackupScheduler.js *)

(** The part both revisions share: the validation of the listed array, the
    sorted copy, and the retention step. *)
Definition list_message : string :=
  "BackupScheduler -> The 'list' function must return an Array of 'Backup' instances.".

Definition create_message : string :=
  "BackupScheduler -> The 'create' function must create and return a 'Backup' instance.".

(** [!Array.isArray(list) || list.find((backup) => !(backup instanceof Backup))] *)
Definition rejected_list (list : value) : bool :=
  negb (Array_isArray list)
  || ToBoolean (Array_find (λ backup, negb (instanceof_Backup backup))
                           (elements_of list)).

(** [[...list].sort((a, b) => a.created_at - b.created_at)] *)
Definition sorted_copy (listed : value) : prog (list value) :=
  settle (Array_sort by_created_at (elements_of listed)).

(** [sorted.length - this.options.limit + 1].  The source computes in
    doubles and the arithmetic here is exact: the two agree where the
    difference and the sum are doubles themselves, as they are for a whole
    limit, and the statements below that fix the value of the overflow are
    made there only. *)
Definition overflow_of (sorted : list value) (limit : value) : number :=
  num_add (num_sub (num (Z.of_nat (length sorted))) (ToNumber limit)) (num 1).

(** [if (overflow > 0) await this.options.delete(sorted.slice(0, overflow))] *)
Definition delete_overflow (sorted : list value) : prog unit :=
  limit ← this_options "limit";
  let overflow := overflow_of sorted limit in
  if num_lt (num 0) overflow then
    let sliced := Array_slice sorted (num 0) overflow in
    await op_delete [VArray sliced];; Ret tt
  else Ret tt.

(** The frame of [cycle]: the entry guard, the [try]/[catch] around the
    body with the [success] flag, and the reset of [#in_flight]. *)
Definition guarded (body : prog unit) : prog bool :=
  this_in_flight ≫= λ busy : bool,
  if busy then Ret false
  else
    this_in_flight_set true;;
    success ← try_catch (body;; Ret true)
                        (λ error, this_emit "error" error;; Ret false);
    this_in_flight_set false;;
    Ret success.

(** The earlier revision (the class at lines 208-323 of
    [src/S3BackupScheduler.js]): [list] must return an array, [create] must
    return a [Backup]. *)
Module Strict.

Definition body : prog unit :=
  list ← await op_list [];
  (if rejected_list list then Raise (VError list_message) else Ret tt);;
  sorted ← sorted_copy list;
  backup ← await op_create [];
  (if negb (instanceof_Backup backup) then Raise (VError create_message)
   else Ret tt);;
  delete_overflow sorted.

Definition cycle : prog bool := guarded body.

End Strict.

(** The later revision (the class at lines 345-465): [list] may answer
    [false], and then the cycle only creates; [create] returns nothing. *)
Module ShortCircuit.

Definition body : prog unit :=
  list ← await op_list [];
  if is_false list then
    await op_create [];; Ret tt
  else
    (if rejected_list list then Raise (VError list_message) else Ret tt);;
    sorted ← sorted_copy list;
    await op_create [];;
    delete_overflow sorted.

Definition cycle : prog bool := guarded body.

End ShortCircuit.

(** [destroy()] *)
Definition destroy (s : scheduler) : scheduler := clear_interval s.

(** *** The constructor (the same text in both revisions) *)
Definition options_message : string :=
  "new BackupScheduler(options) -> Please provide a valid 'options' Object.".
Definition interval_message : string :=
  "new BackupScheduler(options) -> Please provide a valid 'interval' (in milliseconds) between each backup.".
Definition limit_message : string :=
  "new BackupScheduler(options) -> Please provide a valid 'limit' (in milliseconds) between each backup.".
Definition list_function_message : string :=
  "new BackupScheduler(options) -> Please provide a valid 'list' function to list the current backups in the upstream storage.".
Definition create_function_message : string :=
  "new BackupScheduler(options) -> Please provide a valid 'create' function to generate and upload a backup to the upstream storage.".
Definition delete_function_message : string :=
  "new BackupScheduler(options) -> Please provide a valid 'delete' function to delete a backup from the upstream storage.".

Definition new_BackupScheduler (options : argument) : completion scheduler :=
  if arg_not options || arg_typeof_isnt options "object" then
    Throw (VError options_message)
  else if not_ (get options "interval")
          || typeof_isnt (get options "interval") "number"
          || less_than (get options "interval") (num 1) then
    Throw (VError interval_message)
  else if not_ (get options "limit")
          || typeof_isnt (get options "limit") "number"
          || less_than (get options "limit") (num 1) then
    Throw (VError limit_message)
  else if not_ (get options "list")
          || typeof_isnt (get options "list") "function" then
    Throw (VError list_function_message)
  else if not_ (get options "create")
          || typeof_isnt (get options "create") "function" then
    Throw (VError create_function_message)
  else if not_ (get options "delete")
          || typeof_isnt (get options "delete") "function" then
    Throw (VError delete_function_message)
  else
    (* super(); this.options = options;
       this.#interval = setInterval(() => this.cycle(), this.options.interval) *)
    Normal {| options := options;
              interval := Some (get options "interval");
              in_flight := false;
              listeners := [] |}.

(** The configuration the specification calls valid. *)
Definition callable (v : value) : Prop := typeof v = "function".

Definition spec_valid (options : argument) : Prop :=
  (∃ n, get options "interval" = VNumber n ∧ positive_number n)
  ∧ (∃ n, get options "limit" = VNumber n ∧ positive_integer n)
  ∧ callable (get options "list")
  ∧ callable (get options "create")
  ∧ callable (get options "delete").

(** The configuration the constructor lets through. *)
Definition at_least_one (v : value) : Prop :=
  ∃ n, v = VNumber n ∧ n ≠ NaN ∧ num_lt n (num 1) = false.

Definition accepted (options : argument) : Prop :=
  (∃ properties, options = Object properties)
  ∧ at_least_one (get options "interval")
  ∧ at_least_one (get options "limit")
  ∧ callable (get options "list")
  ∧ callable (get options "create")
  ∧ callable (get options "delete").

(** ** S3BackupScheduler.js: the constructor *)

Definition S3_options_message : string :=
  "new S3BackupScheduler(options) -> Please provide a valid 'options' Object.".
Definition S3_bucket_message : string :=
  "new S3BackupScheduler(options) -> Please provide a valid bucket name to use for backups.".
Definition S3_accessKeyId_message : string :=
  "new S3BackupScheduler(options) -> Please provide a valid access key ID to access the S3 Bucket / Block storage.".
Definition S3_secretAccessKey_message : string :=
  "new S3BackupScheduler(options) -> Please provide a valid secret access key to access the S3 Bucket / Block storage.".
Definition S3_region_message : string :=
  "new S3BackupScheduler(options) -> Please provide a valid region to use for the S3 Bucket / Block storage.".
Definition S3_name_message : string :=
  "new S3BackupScheduler(options) -> Please provide a naming scheme for the backups. You may provide a string or a function that will be used to dynamically generate the name for each backup.".
Definition S3_prepare_message : string :=
  "new S3BackupScheduler(options) -> Please provide a valid 'prepare' function that will be used to prepare each backup.".

(** The arrow functions the subclass puts in place of [list], [create] and
    [delete]. *)
Definition list_override : value := VFunction 0.
Definition create_override : value := VFunction 1.
Definition delete_override : value := VFunction 2.

Definition redacted : value := VString "*******".

(** The argument of [super(...)]: the spread of [options], then the four
    redactions, then the three overrides. *)
Definition S3_super_options (options : argument) : argument :=
  Object (<["delete" := delete_override]>
          (<["create" := create_override]>
          (<["list" := list_override]>
          (<["secretAccessKey" := redacted]>
          (<["accessKeyId" := redacted]>
          (<["bucket" := redacted]>
          (<["region" := redacted]>
          (spread options)))))))).

(** The configuration [new AWS.S3({...})] receives. *)
Record S3ClientConfig : Type := mkS3ClientConfig {
  region : value;
  credentials_accessKeyId : value;
  credentials_secretAccessKey : value;
}.

Record S3BackupScheduler : Type := mkS3BackupScheduler {
  S3_super : scheduler;
  S3_name : value;
  S3_prepare : value;
  S3_bucket : value;
  S3_client : S3ClientConfig;
}.

Definition new_S3BackupScheduler (options : argument)
    : completion S3BackupScheduler :=
  if arg_not options || arg_typeof_isnt options "object" then
    Throw (VError S3_options_message)
  else if not_ (get options "bucket")
          || typeof_isnt (get options "bucket") "string" then
    Throw (VError S3_bucket_message)
  else if not_ (get options "accessKeyId")
          || typeof_isnt (get options "accessKeyId") "string" then
    Throw (VError S3_accessKeyId_message)
  else if not_ (get options "secretAccessKey")
          || typeof_isnt (get options "secretAccessKey") "string" then
    Throw (VError S3_secretAccessKey_message)
  else if not_ (get options "region")
          || typeof_isnt (get options "region") "string" then
    Throw (VError S3_region_message)
  else if not_ (get options "name")
          || typeof_isnt (get options "name") "function" then
    Throw (VError S3_name_message)
  else if not_ (get options "prepare")
          || typeof_isnt (get options "prepare") "function" then
    Throw (VError S3_prepare_message)
  else
    base ← new_BackupScheduler (S3_super_options options);
    Normal {| S3_super := base;
              S3_name := get options "name";
              S3_prepare := get options "prepare";
              S3_bucket := get options "bucket";
              S3_client :=
                {| region := get options "region";
                   credentials_accessKeyId := get options "accessKeyId";
                   credentials_secretAccessKey := get options "secretAccessKey" |} |}.

(** Two arguments that differ in the four credential entries at most. *)
Definition credential_key (key : string) : Prop :=
  key = "region" ∨ key = "bucket" ∨ key = "accessKeyId"
  ∨ key = "secretAccessKey".

Definition same_but_credentials (o1 o2 : argument) : Prop :=
  ∀ key, ¬ credential_key key → spread o1 !! key = spread o2 !! key.

(** ** DiskBackupScheduler.js: list *)

(** An entry of the directory with the times [stat] reports for it. *)
Record Dirent : Type := mkDirent {
  name : string;
  isFile : bool;
  birthtimeMs : number;
  mtimeMs : number;
  ctimeMs : number;
}.

(** [a || b] *)
Definition or_else (a b : value) : value := if ToBoolean a then a else b.

Fixpoint Disk_backups (files : list Dirent) : completion (list value) :=
  match files with
  | [] => Normal []
  | file :: rest =>
      if negb (isFile file) then Disk_backups rest
      else
        backup ← new_Backup (VString (name file))
                   (or_else (or_else (VNumber (birthtimeMs file))
                                     (VNumber (mtimeMs file)))
                            (VNumber (ctimeMs file)));
        backups ← Disk_backups rest;
        Normal (VBackup backup :: backups)
  end.

(** [async list(limit)] on a directory that holds [files]. *)
Definition DiskBackupScheduler_list (files : list Dirent) (limit : value)
    : completion value :=
  if num_lt (num (Z.of_nat (length files))) (ToNumber limit) then
    Normal (VBoolean false)
  else
    backups ← Disk_backups files;
    Normal (VArray backups).

(** [list: () => this.list()], the function the disk constructor stores in
    [options]: whatever it is called with, [this.list] receives no argument,
    so its [limit] is [undefined]. *)
Definition Disk_options_list (files : list Dirent) (args : list value)
    : completion value :=
  DiskBackupScheduler_list files VUndefined.

(** ** Several calls of [cycle] on one scheduler

    A scheduler together with the calls of [cycle] that are suspended at an
    await, and everything observed so far.  A step is a tick of the timer, a
    manual call of [cycle], the settling of an awaited backend call, the
    registration of a listener, or [destroy]. *)
Definition suspension : Type :=
  (method * list value * (completion value → prog bool))%type.

Record system : Type := mkSystem {
  sched : scheduler;
  suspended : list suspension;
  history : list event;
}.

Definition park (pr : promise bool) : list suspension :=
  match pr with
  | Suspended m args k => [(m, args, k)]
  | _ => []
  end.

(** A new call of [cycle] runs up to its first await. *)
Definition enter (cycle : prog bool) (σ : system) : system :=
  let '(s, tr, pr) := advance cycle (sched σ) in
  mkSystem s (suspended σ ++ park pr) (history σ ++ tr).

(** The [i]-th suspended call goes on with [p] up to its next await. *)
Definition resume (i : nat) (p : prog bool) (σ : system) : system :=
  let '(s, tr, pr) := advance p (sched σ) in
  mkSystem s (take i (suspended σ) ++ park pr ++ drop (S i) (suspended σ))
           (history σ ++ tr).

Inductive step (cycle : prog bool) : system → system → Prop :=
  | step_tick σ delay :
      interval (sched σ) = Some delay →
      step cycle σ (enter cycle σ)
  | step_manual σ :
      step cycle σ (enter cycle σ)
  | step_settle σ i m args k c :
      suspended σ !! i = Some (m, args, k) →
      step cycle σ (resume i (k c) σ)
  | step_on σ name l :
      step cycle σ (mkSystem (on name l (sched σ)) (suspended σ) (history σ))
  | step_destroy σ :
      step cycle σ (mkSystem (destroy (sched σ)) (suspended σ) (history σ)).

(** A scheduler fresh from its constructor. *)
Definition fresh (s : scheduler) : system := mkSystem s [] [].

(** ** Fixtures *)

(** A backend that answers from a script, one completion per call, and
    [undefined] once the script is used up. *)
Definition scripted : backend (list (completion value)) :=
  mkBackend (λ _ _ script,
    match script with
    | [] => (Normal VUndefined, [])
    | c :: rest => (c, rest)
    end).

Definition sample_options (limit : number) : argument :=
  Object (<["interval" := VNumber (num 1000)]>
          (<["limit" := VNumber limit]>
          (<["list" := VFunction 10]>
          (<["create" := VFunction 11]>
          (<["delete" := VFunction 12]> ∅))))).

(** The scheduler [new BackupScheduler(sample_options limit)] makes. *)
Definition sample (limit : number) : scheduler :=
  mkScheduler (sample_options limit) (Some (VNumber (num 1000))) false [].

(** A listener that returns. *)
Definition log_error : listener := λ _, Normal VUndefined.

Definition backup_at (id : string) (t : Z) : value :=
  VBackup (Backup.make id (num t)).

(** The example of the specification: four backups, oldest first. *)
Definition four : list value :=
  [backup_at "A" 100; backup_at "B" 200; backup_at "C" 300; backup_at "D" 400].

(** Backups with equal creation times, newest first. *)
Definition ties : list value :=
  [backup_at "c1" 300; backup_at "a1" 100; backup_at "c2" 300;
   backup_at "a2" 100; backup_at "b" 200].

Definition S3_sample_options (region bucket accessKeyId secretAccessKey : string)
    : argument :=
  Object (<["region" := VString region]>
          (<["bucket" := VString bucket]>
          (<["accessKeyId" := VString accessKeyId]>
          (<["secretAccessKey" := VString secretAccessKey]>
          (<["name" := VFunction 20]>
          (<["prepare" := VFunction 21]>
          (spread (sample_options (num 7))))))))).

(** The scheduler [new S3BackupScheduler(S3_sample_options ...)] makes. *)
Definition S3_sample (region bucket accessKeyId secretAccessKey : string)
    : S3BackupScheduler :=
  let given := S3_sample_options region bucket accessKeyId secretAccessKey in
  mkS3BackupScheduler
    (mkScheduler (S3_super_options given) (Some (VNumber (num 1000))) false [])
    (VFunction 20) (VFunction 21) (VString bucket)
    (mkS3ClientConfig (VString region) (VString accessKeyId)
                      (VString secretAccessKey)).

(** ** Vocabulary of the statements *)

#[global] Instance number_eq_dec : EqDecision number.
Proof. solve_decision. Defined.

(** A number the constructors of [Backup] and [BackupScheduler] let
    through: not [NaN] and not below [1]. *)
Definition from_one (n : number) : Prop := n ≠ NaN ∧ num_lt n (num 1) = false.

(** The creation time of a value that is a [Backup]. *)
Definition time_of (v : value) : option number :=
  match v with
  | VBackup b => Some (Backup.created_at b)
  | _ => None
  end.

(** A [Backup] whose creation time is a number proper. *)
Definition timed (v : value) : Prop :=
  ∃ b, v = VBackup b ∧ Backup.created_at b ≠ NaN.

(** [a] was not created after [b]. *)
Definition not_after (a b : value) : Prop :=
  ∃ ta tb, time_of a = Some ta ∧ time_of b = Some tb ∧ ta ≠ NaN ∧ tb ≠ NaN
           ∧ num_lt tb ta = false.

Definition ascending (l : list value) : Prop := StronglySorted not_after l.

(** The entries of [l] created at [t], in the order of [l]. *)
Definition created_at_time (t : number) (l : list value) : list value :=
  filter (λ v, time_of v = Some t) l.

(** [sorted] is a stable sort of [l] by creation time. *)
Definition stable_sort_of (l sorted : list value) : Prop :=
  sorted ≡ₚ l ∧ ascending sorted
  ∧ ∀ t, created_at_time t sorted = created_at_time t l.

Definition is_Throw {A : Type} (c : completion A) : Prop := ∃ e, c = Throw e.
Definition is_Normal {A : Type} (c : completion A) : Prop := ∃ a, c = Normal a.

(** A method that never writes [#in_flight]; it leaves the scheduler as it
    is.  This is the case of both bodies. *)
Inductive flagless {A : Type} : prog A → Prop :=
  | flagless_Ret a : flagless (Ret a)
  | flagless_Raise e : flagless (Raise e)
  | flagless_ReadInFlight k :
      (∀ b, flagless (k b)) → flagless (ReadInFlight k)
  | flagless_ReadOption key k :
      (∀ v, flagless (k v)) → flagless (ReadOption key k)
  | flagless_Await m args k :
      (∀ c, flagless (k c)) → flagless (Await m args k)
  | flagless_EmitEvent name arg k :
      (∀ c, flagless (k c)) → flagless (EmitEvent name arg k).

(** The retention step against a backend. *)
Definition retained {W : Type} (be : backend W) (sorted : list value)
    (s : scheduler) (w : W) (before : list event)
    : completion unit * scheduler * W * list event :=
  let overflow := overflow_of sorted (get (options s) "limit") in
  if num_lt (num 0) overflow then
    let sliced := Array_slice sorted (num 0) overflow in
    let '(c, w') := invoke be op_delete [VArray sliced] w in
    (c ≫= λ _, Normal (), s, w', before ++ [Called op_delete [VArray sliced]])
  else (Normal (), s, w, before).

(** The short-circuit property the way the specification words it: when
    [list] answers [false], [delete] is not called, [create] is called once
    and the cycle reports success. *)
Definition short_circuit_as_stated (cycle : prog bool) : Prop :=
  ∀ (W : Type) (be : backend W) s w w1,
    in_flight s = false →
    invoke be op_list [] w = (Normal (VBoolean false), w1) →
    calls_of op_delete (trace_of (run be cycle s w)) = []
    ∧ calls_of op_create (trace_of (run be cycle s w)) = [[]]
    ∧ result_of (run be cycle s w) = Normal true.

(** A method without an await. *)
Inductive quiet {A : Type} : prog A → Prop :=
  | quiet_Ret a : quiet (Ret a)
  | quiet_Raise e : quiet (Raise e)
  | quiet_ReadInFlight k : (∀ b, quiet (k b)) → quiet (ReadInFlight k)
  | quiet_WriteInFlight b k : quiet k → quiet (WriteInFlight b k)
  | quiet_ReadOption key k : (∀ v, quiet (k v)) → quiet (ReadOption key k)
  | quiet_EmitEvent name arg k :
      (∀ c, quiet (k c)) → quiet (EmitEvent name arg k).

(** A method that awaits nothing any more once it has written
    [#in_flight]. *)
Inductive holding {A : Type} : prog A → Prop :=
  | holding_Ret a : holding (Ret a)
  | holding_Raise e : holding (Raise e)
  | holding_ReadInFlight k : (∀ b, holding (k b)) → holding (ReadInFlight k)
  | holding_WriteInFlight b k : quiet k → holding (WriteInFlight b k)
  | holding_ReadOption key k :
      (∀ v, holding (k v)) → holding (ReadOption key k)
  | holding_Await m args k : (∀ c, holding (k c)) → holding (Await m args k)
  | holding_EmitEvent name arg k :
      (∀ c, holding (k c)) → holding (EmitEvent name arg k).

(** What holds of a scheduler and its suspended calls at any time: at most
    one call of [cycle] is suspended, and while it is, [#in_flight] is set
    and the call will not clear it before its last await. *)
Definition single_flight_invariant (σ : system) : Prop :=
  match suspended σ with
  | [] => True
  | [(m, args, k)] => in_flight (sched σ) = true ∧ ∀ c, holding (k c)
  | _ => False
  end.

(** A scheduler with a listener for ['error'], none of which throws. *)
Definition heard (s : scheduler) : Prop :=
  listeners_of "error" (listeners s) ≠ []
  ∧ Forall (λ l : listener, ∀ e, is_Normal (l e))
           (listeners_of "error" (listeners s)).

(** ** DiskBackupScheduler.js: the constructor *)

Definition Disk_options_message : string :=
  "new DiskBackupScheduler(options) -> Please provide a valid 'options' Object.".
Definition Disk_path_message : string :=
  "new DiskBackupScheduler(options) -> Please provide a valid 'path' to the directory where backups will be stored.".
Definition Disk_name_message : string :=
  "new DiskBackupScheduler(options) -> Please provide a naming scheme for the backups. You may provide a string or a function that will be used to dynamically generate the name for each backup.".
Definition Disk_prepare_message : string :=
  "new DiskBackupScheduler(options) -> Please provide a valid 'prepare' function that will be used to prepare each backup.".

(** What the disk constructor has asked of the file system by the time it
    returns or throws. *)
Inductive fs_request : Type :=
  | FileSystem_access (path : value).   (* access(path, F_OK, callback) *)

(** The argument of [super(...)]: the spread of [options], then the three
    overrides. *)
Definition Disk_super_options (options : argument) : argument :=
  Object (<["delete" := delete_override]>
          (<["create" := create_override]>
          (<["list" := list_override]>
          (spread options)))).

Record DiskBackupScheduler : Type := mkDiskBackupScheduler {
  Disk_super : scheduler;
  Disk_name : value;
  Disk_prepare : value;
  Disk_path : value;
}.

(** The two functions of Node the constructor calls are parameters: what
    [FileSystem.access] does with a path before it returns ([access]: it
    throws on a path it does not take, one with a null byte in it, and
    otherwise has made its request), and what [path.resolve] makes of a
    path ([resolve]: it asks for the working directory, which can fail). *)
Section Disk.
Context (access : string → completion unit).
Context (resolve : string → completion string).

(** [path.resolve(p)] *)
Definition path_resolve (p : value) : completion value :=
  match p with
  | VString s => resolved ← resolve s; Normal (VString resolved)
  | _ => Throw (VError "TypeError: The 'path' argument must be of type string.")
  end.

(** [FileSystem.access(p, FileSystem.constants.F_OK, callback)], up to its
    return. *)
Definition FileSystem_access_call (p : value)
    : list fs_request * completion unit :=
  match p with
  | VString s =>
      match access s with
      | Normal _ => ([FileSystem_access p], Normal tt)
      | Throw e => ([], Throw e)
      end
  | _ => ([], Throw (VError "TypeError: The 'path' argument must be of type string."))
  end.

(** The constructor, with the requests it has made of the file system by
    the time it returns or throws: [FileSystem.access] is called before
    [super(...)]. *)
Definition new_DiskBackupScheduler (options : argument)
    : list fs_request * completion DiskBackupScheduler :=
  if arg_not options || arg_typeof_isnt options "object" then
    ([], Throw (VError Disk_options_message))
  else if not_ (get options "path")
          || typeof_isnt (get options "path") "string" then
    ([], Throw (VError Disk_path_message))
  else if not_ (get options "name")
          || typeof_isnt (get options "name") "function" then
    ([], Throw (VError Disk_name_message))
  else if not_ (get options "prepare")
          || typeof_isnt (get options "prepare") "function" then
    ([], Throw (VError Disk_prepare_message))
  else
    let '(requests, called) := FileSystem_access_call (get options "path") in
    (requests,
     called ≫= λ _,
     base ← new_BackupScheduler (Disk_super_options options);
     resolved ← path_resolve (get options "path");
     Normal {| Disk_super := base;
               Disk_name := get options "name";
               Disk_prepare := get options "prepare";
               Disk_path := resolved |}).
End Disk.

(** The callback of [FileSystem.mkdir], which is called when
    [FileSystem.access] has answered with an error, on the scheduler as it is
    when the callback runs: on an error, [this.emit('error', error)] and then
    [this.destroy()]. *)
Definition mkdir_callback (error : value) (s : scheduler)
    : list event * completion scheduler :=
  if ToBoolean error then
    let '(delivered, c) := EventEmitter_emit (listeners s) "error" error in
    (Emitted "error" error :: delivered, c ≫= λ _, Normal (destroy s))
  else ([], Normal s).

(** ** S3BackupScheduler.js: list *)

(** An entry of [Contents] and the answer of [listObjectsV2], with the
    optional fields of the SDK; [LastModified] is what [getTime()] gives. *)
Record S3Object : Type := mkS3Object {
  Key : option string;
  LastModified : option number;
}.

Record ListObjectsV2Output : Type := mkListObjectsV2Output {
  KeyCount : option number;
  Contents : option (list S3Object);
  IsTruncated : option bool;
  NextContinuationToken : option string;
}.

Definition optional {A : Type} (inject : A → value) (o : option A) : value :=
  match o with
  | Some a => inject a
  | None => VUndefined
  end.

(** [a && b] *)
Definition and_then (a b : value) : value := if ToBoolean a then b else a.

(** [new Backup(file.Key, file.LastModified.getTime())] for each file, in
    order. *)
Fixpoint S3_backups (files : list S3Object) : completion (list value) :=
  match files with
  | [] => Normal []
  | file :: rest =>
      time ← match LastModified file with
             | Some t => Normal (VNumber t)
             | None =>
                 Throw (VError "TypeError: Cannot read properties of undefined (reading 'getTime')")
             end;
      backup ← new_Backup (optional VString (Key file)) time;
      backups ← S3_backups rest;
      Normal (VBackup backup :: backups)
  end.

(** [(response.IsTruncated && response.NextContinuationToken) || false] *)
Definition S3_more (response : ListObjectsV2Output) : value :=
  or_else (and_then (optional VBoolean (IsTruncated response))
                    (optional VString (NextContinuationToken response)))
          (VBoolean false).

(** [response.KeyCount || 0] *)
Definition S3_count (response : ListObjectsV2Output) : value :=
  or_else (optional VNumber (KeyCount response)) (VNumber (num 0)).

(** [async list(limit, ContinuationToken)] against a service that answers
    [listObjectsV2] by [client]; a listing is given a number of requests it
    may make. *)
Fixpoint S3BackupScheduler_list (requests : nat)
    (client : value → completion ListObjectsV2Output)
    (limit ContinuationToken : value) : option (completion value) :=
  match requests with
  | O => None
  | S requests' =>
      match client ContinuationToken with
      | Throw e => Some (Throw e)
      | Normal response =>
          let count := S3_count response in
          let files := default [] (Contents response) in
          let more := S3_more response in
          if not_ more && not_ ContinuationToken
             && num_lt (ToNumber count) (ToNumber limit) then
            Some (Normal (VBoolean false))
          else
            match S3_backups files with
            | Throw e => Some (Throw e)
            | Normal backups =>
                if ToBoolean more then
                  match S3BackupScheduler_list requests' client limit
                          (optional VString (NextContinuationToken response)) with
                  | None => None
                  | Some (Throw e) => Some (Throw e)
                  | Some (Normal more_backups) =>
                      if ToBoolean more_backups then
                        Some (Normal (VArray (backups ++ elements_of more_backups)))
                      else Some (Normal (VArray backups))
                  end
                else Some (Normal (VArray backups))
            end
      end
  end.

(** [list: () => this.list()], the function the S3 constructor stores in
    [options]. *)
Definition S3_options_list (requests : nat)
    (client : value → completion ListObjectsV2Output) (args : list value)
    : option (completion value) :=
  S3BackupScheduler_list requests client VUndefined VUndefined.

(** The service holds [pages] behind [token]: it answers the request for
    [token] with the first of them and, unless that is the last, with the
    token of the rest. *)
Inductive serves (client : value → completion ListObjectsV2Output)
    : value → list (list S3Object) → Prop :=
  | serves_last token response :
      client token = Normal response →
      ToBoolean (S3_more response) = false →
      serves client token [default [] (Contents response)]
  | serves_more token response pages :
      client token = Normal response →
      ToBoolean (S3_more response) = true →
      serves client (optional VString (NextContinuationToken response)) pages →
      serves client token (default [] (Contents response) :: pages).

(** An object the service lists with a key and a time a [Backup] takes. *)
Definition S3_valid (file : S3Object) : Prop :=
  ∃ key t, Key file = Some key ∧ key ≠ EmptyString
           ∧ LastModified file = Some t ∧ from_one t.

Definition S3_backup (file : S3Object) : value :=
  VBackup (Backup.make (default EmptyString (Key file))
                       (default NaN (LastModified file))).

(** ** The timer alone

    The steps of a scheduler nobody calls [cycle] on by hand. *)
Inductive timer_step (cycle : prog bool) : system → system → Prop :=
  | timer_tick σ delay :
      interval (sched σ) = Some delay →
      timer_step cycle σ (enter cycle σ)
  | timer_settle σ i m args k c :
      suspended σ !! i = Some (m, args, k) →
      timer_step cycle σ (resume i (k c) σ)
  | timer_on σ name l :
      timer_step cycle σ (mkSystem (on name l (sched σ)) (suspended σ) (history σ))
  | timer_destroy σ :
      timer_step cycle σ (mkSystem (destroy (sched σ)) (suspended σ) (history σ)).

(** A method that does not call [list]. *)
Inductive listless {A : Type} : prog A → Prop :=
  | listless_Ret a : listless (Ret a)
  | listless_Raise e : listless (Raise e)
  | listless_ReadInFlight k : (∀ b, listless (k b)) → listless (ReadInFlight k)
  | listless_WriteInFlight b k : listless k → listless (WriteInFlight b k)
  | listless_ReadOption key k :
      (∀ v, listless (k v)) → listless (ReadOption key k)
  | listless_Await m args k :
      m ≠ op_list → (∀ c, listless (k c)) → listless (Await m args k)
  | listless_EmitEvent name arg k :
      (∀ c, listless (k c)) → listless (EmitEvent name arg k).

(** More fixtures: a directory, a bucket in two pages. *)
Definition sample_directory : list Dirent :=
  [mkDirent "monday.sql" true (num 1000) (num 1500) (num 1500);
   mkDirent "archive" false (num 900) (num 900) (num 900);
   mkDirent "tuesday.sql" true (num 0) (num 2000) (num 2500)].

Definition sample_pages : list (list S3Object) :=
  [[mkS3Object (Some "a") (Some (num 100)); mkS3Object (Some "b") (Some (num 200))];
   [mkS3Object (Some "c") (Some (num 300))]].

Definition sample_client (token : value) : completion ListObjectsV2Output :=
  match token with
  | VUndefined =>
      Normal (mkListObjectsV2Output (Some (num 2))
                (Some [mkS3Object (Some "a") (Some (num 100));
                       mkS3Object (Some "b") (Some (num 200))])
                (Some true) (Some "page2"))
  | VString _ =>
      Normal (mkListObjectsV2Output (Some (num 1))
                (Some [mkS3Object (Some "c") (Some (num 300))])
                (Some false) None)
  | _ => Throw (VError "InvalidArgument")
  end.

Definition Disk_sample_options : argument :=
  Object (<["path" := VString "./backups"]>
          (<["name" := VFunction 20]>
          (<["prepare" := VFunction 21]>
          (<["interval" := VNumber (num 1000)]>
          (<["limit" := VNumber (num 7)]> ∅))))).

(** ** The runs of a body

    Every way the body of [cycle] can run against a backend, with its
    result, the state the backend is left in and the calls made; [strict]
    tells the earlier revision from the later one. *)
Inductive body_run {W : Type} (be : backend W) (strict : bool)
    (s : scheduler) (w : W)
    : completion unit * scheduler * W * list event → Prop :=
  | list_threw e w1 :
      invoke be op_list [] w = (Throw e, w1) →
      body_run be strict s w (Throw e, s, w1, [Called op_list []])
  | short_circuited c2 w1 w2 :
      strict = false →
      invoke be op_list [] w = (Normal (VBoolean false), w1) →
      invoke be op_create [] w1 = (c2, w2) →
      body_run be strict s w
        (c2 ≫= λ _, Normal (), s, w2, [Called op_list []; Called op_create []])
  | list_rejected listed w1 :
      invoke be op_list [] w = (Normal listed, w1) →
      (strict = false → is_false listed = false) →
      rejected_list listed = true →
      body_run be strict s w
        (Throw (VError list_message), s, w1, [Called op_list []])
  | sort_threw l e w1 :
      invoke be op_list [] w = (Normal (VArray l), w1) →
      rejected_list (VArray l) = false →
      Array_sort by_created_at l = Throw e →
      body_run be strict s w (Throw e, s, w1, [Called op_list []])
  | create_threw l sorted e w1 w2 :
      invoke be op_list [] w = (Normal (VArray l), w1) →
      rejected_list (VArray l) = false →
      Array_sort by_created_at l = Normal sorted →
      invoke be op_create [] w1 = (Throw e, w2) →
      body_run be strict s w
        (Throw e, s, w2, [Called op_list []; Called op_create []])
  | create_rejected l sorted backup w1 w2 :
      strict = true →
      invoke be op_list [] w = (Normal (VArray l), w1) →
      rejected_list (VArray l) = false →
      Array_sort by_created_at l = Normal sorted →
      invoke be op_create [] w1 = (Normal backup, w2) →
      instanceof_Backup backup = false →
      body_run be strict s w
        (Throw (VError create_message), s, w2,
         [Called op_list []; Called op_create []])
  | within_limit l sorted backup w1 w2 :
      invoke be op_list [] w = (Normal (VArray l), w1) →
      rejected_list (VArray l) = false →
      Array_sort by_created_at l = Normal sorted →
      invoke be op_create [] w1 = (Normal backup, w2) →
      (strict = true → instanceof_Backup backup = true) →
      num_lt (num 0) (overflow_of sorted (get (options s) "limit")) = false →
      body_run be strict s w
        (Normal (), s, w2, [Called op_list []; Called op_create []])
  | over_limit l sorted backup c3 w1 w2 w3 :
      invoke be op_list [] w = (Normal (VArray l), w1) →
      rejected_list (VArray l) = false →
      Array_sort by_created_at l = Normal sorted →
      invoke be op_create [] w1 = (Normal backup, w2) →
      (strict = true → instanceof_Backup backup = true) →
      num_lt (num 0) (overflow_of sorted (get (options s) "limit")) = true →
      invoke be op_delete
        [VArray (Array_slice sorted (num 0)
                   (overflow_of sorted (get (options s) "limit")))] w2
      = (c3, w3) →
      body_run be strict s w
        (c3 ≫= λ _, Normal (), s, w3,
         [Called op_list []; Called op_create [];
          Called op_delete
            [VArray (Array_slice sorted (num 0)
                       (overflow_of sorted (get (options s) "limit")))]]).

Definition body_of (strict : bool) : prog unit :=
  if strict then Strict.body else ShortCircuit.body.

Definition cycle_of (strict : bool) : prog bool :=
  if strict then Strict.cycle else ShortCircuit.cycle.

(** What the rest of the program can do to a scheduler between two calls
    of [cycle]: register and remove listeners (a listener registered with
    [once] is gone after the emission it received), destroy the scheduler,
    assign [options]; anything but write [#in_flight], which is private to
    the class. *)
Definition outside (f : scheduler → scheduler) : Prop :=
  ∀ s, in_flight (f s) = in_flight s.

(** A call of [cycle]: the scheduler it was made on, what it returned, and
    what was seen of it. *)
Record turn : Type := mkTurn {
  before : scheduler;
  returned : completion bool;
  observed : list event;
}.

(** Calls of [cycle] one after the other, each awaited before the next is
    made, each after what the rest of the program did to the scheduler in
    the meantime. *)
Fixpoint run_cycles {W : Type} (be : backend W) (cycle : prog bool)
    (between : list (scheduler → scheduler)) (s : scheduler) (w : W)
    : list turn * scheduler * W :=
  match between with
  | [] => ([], s, w)
  | f :: rest =>
      let '(r, s', w', tr) := run be cycle (f s) w in
      let '(turns, s'', w'') := run_cycles be cycle rest s' w' in
      (mkTurn (f s) r tr :: turns, s'', w'')
  end.

(** A number the source can hold, a double: [m * 2^(a - b)] with
    [|m| < 2^53] and an exponent between -1074 and 971. *)
Definition double (n : number) : Prop :=
  match n with
  | Fin q =>
      ∃ m a b : Z,
        Z.abs m < 2 ^ 53 ∧ 0 ≤ a ≤ 971 ∧ 0 ≤ b ≤ 1074
        ∧ (q * Qc_of_Z (2 ^ b) = Qc_of_Z (m * 2 ^ a))%Qc
  | _ => True
  end.

(** No suspended call of [cycle] will call [list] again. *)
Definition listed_already (σ : system) : Prop :=
  Forall (λ x : suspension, ∀ c, listless (x.2 c)) (suspended σ).

(** A value that is a string and not the empty one. *)
Definition nonempty_string (v : value) : Prop :=
  ∃ s, v = VString s ∧ s ≠ EmptyString.

(** The keys the S3 constructor writes over in the options it hands on. *)
Definition S3_written (key : string) : Prop :=
  credential_key key ∨ key = "list" ∨ key = "create" ∨ key = "delete".

(** The time the disk backend takes for a file: the birth time unless it
    is zero, then the modification time unless it is zero, then the change
    time. *)
Definition Disk_time (file : Dirent) : number :=
  if num_truthy (birthtimeMs file) then birthtimeMs file
  else if num_truthy (mtimeMs file) then mtimeMs file
  else ctimeMs file.

Definition Disk_backup (file : Dirent) : value :=
  VBackup (Backup.make (name file) (Disk_time file)).

Definition Disk_valid (file : Dirent) : Prop :=
  name file ≠ EmptyString ∧ from_one (Disk_time file).

(** ** The backends: [delete]

    Both take the array of [Backup]s the core hands them. *)

(** [delete(backups)] of the disk backend: the paths it asks [unlink] for,
    in the order of [backups], all of them requested before any is
    awaited. *)
Definition DiskBackupScheduler_delete (path : string)
    (backups : list Backup.t) : list string :=
  (λ backup, path +:+ "/" +:+ Backup.id backup) <$> backups.

(** [delete(backups)] of the S3 backend: the keys of the [Objects] of its
    one [deleteObjects] request. *)
Definition S3BackupScheduler_delete (backups : list Backup.t) : list string :=
  Backup.id <$> backups.

(** * Properties *)

(** ** Numbers *)

Lemma num_lt_irrefl a : num_lt a a = false.
Proof.
  destruct a; simpl; try done.
  apply bool_decide_eq_false. intros H. by apply (Qclt_not_eq _ _ H).
Qed.

Lemma num_lt_num (x y : Z) : num_lt (num x) (num y) = bool_decide (x < y).
Proof.
  unfold num; simpl. apply bool_decide_ext. symmetry. apply Z2Qc_inj_lt.
Qed.

Lemma num_add_num (x y : Z) : num_add (num x) (num y) = num (x + y).
Proof. unfold num; simpl. by rewrite Z2Qc_inj_add. Qed.

Lemma num_sub_num (x y : Z) : num_sub (num x) (num y) = num (x - y).
Proof. unfold num, num_sub; simpl. by rewrite Z2Qc_inj_sub. Qed.

Lemma ToIntegerOrInfinity_num (z : Z) : ToIntegerOrInfinity (num z) = IFin z.
Proof. unfold num; simpl. by rewrite Z.quot_1_r. Qed.

Lemma num_truthy_from_one n : from_one n → num_truthy n = true.
Proof.
  intros [Hn Hlt]. destruct n as [| | |q]; simpl in *; try done.
  apply negb_true_iff, bool_decide_eq_false. intros ->.
  apply bool_decide_eq_false in Hlt. apply Hlt.
  by apply Z2Qc_inj_lt.
Qed.

Lemma from_one_positive n : from_one n → positive_number n.
Proof.
  intros [Hn Hlt]. unfold positive_number.
  destruct n as [| | |q]; simpl in *; try done.
  apply bool_decide_eq_true. apply bool_decide_eq_false in Hlt.
  apply Qclt_le_trans with (Qc_of_Z 1).
  - by apply Z2Qc_inj_lt.
  - by apply Qcnot_lt_le.
Qed.

(** The sign of a difference of two numbers that are not [NaN], read the
    way [SortCompare] reads the answer of a comparator. *)
Lemma difference_sign a b :
  a ≠ NaN → b ≠ NaN →
  num_lt (num 0) (match num_sub a b with NaN => num 0 | n => n end)
  = num_lt b a.
Proof.
  intros Ha Hb. destruct a as [| | |x], b as [| | |y]; simpl; try done.
  apply bool_decide_ext. rewrite Z2Qc_inj_0.
  rewrite (Qcplus_lt_mono_r y x (- y)), Qcplus_opp_r. done.
Qed.

Lemma num_lt_false_trans a b c :
  a ≠ NaN → b ≠ NaN → c ≠ NaN →
  num_lt b a = false → num_lt c b = false → num_lt c a = false.
Proof.
  intros Ha Hb Hc.
  destruct a as [| | |x], b as [| | |y], c as [| | |z]; simpl; try done.
  rewrite !bool_decide_eq_false. intros H1 H2 H3.
  apply Qcnot_lt_le in H1, H2.
  apply (Qclt_not_le _ _ H3). by apply Qcle_trans with y.
Qed.

Lemma num_lt_false_antisym a b :
  a ≠ NaN → b ≠ NaN →
  num_lt b a = false → num_lt a b = false → a = b.
Proof.
  intros Ha Hb. destruct a as [| | |x], b as [| | |y]; simpl; try done.
  rewrite !bool_decide_eq_false. intros H1 H2.
  f_equal. apply Qcle_antisym; by apply Qcnot_lt_le.
Qed.

(** ** Values *)

Lemma is_Throw_not_Normal {A : Type} (c : completion A) :
  is_Throw c ↔ ¬ is_Normal c.
Proof.
  destruct c as [a|e]; split.
  - by intros [? ?].
  - intros H. destruct H. by exists a.
  - by intros _ [? ?].
  - intros _. by exists e.
Qed.

Lemma typeof_isnt_false v t : typeof_isnt v t = false ↔ typeof v = t.
Proof.
  unfold typeof_isnt. rewrite bool_decide_eq_false.
  destruct (decide (typeof v = t)); naive_solver.
Qed.

Lemma typeof_string v : typeof v = "string" ↔ ∃ s, v = VString s.
Proof. split; [destruct v; try done; eauto | by intros [s ->]]. Qed.

Lemma typeof_number v : typeof v = "number" ↔ ∃ n, v = VNumber n.
Proof. split; [destruct v; try done; eauto | by intros [n ->]]. Qed.

Lemma typeof_function v : typeof v = "function" ↔ ∃ f, v = VFunction f.
Proof. split; [destruct v; try done; eauto | by intros [n ->]]. Qed.

(** The test the constructors apply to a number:
    [!v || typeof v !== 'number' || v < 1]. *)
Lemma number_test v :
  not_ v || typeof_isnt v "number" || less_than v (num 1) = false
  ↔ ∃ n, v = VNumber n ∧ from_one n.
Proof.
  rewrite !orb_false_iff, typeof_isnt_false, typeof_number. split.
  - intros [[Hnot [n ->]] Hlt]. exists n. split; [done|].
    unfold not_, less_than in *; simpl in *. split; [|done].
    intros ->. done.
  - intros (n & -> & Hn). split; [split|]; [|by eexists|by destruct Hn].
    unfold not_; simpl. by rewrite num_truthy_from_one.
Qed.

(** The test the constructors apply to a string:
    [!v || typeof v !== 'string']. *)
Lemma string_test v :
  not_ v || typeof_isnt v "string" = false
  ↔ ∃ s, v = VString s ∧ s ≠ EmptyString.
Proof.
  rewrite orb_false_iff, typeof_isnt_false, typeof_string. split.
  - intros [Hnot [s ->]]. exists s. split; [done|].
    unfold not_ in Hnot; simpl in Hnot. intros ->. done.
  - intros (s & -> & Hs). split; [|by eexists].
    unfold not_; simpl. rewrite negb_involutive. by apply bool_decide_eq_false.
Qed.

(** The test the constructors apply to a function:
    [!v || typeof v !== 'function']. *)
Lemma function_test v :
  not_ v || typeof_isnt v "function" = false ↔ callable v.
Proof.
  unfold callable. rewrite orb_false_iff, typeof_isnt_false. split.
  - by intros [_ ?].
  - intros H. split; [|done]. apply typeof_function in H as [f ->]. done.
Qed.

(** ** Backup.js *)

Lemma new_Backup_Normal id created_at b :
  new_Backup id created_at = Normal b
  ↔ id = VString (Backup.id b) ∧ Backup.id b ≠ EmptyString
    ∧ created_at = VNumber (Backup.created_at b)
    ∧ from_one (Backup.created_at b).
Proof.
  unfold new_Backup.
  destruct (not_ id || typeof_isnt id "string") eqn:Hid.
  { split; [done|]. intros (-> & Hs & _).
    assert (not_ (VString (Backup.id b))
            || typeof_isnt (VString (Backup.id b)) "string" = false) as E
      by (apply string_test; eauto).
    congruence. }
  apply string_test in Hid as (s & -> & Hs).
  destruct (not_ created_at || typeof_isnt created_at "number"
            || less_than created_at (num 1)) eqn:Hat.
  { split; [done|]. intros (_ & _ & -> & Hn).
    assert (not_ (VNumber (Backup.created_at b))
            || typeof_isnt (VNumber (Backup.created_at b)) "number"
            || less_than (VNumber (Backup.created_at b)) (num 1) = false) as E
      by (apply number_test; eauto).
    congruence. }
  apply number_test in Hat as (n & -> & Hn).
  destruct b as [s' n']; simpl. split.
  - intros [= -> ->]. done.
  - intros ([= ->] & _ & [= ->] & _). done.
Qed.

Lemma constructed_from_one b : constructed b → from_one (Backup.created_at b).
Proof. intros (i & c & H). by apply new_Backup_Normal in H as (_ & _ & _ & ?). Qed.

(** C9.  A [Backup] the constructor returns holds the [id] it was given, a
    non-empty string, and the [created_at] it was given, a strictly
    positive number; the constructor throws on an [id] that is not a string
    or is the empty string, and on a [created_at] that is not strictly
    positive (zero, negative, [NaN]). *)
Theorem Backup_invariant :
  (∀ id created_at b,
     new_Backup id created_at = Normal b →
     id = VString (Backup.id b) ∧ Backup.id b ≠ EmptyString
     ∧ created_at = VNumber (Backup.created_at b)
     ∧ positive_number (Backup.created_at b))
  ∧ (∀ id created_at,
       (∀ s, id = VString s → s = EmptyString) →
       is_Throw (new_Backup id created_at))
  ∧ (∀ id n,
       ¬ positive_number n → is_Throw (new_Backup id (VNumber n))).
Proof.
  split; [|split].
  - intros id created_at b H.
    apply new_Backup_Normal in H as (? & ? & ? & ?).
    eauto using from_one_positive.
  - intros id created_at Hid. apply is_Throw_not_Normal. intros [b H].
    apply new_Backup_Normal in H as (-> & Hs & _). by apply Hs, Hid.
  - intros id n Hn. apply is_Throw_not_Normal. intros [b H].
    apply new_Backup_Normal in H as (_ & _ & [= ->] & Hb).
    by apply Hn, from_one_positive.
Qed.

Lemma Backup_invariant_witness :
  Backup.id (Backup.make "2024-01-01.tar" (num 1704067200000)) ≠ EmptyString
  ∧ positive_number (Backup.created_at (Backup.make "2024-01-01.tar" (num 1704067200000)))
  ∧ is_Throw (new_Backup (VString EmptyString) (VNumber (num 5)))
  ∧ is_Throw (new_Backup (VString "a") (VNumber (num 0))).
Proof.
  destruct Backup_invariant as (Hok & Hid & Hat).
  destruct (Hok (VString "2024-01-01.tar") (VNumber (num 1704067200000)) _ eq_refl)
    as (_ & Hs & _ & Hn).
  split; [exact Hs|]. split; [exact Hn|]. split.
  - apply Hid. intros s [= <-]. reflexivity.
  - apply Hat. unfold positive_number. rewrite num_lt_irrefl. discriminate.
Defined.

(** ** The constructor of BackupScheduler *)

Lemma options_test options :
  arg_not options || arg_typeof_isnt options "object" = false
  ∨ (∀ key, get options key = VUndefined).
Proof. destruct options as [properties|v]; [by left | by right]. Qed.

Lemma new_BackupScheduler_Normal options s :
  new_BackupScheduler options = Normal s
  ↔ accepted options
    ∧ s = mkScheduler options (Some (get options "interval")) false [].
Proof.
  unfold new_BackupScheduler, accepted, at_least_one.
  destruct (arg_not options || arg_typeof_isnt options "object") eqn:Hobj.
  { split; [done|]. intros [([properties ->] & _) _]. done. }
  destruct (not_ (get options "interval")
            || typeof_isnt (get options "interval") "number"
            || less_than (get options "interval") (num 1)) eqn:Hinterval.
  { split; [done|]. intros [(_ & (n & Hn & ? & ?) & _) _].
    assert (∃ n, get options "interval" = VNumber n ∧ from_one n) as E
      by (exists n; done).
    apply number_test in E. congruence. }
  destruct (not_ (get options "limit")
            || typeof_isnt (get options "limit") "number"
            || less_than (get options "limit") (num 1)) eqn:Hlimit.
  { split; [done|]. intros [(_ & _ & (n & Hn & ? & ?) & _) _].
    assert (∃ n, get options "limit" = VNumber n ∧ from_one n) as E
      by (exists n; done).
    apply number_test in E. congruence. }
  destruct (not_ (get options "list")
            || typeof_isnt (get options "list") "function") eqn:Hlist.
  { split; [done|]. intros [(_ & _ & _ & E & _) _].
    apply function_test in E. congruence. }
  destruct (not_ (get options "create")
            || typeof_isnt (get options "create") "function") eqn:Hcreate.
  { split; [done|]. intros [(_ & _ & _ & _ & E & _) _].
    apply function_test in E. congruence. }
  destruct (not_ (get options "delete")
            || typeof_isnt (get options "delete") "function") eqn:Hdelete.
  { split; [done|]. intros [(_ & _ & _ & _ & _ & E) _].
    apply function_test in E. congruence. }
  apply number_test in Hinterval as (i & Hi & ? & ?).
  apply number_test in Hlimit as (l & Hl & ? & ?).
  apply function_test in Hlist, Hcreate, Hdelete.
  split.
  - intros [= <-]. split; [|done].
    split; [|by eauto 15].
    destruct options as [properties|v]; [by eexists|]. done.
  - by intros [_ ->].
Qed.

Lemma new_BackupScheduler_options given s :
  new_BackupScheduler given = Normal s →
  options s = given ∧ in_flight s = false ∧ listeners s = [].
Proof. intros H. by apply new_BackupScheduler_Normal in H as [_ ->]. Qed.

Lemma fraction_not_integer : ¬ positive_integer (Fin (Q2Qc (5 # 2))).
Proof. intros (z & _ & H). unfold num, Qc_of_Z in H. by injection H. Qed.

Lemma half_positive : positive_number (Fin (Q2Qc (1 # 2))).
Proof. reflexivity. Qed.

(** C7, as stated, fails in both directions: a limit of 2.5 is no positive
    integer and the constructor returns a scheduler; an interval of 0.5 is a
    positive number and the constructor throws. *)
Lemma constructor_validation_counterexample :
  ¬ (∀ options, is_Throw (new_BackupScheduler options) ↔ ¬ spec_valid options)
  ∧ (¬ spec_valid (sample_options (Fin (Q2Qc (5 # 2))))
     ∧ new_BackupScheduler (sample_options (Fin (Q2Qc (5 # 2))))
       = Normal (sample (Fin (Q2Qc (5 # 2)))))
  ∧ (spec_valid (Object (<["interval" := VNumber (Fin (Q2Qc (1 # 2)))]>
                           (spread (sample_options (num 3)))))
     ∧ new_BackupScheduler
         (Object (<["interval" := VNumber (Fin (Q2Qc (1 # 2)))]>
                    (spread (sample_options (num 3)))))
       = Throw (VError interval_message)).
Proof.
  assert (¬ spec_valid (sample_options (Fin (Q2Qc (5 # 2))))) as Hinvalid.
  { intros (_ & (n & Hn & Hint) & _). vm_compute in Hn.
    injection Hn as <-. by apply fraction_not_integer. }
  split; [|split; [split|split]]; try done.
  - intros H. apply (H (sample_options (Fin (Q2Qc (5 # 2))))) in Hinvalid.
    by destruct Hinvalid.
  - split; [|split; [|done]].
    + exists (Fin (Q2Qc (1 # 2))). split; [done|]. apply half_positive.
    + exists (num 3). split; [done|]. exists 3. done.
Qed.

(** C7, amended.  The constructor throws exactly on the configurations it
    does not accept, where it accepts an object whose [interval] and [limit]
    are numbers that are not [NaN] and not below 1 (an integer or not,
    [Infinity] included) and whose [list], [create] and [delete] are
    functions; on an accepted configuration it returns a scheduler. *)
Theorem constructor_validation given :
  (is_Throw (new_BackupScheduler given) ↔ ¬ accepted given)
  ∧ (accepted given → is_Normal (new_BackupScheduler given)).
Proof.
  split.
  - rewrite is_Throw_not_Normal. split.
    + intros H Hacc. apply H. eexists. by apply new_BackupScheduler_Normal.
    + intros H [s Hs]. by apply new_BackupScheduler_Normal in Hs as [? _].
  - intros H. eexists. by apply new_BackupScheduler_Normal.
Qed.

Lemma sample_accepted limit : from_one limit → accepted (sample_options limit).
Proof.
  intros [? ?]. split; [by eexists|].
  split; [by exists (num 1000)|]. split; [by exists limit|]. done.
Qed.

Lemma constructor_validation_witness :
  is_Normal (new_BackupScheduler (sample_options (num 3)))
  ∧ is_Throw (new_BackupScheduler (Other VNull)).
Proof.
  split.
  - apply (constructor_validation (sample_options (num 3))).
    apply sample_accepted. done.
  - apply (constructor_validation (Other VNull)).
    intros ([properties Hp] & _). discriminate Hp.
Defined.

(** ** The constructor of S3BackupScheduler *)

Lemma new_S3BackupScheduler_options given s3 :
  new_S3BackupScheduler given = Normal s3 →
  options (S3_super s3) = S3_super_options given.
Proof.
  unfold new_S3BackupScheduler.
  repeat match goal with
         | |- (if ?c then _ else _) = _ → _ => destruct c; [done|]
         end.
  destruct (new_BackupScheduler (S3_super_options given)) as [base|e] eqn:H;
    [|done].
  simpl. intros [= <-]. simpl.
  by apply new_BackupScheduler_options in H as [? _].
Qed.

Lemma S3_super_options_redacted options key :
  credential_key key → get (S3_super_options options) key = redacted.
Proof.
  unfold S3_super_options, get.
  intros [-> | [-> | [-> | ->]]]; rewrite !lookup_insert;
    by repeat (case_decide; [|try done]).
Qed.

Lemma S3_super_options_same o1 o2 :
  same_but_credentials o1 o2 → S3_super_options o1 = S3_super_options o2.
Proof.
  intros H. unfold S3_super_options. f_equal. apply map_eq. intros key.
  rewrite !lookup_insert.
  repeat (case_decide; [done|]).
  apply H. by intros [-> | [-> | [-> | ->]]].
Qed.

(** C10.  After a successful construction the [options] field holds the
    placeholder under [region], [bucket], [accessKeyId] and
    [secretAccessKey]; and two successful constructions whose arguments
    differ in these four entries at most store the same [options]
    altogether, hence the same credential entries. *)
Theorem S3_options_redacted :
  (∀ given s3 key,
     new_S3BackupScheduler given = Normal s3 →
     credential_key key →
     get (options (S3_super s3)) key = VString "*******")
  ∧ (∀ o1 o2 s1 s2,
       same_but_credentials o1 o2 →
       new_S3BackupScheduler o1 = Normal s1 →
       new_S3BackupScheduler o2 = Normal s2 →
       options (S3_super s1) = options (S3_super s2)
       ∧ ∀ key, credential_key key →
                get (options (S3_super s1)) key
                = get (options (S3_super s2)) key).
Proof.
  split.
  - intros given s3 key H Hkey.
    rewrite (new_S3BackupScheduler_options _ _ H).
    by apply S3_super_options_redacted.
  - intros o1 o2 s1 s2 Hsame H1 H2.
    rewrite (new_S3BackupScheduler_options _ _ H1),
            (new_S3BackupScheduler_options _ _ H2).
    rewrite (S3_super_options_same _ _ Hsame). done.
Qed.

Lemma S3_options_redacted_witness :
  get (options (S3_super (S3_sample "eu-west-1" "vault" "AKIA1" "s3cr3t")))
      "secretAccessKey" = VString "*******"
  ∧ options (S3_super (S3_sample "eu-west-1" "vault" "AKIA1" "s3cr3t"))
    = options (S3_super (S3_sample "us-east-2" "attic" "AKIA2" "hunter2")).
Proof.
  destruct S3_options_redacted as [Hredacted Hsame]. split.
  - apply (Hredacted (S3_sample_options "eu-west-1" "vault" "AKIA1" "s3cr3t")).
    + vm_compute. reflexivity.
    + unfold credential_key. auto.
  - apply (Hsame (S3_sample_options "eu-west-1" "vault" "AKIA1" "s3cr3t")
                 (S3_sample_options "us-east-2" "attic" "AKIA2" "hunter2")).
    + intros key Hkey. unfold S3_sample_options, spread.
      rewrite !lookup_insert.
      repeat (case_decide; [try done; subst; unfold credential_key in Hkey; tauto|]).
      done.
    + vm_compute. reflexivity.
    + vm_compute. reflexivity.
Defined.

(** ** Methods that leave [#in_flight] alone *)

Create HintDb flagless.

Lemma flagless_bind {A B : Type} (p : prog A) (f : A → prog B) :
  flagless p → (∀ a, flagless (f a)) → flagless (p ≫= f).
Proof.
  unfold mbind, prog_mbind. intros Hp Hf.
  induction Hp; simpl; try by constructor. apply Hf.
Qed.

Lemma flagless_try_catch {A : Type} (p : prog A) (h : value → prog A) :
  flagless p → (∀ e, flagless (h e)) → flagless (try_catch p h).
Proof. intros Hp Hh. induction Hp; simpl; try by constructor. apply Hh. Qed.

Lemma flagless_settle {A : Type} (c : completion A) : flagless (settle c).
Proof. destruct c; constructor. Qed.

Lemma flagless_await m args : flagless (await m args).
Proof. constructor. apply flagless_settle. Qed.

Lemma flagless_this_emit name arg : flagless (this_emit name arg).
Proof. constructor. apply flagless_settle. Qed.

Lemma flagless_this_options key : flagless (this_options key).
Proof. constructor. constructor. Qed.

Lemma flagless_guard (b : bool) (e : value) :
  flagless (if b then Raise e else Ret tt).
Proof. destruct b; constructor. Qed.

#[local] Hint Constructors flagless : flagless.
#[local] Hint Resolve flagless_settle flagless_await flagless_this_emit
  flagless_this_options flagless_guard : flagless.

Ltac flagless_binds :=
  repeat first [ solve [auto with flagless] | apply flagless_bind; [|intros ?] ].

Lemma flagless_delete_overflow sorted : flagless (delete_overflow sorted).
Proof. unfold delete_overflow. flagless_binds. case_match; flagless_binds. Qed.

#[local] Hint Resolve flagless_delete_overflow : flagless.

Lemma flagless_Strict_body : flagless Strict.body.
Proof. unfold Strict.body, sorted_copy. flagless_binds. Qed.

Lemma flagless_ShortCircuit_body : flagless ShortCircuit.body.
Proof.
  unfold ShortCircuit.body, sorted_copy. flagless_binds.
  case_match; flagless_binds.
Qed.

Lemma flagless_body body :
  body = Strict.body ∨ body = ShortCircuit.body → flagless body.
Proof.
  intros [-> | ->];
    [apply flagless_Strict_body | apply flagless_ShortCircuit_body].
Qed.

(** ** Running a method *)

Section Run.
Context {W : Type} (be : backend W).

Lemma run_bind {A B : Type} (p : prog A) (f : A → prog B) s w :
  run be (p ≫= f) s w
  = match run be p s w with
    | (Normal a, s', w', tr) =>
        let '(r, s'', w'', tr') := run be (f a) s' w' in (r, s'', w'', tr ++ tr')
    | (Throw e, s', w', tr) => (Throw e, s', w', tr)
    end.
Proof.
  unfold mbind, prog_mbind. revert s w.
  induction p as [a|e|k IH|b k IH|key k IH|m args k IH|name arg k IH];
    intros s w; simpl; try done.
  - by destruct (run be (f a) s w) as [[[r s'] w'] tr].
  - destruct (invoke be m args w) as [c w']. rewrite IH.
    destruct (run be (k c) s w') as [[[[a|e] s'] w''] tr]; [|done].
    by destruct (run be (f a) s' w'') as [[[r s''] w3] tr'].
  - destruct (EventEmitter_emit (listeners s) name arg) as [delivered c].
    rewrite IH.
    destruct (run be (k c) s w) as [[[[a|e] s'] w''] tr]; [|done].
    destruct (run be (f a) s' w'') as [[[r s''] w3] tr'].
    simpl. by rewrite app_assoc.
Qed.

Lemma run_try_catch {A : Type} (p : prog A) (h : value → prog A) s w :
  run be (try_catch p h) s w
  = match run be p s w with
    | (Normal a, s', w', tr) => (Normal a, s', w', tr)
    | (Throw e, s', w', tr) =>
        let '(r, s'', w'', tr') := run be (h e) s' w' in (r, s'', w'', tr ++ tr')
    end.
Proof.
  revert s w.
  induction p as [a|e|k IH|b k IH|key k IH|m args k IH|name arg k IH];
    intros s w; simpl; try done.
  - by destruct (run be (h e) s w) as [[[r s'] w'] tr].
  - destruct (invoke be m args w) as [c w']. rewrite IH.
    destruct (run be (k c) s w') as [[[[a|e] s'] w''] tr]; [done|].
    by destruct (run be (h e) s' w'') as [[[r s''] w3] tr'].
  - destruct (EventEmitter_emit (listeners s) name arg) as [delivered c].
    rewrite IH.
    destruct (run be (k c) s w) as [[[[a|e] s'] w''] tr]; [done|].
    destruct (run be (h e) s' w'') as [[[r s''] w3] tr'].
    simpl. by rewrite app_assoc.
Qed.

Lemma run_flagless {A : Type} (p : prog A) s w :
  flagless p → scheduler_of (run be p s w) = s.
Proof.
  unfold scheduler_of. intros Hp. revert w.
  induction Hp as [a|e|k _ IH|key k _ IH|m args k _ IH|name arg k _ IH];
    intros w; simpl; try done.
  - destruct (invoke be m args w) as [c w']. specialize (IH c w').
    by destruct (run be (k c) s w') as [[[r s'] w''] tr].
  - destruct (EventEmitter_emit (listeners s) name arg) as [delivered c].
    specialize (IH c w).
    by destruct (run be (k c) s w) as [[[r s'] w''] tr].
Qed.

(** The frame of [cycle], call by call. *)
Lemma run_guarded_unfold body s w :
  run be (guarded body) s w
  = if in_flight s then (Normal false, s, w, [])
    else run be (try_catch (body;; Ret true)
                           (λ error, this_emit "error" error;; Ret false)
                 ≫= λ success, this_in_flight_set false;; Ret success)
             (set_in_flight true s) w.
Proof.
  unfold guarded.
  change (run be (this_in_flight ≫= ?f) s w) with (run be (f (in_flight s)) s w).
  cbv beta. destruct (in_flight s); reflexivity.
Qed.

Lemma run_guarded_busy body s w :
  in_flight s = true → run be (guarded body) s w = (Normal false, s, w, []).
Proof. intros H. by rewrite run_guarded_unfold, H. Qed.

Lemma run_guarded body s w :
  in_flight s = false →
  run be (guarded body) s w
  = match run be body (set_in_flight true s) w with
    | (Normal _, s', w', tr) => (Normal true, set_in_flight false s', w', tr)
    | (Throw error, s', w', tr) =>
        match EventEmitter_emit (listeners s') "error" error with
        | (delivered, Normal _) =>
            (Normal false, set_in_flight false s', w',
             tr ++ Emitted "error" error :: delivered)
        | (delivered, Throw e) =>
            (Throw e, s', w', tr ++ Emitted "error" error :: delivered)
        end
    end.
Proof.
  intros H. rewrite run_guarded_unfold, H.
  rewrite run_bind, run_try_catch, run_bind.
  destruct (run be body (set_in_flight true s) w) as [[[[[]|error] s'] w'] tr];
    simpl.
  - by rewrite !app_nil_r.
  - destruct (EventEmitter_emit (listeners s') "error" error)
      as [delivered [b|e]]; simpl; by rewrite ?app_nil_r.
Qed.

End Run.

(** ** Sorting by creation time *)

Lemma constructed_value_timed v : constructed_value v → timed v.
Proof.
  intros (b & -> & Hb). exists b. split; [done|].
  by destruct (constructed_from_one b Hb).
Qed.

Lemma num_lt_asym a b : num_lt a b = true → num_lt b a = false.
Proof.
  destruct a as [| | |x], b as [| | |y]; simpl; try done.
  rewrite bool_decide_eq_true, bool_decide_eq_false.
  intros H1 H2. by apply (Qclt_not_le _ _ H1), Qclt_le_weak.
Qed.

Lemma SortCompare_timed x y :
  timed x → timed y →
  ∃ tx ty c, time_of x = Some tx ∧ time_of y = Some ty
             ∧ tx ≠ NaN ∧ ty ≠ NaN
             ∧ SortCompare by_created_at x y = Normal c
             ∧ num_lt (num 0) c = num_lt ty tx.
Proof.
  intros (a & -> & Ha) (b & -> & Hb).
  exists (Backup.created_at a), (Backup.created_at b). eexists.
  repeat split; try done. simpl. by apply difference_sign.
Qed.

Lemma not_after_trans x y z :
  not_after x y → not_after y z → not_after x z.
Proof.
  intros (tx & ty & Hx & Hy & ? & ? & Hxy) (ty' & tz & Hy' & Hz & ? & ? & Hyz).
  rewrite Hy in Hy'. injection Hy' as <-.
  exists tx, tz. repeat split; try done.
  by apply num_lt_false_trans with ty.
Qed.

Lemma created_at_time_cons t v l :
  created_at_time t (v :: l)
  = if decide (time_of v = Some t) then v :: created_at_time t l
    else created_at_time t l.
Proof. unfold created_at_time. by rewrite filter_cons. Qed.

Lemma sort_insert_unfold comparefn x y l :
  sort_insert comparefn x (y :: l)
  = SortCompare comparefn x y ≫= λ c,
    if num_lt (num 0) c then
      sort_insert comparefn x l ≫= λ r, Normal (y :: r)
    else Normal (x :: y :: l).
Proof. reflexivity. Qed.

Lemma Array_sort_unfold comparefn x l :
  Array_sort comparefn (x :: l)
  = Array_sort comparefn l ≫= λ s, sort_insert comparefn x s.
Proof. reflexivity. Qed.

Lemma bind_Normal {A B : Type} (a : A) (f : A → completion B) :
  Normal a ≫= f = f a.
Proof. reflexivity. Qed.

Lemma sort_insert_timed x s :
  timed x → Forall timed s →
  ∃ r, sort_insert by_created_at x s = Normal r
       ∧ r ≡ₚ x :: s
       ∧ (∀ t, created_at_time t r = created_at_time t (x :: s))
       ∧ (ascending s → ascending r).
Proof.
  intros Hx. induction s as [|y s IH]; intros Hs.
  { exists [x]. repeat split; try done.
    intros _. repeat constructor. }
  apply Forall_cons in Hs as [Hy Hs].
  destruct (SortCompare_timed x y Hx Hy)
    as (tx & ty & c & Htx & Hty & Hnx & Hny & Hc & Hsign).
  rewrite sort_insert_unfold, Hc, bind_Normal, Hsign.
  destruct (num_lt ty tx) eqn:Hlt.
  - destruct (IH Hs) as (r & -> & Hperm & Hstable & Hasc).
    rewrite bind_Normal.
    exists (y :: r). split; [done|]. split; [|split].
    + rewrite Hperm. apply perm_swap.
    + intros t. rewrite !created_at_time_cons, Hstable, created_at_time_cons.
      repeat case_decide; try done.
      assert (tx = ty) as E by congruence. subst.
      by rewrite num_lt_irrefl in Hlt.
    + intros Hys. apply StronglySorted_inv in Hys as [Hsorted Hall].
      apply SSorted_cons; [by apply Hasc|].
      rewrite Hperm. apply Forall_cons. split; [|done].
      exists ty, tx. repeat split; try done. by apply num_lt_asym.
  - exists (x :: y :: s). repeat split; try done.
    intros Hys. apply SSorted_cons; [done|].
    assert (not_after x y) as Hxy by (exists tx, ty; done).
    apply Forall_cons. split; [done|].
    apply StronglySorted_inv in Hys as [_ Hall].
    eapply Forall_impl; [exact Hall|]. intros z Hz.
    by apply not_after_trans with y.
Qed.

Lemma Array_sort_timed l :
  Forall timed l →
  ∃ sorted, Array_sort by_created_at l = Normal sorted
            ∧ stable_sort_of l sorted.
Proof.
  induction l as [|x l IH]; intros Hl.
  { exists []. repeat split; try done. constructor. }
  apply Forall_cons in Hl as [Hx Hl].
  destruct (IH Hl) as (s & Hs & Hperm & Hasc & Hstable).
  rewrite Array_sort_unfold, Hs, bind_Normal.
  destruct (sort_insert_timed x s Hx) as (r & Hr & Hperm' & Hstable' & Hasc').
  { by rewrite Hperm. }
  exists r. split; [done|]. split; [|split].
  - by rewrite Hperm', Hperm.
  - by apply Hasc'.
  - intros t. by rewrite Hstable', !created_at_time_cons, Hstable.
Qed.

Lemma timed_time v : timed v → ∃ t, time_of v = Some t ∧ t ≠ NaN.
Proof. intros (b & -> & Hb). by exists (Backup.created_at b). Qed.

Lemma elem_of_created_at_time t v l :
  v ∈ created_at_time t l ↔ time_of v = Some t ∧ v ∈ l.
Proof. unfold created_at_time. by rewrite list_elem_of_filter. Qed.

(** Two ascending lists of backups with the same entries at every creation
    time, in the same order, are the same list: a stable sort by creation
    time has one result. *)
Lemma ascending_unique l1 l2 :
  Forall timed l1 → Forall timed l2 →
  ascending l1 → ascending l2 →
  (∀ t, created_at_time t l1 = created_at_time t l2) →
  l1 = l2.
Proof.
  revert l2. induction l1 as [|x l1 IH]; intros l2 Ht1 Ht2 H1 H2 Hsame.
  { destruct l2 as [|y l2]; [done|].
    apply Forall_cons in Ht2 as [Hy _].
    apply timed_time in Hy as (ty & Hty & _).
    specialize (Hsame ty).
    rewrite created_at_time_cons, decide_True in Hsame by done. done. }
  apply Forall_cons in Ht1 as [Hx Ht1].
  apply timed_time in Hx as (tx & Htx & Hnx).
  destruct l2 as [|y l2].
  { specialize (Hsame tx).
    rewrite created_at_time_cons, decide_True in Hsame by done. done. }
  apply Forall_cons in Ht2 as [Hy Ht2].
  apply timed_time in Hy as (ty & Hty & Hny).
  apply StronglySorted_inv in H1 as [H1 Hx], H2 as [H2 Hy].
  assert (tx = ty) as Heq.
  { destruct (decide (tx = ty)) as [|Hne]; [done|].
    apply num_lt_false_antisym; try done.
    - assert (y ∈ l1) as Hin.
      { pose proof (Hsame ty) as E.
        rewrite !created_at_time_cons in E.
        rewrite decide_False, decide_True in E by congruence.
        assert (y ∈ created_at_time ty l1) as Hin by (rewrite E; left).
        by apply elem_of_created_at_time in Hin as [_ ?]. }
      rewrite Forall_forall in Hx.
      destruct (Hx _ Hin) as (t1 & t2 & E1 & E2 & _ & _ & Hlt).
      congruence.
    - assert (x ∈ l2) as Hin.
      { pose proof (Hsame tx) as E.
        rewrite !created_at_time_cons in E.
        rewrite decide_True, decide_False in E by congruence.
        assert (x ∈ created_at_time tx l2) as Hin by (rewrite <-E; left).
        by apply elem_of_created_at_time in Hin as [_ ?]. }
      rewrite Forall_forall in Hy.
      destruct (Hy _ Hin) as (t1 & t2 & E1 & E2 & _ & _ & Hlt).
      congruence. }
  subst ty.
  assert (x = y) as <-.
  { pose proof (Hsame tx) as E. rewrite !created_at_time_cons in E.
    rewrite !decide_True in E by done. congruence. }
  f_equal. apply IH; try done.
  intros t. specialize (Hsame t). rewrite !created_at_time_cons in Hsame.
  case_decide; congruence.
Qed.

Lemma stable_sort_unique l sorted1 sorted2 :
  Forall timed l →
  stable_sort_of l sorted1 → stable_sort_of l sorted2 → sorted1 = sorted2.
Proof.
  intros Hl (Hp1 & Ha1 & Hs1) (Hp2 & Ha2 & Hs2).
  apply ascending_unique; try done.
  - by rewrite Hp1.
  - by rewrite Hp2.
  - intros t. by rewrite Hs1, Hs2.
Qed.

(** ** The two bodies, call by call *)

#[local] Arguments num_lt : simpl never.
#[local] Arguments overflow_of : simpl never.
#[local] Arguments Array_slice : simpl never.
#[local] Arguments Array_sort : simpl never.
#[local] Arguments rejected_list : simpl never.

Lemma run_ShortCircuit_body {W : Type} (be : backend W) s w :
  run be ShortCircuit.body s w
  = let '(c, w1) := invoke be op_list [] w in
    match c with
    | Throw e => (Throw e, s, w1, [Called op_list []])
    | Normal listed =>
        if is_false listed then
          let '(c2, w2) := invoke be op_create [] w1 in
          (c2 ≫= λ _, Normal (), s, w2,
           [Called op_list []; Called op_create []])
        else if rejected_list listed then
          (Throw (VError list_message), s, w1, [Called op_list []])
        else
          match Array_sort by_created_at (elements_of listed) with
          | Throw e => (Throw e, s, w1, [Called op_list []])
          | Normal sorted =>
              let '(c2, w2) := invoke be op_create [] w1 in
              match c2 with
              | Throw e =>
                  (Throw e, s, w2, [Called op_list []; Called op_create []])
              | Normal _ =>
                  retained be sorted s w2
                           [Called op_list []; Called op_create []]
              end
          end
    end.
Proof.
  unfold ShortCircuit.body, retained. rewrite run_bind. simpl.
  destruct (invoke be op_list [] w) as [[listed|e] w1]; simpl; [|done].
  destruct (is_false listed); simpl.
  { by destruct (invoke be op_create [] w1) as [[v|e] w2]. }
  destruct (rejected_list listed); simpl; [done|].
  unfold sorted_copy.
  destruct (Array_sort by_created_at (elements_of listed)) as [sorted|e];
    simpl; [|done].
  destruct (invoke be op_create [] w1) as [[v|e] w2]; simpl; [|done].
  destruct (num_lt (num 0) (overflow_of sorted (get (options s) "limit")));
    simpl; [|done].
  by destruct (invoke be op_delete _ w2) as [[v'|e] w3].
Qed.

Lemma run_Strict_body {W : Type} (be : backend W) s w :
  run be Strict.body s w
  = let '(c, w1) := invoke be op_list [] w in
    match c with
    | Throw e => (Throw e, s, w1, [Called op_list []])
    | Normal listed =>
        if rejected_list listed then
          (Throw (VError list_message), s, w1, [Called op_list []])
        else
          match Array_sort by_created_at (elements_of listed) with
          | Throw e => (Throw e, s, w1, [Called op_list []])
          | Normal sorted =>
              let '(c2, w2) := invoke be op_create [] w1 in
              match c2 with
              | Throw e =>
                  (Throw e, s, w2, [Called op_list []; Called op_create []])
              | Normal backup =>
                  if negb (instanceof_Backup backup) then
                    (Throw (VError create_message), s, w2,
                     [Called op_list []; Called op_create []])
                  else
                    retained be sorted s w2
                             [Called op_list []; Called op_create []]
              end
          end
    end.
Proof.
  unfold Strict.body, retained. rewrite run_bind. simpl.
  destruct (invoke be op_list [] w) as [[listed|e] w1]; simpl; [|done].
  destruct (rejected_list listed); simpl; [done|].
  unfold sorted_copy.
  destruct (Array_sort by_created_at (elements_of listed)) as [sorted|e];
    simpl; [|done].
  destruct (invoke be op_create [] w1) as [[backup|e] w2]; simpl; [|done].
  destruct (negb (instanceof_Backup backup)); simpl; [done|].
  destruct (num_lt (num 0) (overflow_of sorted (get (options s) "limit")));
    simpl; [|done].
  by destruct (invoke be op_delete _ w2) as [[v'|e] w3].
Qed.

(** ** Retention *)

Lemma Array_find_backups l :
  Forall timed l →
  Array_find (λ backup, negb (instanceof_Backup backup)) l = VUndefined.
Proof.
  intros Hl. unfold Array_find.
  replace (filter (λ v, negb (instanceof_Backup v) = true) l) with (@nil value);
    [done|].
  induction Hl as [|v l (b & -> & _) _ IH]; [done|].
  by rewrite filter_cons_False.
Qed.

Lemma rejected_list_timed l : Forall timed l → rejected_list (VArray l) = false.
Proof.
  intros Hl. unfold rejected_list. simpl. by rewrite Array_find_backups.
Qed.

Lemma overflow_of_num sorted (L : Z) :
  overflow_of sorted (VNumber (num L))
  = num (Z.of_nat (length sorted) - L + 1).
Proof. unfold overflow_of, ToNumber. by rewrite num_sub_num, num_add_num. Qed.

Lemma take_min_length {A : Type} (l : list A) (n : nat) :
  take (n `min` length l) l = take n l.
Proof.
  destruct (decide (n ≤ length l)%nat).
  - by rewrite Nat.min_l.
  - rewrite Nat.min_r by lia. rewrite !take_ge by lia. done.
Qed.

Lemma Array_slice_prefix l (k : Z) :
  0 ≤ k → Array_slice l (num 0) (num k) = take (Z.to_nat k) l.
Proof.
  intros Hk. unfold Array_slice. rewrite !ToIntegerOrInfinity_num.
  unfold relative_index.
  replace (0 <? 0) with false by done.
  replace (k <? 0) with false by (symmetry; apply Z.ltb_ge; lia).
  replace (Z.to_nat (0 `min` Z.of_nat (length l))) with 0%nat by lia.
  rewrite drop_0, Nat.sub_0_r.
  replace (Z.to_nat (k `min` Z.of_nat (length l)))
    with (Z.to_nat k `min` length l)%nat by lia.
  apply take_min_length.
Qed.

Lemma retained_num {W : Type} (be : backend W) sorted s w before (L : Z) :
  get (options s) "limit" = VNumber (num L) →
  retained be sorted s w before
  = if bool_decide (0 < Z.of_nat (length sorted) - L + 1) then
      let sliced := take (Z.to_nat (Z.of_nat (length sorted) - L + 1)) sorted in
      let '(c, w') := invoke be op_delete [VArray sliced] w in
      (c ≫= λ _, Normal (), s, w', before ++ [Called op_delete [VArray sliced]])
    else (Normal (), s, w, before).
Proof.
  intros HL. unfold retained. rewrite HL, overflow_of_num, num_lt_num.
  case_bool_decide as Hpos; [|done].
  by rewrite Array_slice_prefix by lia.
Qed.

Ltac failed_cycle :=
  destruct (EventEmitter_emit _ _ _) as [? [|]]; unfold result_of; simpl.

Ltac destruct_delete :=
  cbv zeta;
  match goal with
  | |- context [invoke ?be op_delete ?args ?w] =>
      destruct (invoke be op_delete args w) as [[?|?] ?]
  end.

(** What a cycle that lists [l] and succeeds has called. *)
Lemma successful_cycle_calls {W : Type} (be : backend W) cycle s w w1 l (L : Z) :
  cycle = Strict.cycle ∨ cycle = ShortCircuit.cycle →
  in_flight s = false →
  get (options s) "limit" = VNumber (num L) →
  Forall timed l →
  invoke be op_list [] w = (Normal (VArray l), w1) →
  result_of (run be cycle s w) = Normal true →
  ∃ sorted,
    Array_sort by_created_at l = Normal sorted
    ∧ calls (trace_of (run be cycle s w))
      = [(op_list, []); (op_create, [])]
        ++ (if bool_decide (0 < Z.of_nat (length sorted) - L + 1)
            then [(op_delete,
                   [VArray (take (Z.to_nat (Z.of_nat (length sorted) - L + 1))
                                 sorted)])]
            else []).
Proof.
  intros Hcycle Hfree HL Hl Hlist Hres.
  destruct (Array_sort_timed l Hl) as (sorted & Hsorted & _).
  exists sorted. split; [done|]. revert Hres.
  assert (get (options (set_in_flight true s)) "limit" = VNumber (num L)) as HL'
    by done.
  destruct Hcycle as [-> | ->].
  - unfold Strict.cycle. rewrite run_guarded by done.
    rewrite run_Strict_body, Hlist, rejected_list_timed by done.
    simpl elements_of. rewrite Hsorted.
    destruct (invoke be op_create [] w1) as [[backup|e] w2].
    2:{ by failed_cycle. }
    destruct (negb (instanceof_Backup backup)).
    { by failed_cycle. }
    rewrite (retained_num _ _ _ _ _ L) by done.
    case_bool_decide; [|done].
    destruct_delete; simpl.
    + done.
    + by failed_cycle.
  - unfold ShortCircuit.cycle. rewrite run_guarded by done.
    rewrite run_ShortCircuit_body, Hlist, rejected_list_timed by done.
    simpl is_false. cbv iota. simpl elements_of. rewrite Hsorted.
    destruct (invoke be op_create [] w1) as [[backup|e] w2].
    2:{ by failed_cycle. }
    rewrite (retained_num _ _ _ _ _ L) by done.
    case_bool_decide; [|done].
    destruct_delete; simpl.
    + done.
    + by failed_cycle.
Qed.

Lemma backup_at_constructed id (t : Z) :
  id ≠ EmptyString → 1 ≤ t → constructed_value (backup_at id t).
Proof.
  intros Hid Ht. eexists. split; [done|].
  exists (VString id), (VNumber (num t)). apply new_Backup_Normal. simpl.
  repeat split; try done. rewrite num_lt_num. apply bool_decide_eq_false. lia.
Qed.

Lemma four_constructed : Forall constructed_value four.
Proof. repeat constructor; by apply backup_at_constructed. Qed.

Lemma ties_constructed : Forall constructed_value ties.
Proof. repeat constructor; by apply backup_at_constructed. Qed.

(** C1.  In either revision, a cycle that lists [N] constructed backups
    and succeeds under an integer limit [L] calls
    [list], then [create], then [delete] if and only if [N - L + 1 > 0];
    [delete] receives the first [max(0, N - L + 1)] entries of the stable
    sort of the listed array by [created_at]: entries of the array listed
    before [create] was called, none created after an entry that is kept. *)
Theorem retention_correctness {W : Type} (be : backend W) cycle s w w1 l (L : Z) :
  cycle = Strict.cycle ∨ cycle = ShortCircuit.cycle →
  get (options s) "limit" = VNumber (num L) →
  1 ≤ L →
  Forall constructed_value l →
  invoke be op_list [] w = (Normal (VArray l), w1) →
  result_of (run be cycle s w) = Normal true →
  ∃ sorted deleted,
    sorted_copy (VArray l) = Ret sorted
    ∧ stable_sort_of l sorted
    ∧ deleted = take (Z.to_nat (Z.max 0 (Z.of_nat (length l) - L + 1))) sorted
    ∧ Z.of_nat (length deleted) = Z.max 0 (Z.of_nat (length l) - L + 1)
    ∧ calls (trace_of (run be cycle s w))
      = [(op_list, []); (op_create, [])]
        ++ (if bool_decide (0 < Z.of_nat (length l) - L + 1)
            then [(op_delete, [VArray deleted])] else [])
    ∧ (∀ d k, d ∈ deleted → k ∈ drop (length deleted) sorted → not_after d k)
    ∧ (∀ d, d ∈ deleted → d ∈ l).
Proof.
  intros Hcycle HL HL1 Hl Hlist Hres.
  assert (in_flight s = false) as Hfree.
  { destruct (in_flight s) eqn:Hbusy; [|done].
    destruct Hcycle as [-> | ->];
      unfold Strict.cycle, ShortCircuit.cycle in Hres;
      by rewrite run_guarded_busy in Hres. }
  assert (Forall timed l) as Hl'
    by (eapply Forall_impl; [exact Hl | apply constructed_value_timed]).
  destruct (successful_cycle_calls be cycle s w w1 l L) as (sorted & Hs & Hcalls);
    try done.
  destruct (Array_sort_timed l Hl') as (sorted' & Hs' & Hstable).
  assert (sorted' = sorted) as -> by congruence.
  pose proof Hstable as (Hperm & Hasc & _).
  assert (length sorted = length l) as Hlen by (by rewrite Hperm).
  rewrite Hlen in Hcalls.
  set (n := Z.to_nat (Z.max 0 (Z.of_nat (length l) - L + 1))).
  assert (length (take n sorted) = n) as Hn
    by (rewrite length_take; lia).
  exists sorted, (take n sorted). split; [|split; [done|split; [done|split]]].
  - unfold sorted_copy. simpl. by rewrite Hs.
  - rewrite Hn. unfold n. lia.
  - split; [|split].
    + rewrite Hcalls. case_bool_decide; [|done].
      unfold n. by rewrite Z.max_r by lia.
    + intros d k Hd Hk. rewrite Hn in Hk.
      apply (StronglySorted_app_1_elem_of _ (take n sorted) (drop n sorted));
        [|done|done].
      by rewrite take_drop.
    + intros d Hd. rewrite <-Hperm. by apply (subseteq_take n).
Qed.

Lemma retention_correctness_witness :
  ∃ sorted deleted,
    sorted_copy (VArray four) = Ret sorted
    ∧ stable_sort_of four sorted
    ∧ deleted = take (Z.to_nat (Z.max 0 (Z.of_nat (length four) - 3 + 1))) sorted
    ∧ Z.of_nat (length deleted) = Z.max 0 (Z.of_nat (length four) - 3 + 1)
    ∧ calls (trace_of (run scripted ShortCircuit.cycle (sample (num 3))
                           [Normal (VArray four)]))
      = [(op_list, []); (op_create, [])]
        ++ (if bool_decide (0 < Z.of_nat (length four) - 3 + 1)
            then [(op_delete, [VArray deleted])] else [])
    ∧ (∀ d k, d ∈ deleted → k ∈ drop (length deleted) sorted → not_after d k)
    ∧ (∀ d, d ∈ deleted → d ∈ four).
Proof.
  apply (retention_correctness scripted ShortCircuit.cycle (sample (num 3))
           [Normal (VArray four)] [] four 3).
  - right. reflexivity.
  - reflexivity.
  - lia.
  - apply four_constructed.
  - reflexivity.
  - vm_compute. reflexivity.
Defined.

(** C8.  On an array of constructed backups the sorted copy the cycle makes
    is a stable sort by [created_at]: a permutation of the array in
    ascending order in which, for every creation time, the entries created
    at that time keep the order they have in the array.  There is one such
    list, so every run on the same array yields the same order. *)
Theorem sorting_is_stable l :
  Forall constructed_value l →
  ∃ sorted,
    sorted_copy (VArray l) = Ret sorted
    ∧ stable_sort_of l sorted
    ∧ (∀ t, created_at_time t sorted = created_at_time t l)
    ∧ (∀ sorted', stable_sort_of l sorted' → sorted' = sorted).
Proof.
  intros Hl.
  assert (Forall timed l) as Hl'
    by (eapply Forall_impl; [exact Hl | apply constructed_value_timed]).
  destruct (Array_sort_timed l Hl') as (sorted & Hs & Hstable).
  exists sorted. split; [|split; [done|split]].
  - unfold sorted_copy. simpl. by rewrite Hs.
  - apply Hstable.
  - intros sorted' H'. by apply (stable_sort_unique l).
Qed.

Lemma sorting_is_stable_witness :
  ∃ sorted,
    sorted_copy (VArray ties) = Ret sorted
    ∧ stable_sort_of ties sorted
    ∧ (∀ t, created_at_time t sorted = created_at_time t ties)
    ∧ (∀ sorted', stable_sort_of ties sorted' → sorted' = sorted).
Proof. apply (sorting_is_stable ties). apply ties_constructed. Defined.

Example ties_sorted :
  Array_sort by_created_at ties
  = Normal [backup_at "a1" 100; backup_at "a2" 100; backup_at "b" 200;
            backup_at "c1" 300; backup_at "c2" 300].
Proof. vm_compute. reflexivity. Qed.

(** ** The short circuit *)

Lemma notify_calls name hs arg :
  calls (notify name hs arg).1 = [] ∧ emissions (notify name hs arg).1 = [].
Proof.
  induction hs as [|h hs IH]; simpl; [done|].
  destruct (h arg); [|done].
  by destruct (notify name hs arg) as [tr c].
Qed.

Lemma EventEmitter_emit_calls ls name arg :
  calls (EventEmitter_emit ls name arg).1 = []
  ∧ emissions (EventEmitter_emit ls name arg).1 = [].
Proof.
  unfold EventEmitter_emit. destruct (listeners_of name ls) as [|h hs].
  - by case_bool_decide.
  - apply notify_calls.
Qed.

Lemma calls_of_calls m tr :
  calls_of m tr = omap (λ c, if decide (c.1 = m) then Some c.2 else None) (calls tr).
Proof. reflexivity. Qed.

Lemma calls_app tr1 tr2 : calls (tr1 ++ tr2) = calls tr1 ++ calls tr2.
Proof. apply omap_app. Qed.

Lemma emissions_app tr1 tr2 :
  emissions (tr1 ++ tr2) = emissions tr1 ++ emissions tr2.
Proof. apply omap_app. Qed.

(** The calls and the emissions of a cycle that passes the guard, from
    those of its body. *)
Lemma guarded_trace {W : Type} (be : backend W) body s w :
  in_flight s = false →
  calls (trace_of (run be (guarded body) s w))
  = calls (trace_of (run be body (set_in_flight true s) w))
  ∧ emissions (trace_of (run be (guarded body) s w))
    = emissions (trace_of (run be body (set_in_flight true s) w))
      ++ match result_of (run be body (set_in_flight true s) w) with
         | Normal _ => []
         | Throw error => [("error", error)]
         end.
Proof.
  intros H. rewrite run_guarded by done.
  destruct (run be body (set_in_flight true s) w) as [[[[[]|error] s'] w'] tr].
  { unfold trace_of, result_of; simpl. by rewrite app_nil_r. }
  pose proof (EventEmitter_emit_calls (listeners s') "error" error) as [Hc He].
  destruct (EventEmitter_emit (listeners s') "error" error) as [delivered [b|e]];
    unfold trace_of, result_of; simpl in *;
    rewrite calls_app, emissions_app; simpl; by rewrite Hc, He, ?app_nil_r.
Qed.

(** C3, as stated, fails on both revisions: in the later one the cycle
    reports a failure when [create] throws, and the earlier one rejects a
    [false] from [list] before it calls [create]. *)
Lemma short_circuit_counterexample :
  (let r := run scripted ShortCircuit.cycle
                (on "error" log_error (sample (num 5)))
                [Normal (VBoolean false); Throw (VError "ENOSPC")] in
   calls_of op_create (trace_of r) = [[]] ∧ result_of r = Normal false)
  ∧ (let r := run scripted Strict.cycle
                  (on "error" log_error (sample (num 5)))
                  [Normal (VBoolean false)] in
     calls_of op_create (trace_of r) = [] ∧ result_of r = Normal false)
  ∧ ¬ short_circuit_as_stated ShortCircuit.cycle
  ∧ ¬ short_circuit_as_stated Strict.cycle.
Proof.
  split; [by vm_compute|]. split; [by vm_compute|]. split.
  - intros H.
    destruct (H _ scripted (on "error" log_error (sample (num 5)))
                [Normal (VBoolean false); Throw (VError "ENOSPC")]
                [Throw (VError "ENOSPC")] eq_refl eq_refl) as (_ & _ & Hres).
    vm_compute in Hres. discriminate Hres.
  - intros H.
    destruct (H _ scripted (on "error" log_error (sample (num 5)))
                [Normal (VBoolean false)] [] eq_refl eq_refl) as (_ & Hcreate & _).
    vm_compute in Hcreate. discriminate Hcreate.
Qed.

(** C3, amended.  In the later revision, a cycle that passes the entry
    guard and whose [list] answers [false] never calls [delete] and calls
    [create] exactly once, and it reports success exactly when that call of
    [create] returns.  In the earlier revision such a cycle calls [list]
    only, emits the validation error and does not report success. *)
Theorem short_circuit {W : Type} (be : backend W) s w w1 :
  in_flight s = false →
  invoke be op_list [] w = (Normal (VBoolean false), w1) →
  (calls_of op_delete (trace_of (run be ShortCircuit.cycle s w)) = []
   ∧ calls_of op_create (trace_of (run be ShortCircuit.cycle s w)) = [[]]
   ∧ (result_of (run be ShortCircuit.cycle s w) = Normal true
      ↔ is_Normal (invoke be op_create [] w1).1))
  ∧ (calls (trace_of (run be Strict.cycle s w)) = [(op_list, [])]
     ∧ emissions (trace_of (run be Strict.cycle s w))
       = [("error", VError list_message)]
     ∧ result_of (run be Strict.cycle s w) ≠ Normal true).
Proof.
  intros Hfree Hlist. split.
  - unfold ShortCircuit.cycle. rewrite !calls_of_calls.
    destruct (guarded_trace be ShortCircuit.body s w Hfree) as [-> _].
    rewrite run_guarded by done.
    rewrite run_ShortCircuit_body, Hlist. simpl is_false. cbv iota.
    destruct (invoke be op_create [] w1) as [[v|e] w2]; simpl.
    + split; [done|]. split; [done|]. split; [by eexists | done].
    + split; [done|]. split; [done|].
      split; [by failed_cycle | by intros [? ?]].
  - unfold Strict.cycle.
    destruct (guarded_trace be Strict.body s w Hfree) as [-> ->].
    rewrite run_guarded by done.
    rewrite run_Strict_body, Hlist.
    replace (rejected_list (VBoolean false)) with true by done.
    split; [done|]. split; [done|]. by failed_cycle.
Qed.

Lemma short_circuit_witness :
  calls_of op_delete
    (trace_of (run scripted ShortCircuit.cycle (sample (num 5))
                   [Normal (VBoolean false)])) = []
  ∧ calls_of op_create
      (trace_of (run scripted ShortCircuit.cycle (sample (num 5))
                     [Normal (VBoolean false)])) = [[]]
  ∧ result_of (run scripted ShortCircuit.cycle (sample (num 5))
                   [Normal (VBoolean false)]) = Normal true.
Proof.
  destruct (short_circuit scripted (sample (num 5)) [Normal (VBoolean false)] []
              eq_refl eq_refl) as [(Hdelete & Hcreate & Hres) _].
  split; [exact Hdelete|]. split; [exact Hcreate|].
  apply Hres. exists VUndefined. reflexivity.
Defined.

(** ** Single flight *)

Lemma advance_guarded_unfold body s :
  advance (guarded body) s
  = if in_flight s then (s, [], Fulfilled false)
    else advance (try_catch (body;; Ret true)
                            (λ error, this_emit "error" error;; Ret false)
                  ≫= λ success, this_in_flight_set false;; Ret success)
                 (set_in_flight true s).
Proof.
  unfold guarded, this_in_flight, mbind at 1, prog_mbind at 1.
  cbn [prog_bind advance]. destruct (in_flight s); reflexivity.
Qed.

Lemma holding_bind {A B : Type} (p : prog A) (f : A → prog B) :
  flagless p → (∀ a, holding (f a)) → holding (p ≫= f).
Proof.
  unfold mbind, prog_mbind. intros Hp Hf.
  induction Hp; simpl; try by constructor. apply Hf.
Qed.

Lemma holding_guarded_rest (body : prog unit) :
  flagless body →
  holding (try_catch (body;; Ret true)
                     (λ error, this_emit "error" error;; Ret false)
           ≫= λ success, this_in_flight_set false;; Ret success).
Proof.
  intros Hbody. apply holding_bind.
  - apply flagless_try_catch.
    + apply flagless_bind; [done | constructor].
    + intros e. apply flagless_bind; [apply flagless_this_emit | constructor].
  - intros success. repeat constructor.
Qed.

Lemma advance_quiet {A : Type} (p : prog A) s :
  quiet p →
  match advance p s with
  | (_, _, Suspended _ _ _) => False
  | _ => True
  end.
Proof.
  intros Hp. revert s.
  induction Hp as [a|e|k _ IH|b k _ IH|key k _ IH|name arg k _ IH];
    intros s; simpl; try done; try apply IH.
  destruct (EventEmitter_emit (listeners s) name arg) as [delivered c].
  specialize (IH c s). by destruct (advance (k c) s) as [[s' tr] [| |]].
Qed.

Lemma advance_holding {A : Type} (p : prog A) s :
  holding p →
  match advance p s with
  | (s', _, Suspended _ _ k) => in_flight s' = in_flight s ∧ ∀ c, holding (k c)
  | _ => True
  end.
Proof.
  intros Hp. revert s.
  induction Hp as [a|e|k _ IH|b k Hk|key k _ IH|m args k Hk _|name arg k _ IH];
    intros s; simpl; try done; try apply IH.
  - pose proof (advance_quiet k (set_in_flight b s) Hk) as H.
    by destruct (advance k (set_in_flight b s)) as [[s' tr] [| |]].
  - destruct (EventEmitter_emit (listeners s) name arg) as [delivered c].
    specialize (IH c s). by destruct (advance (k c) s) as [[s' tr] [| |]].
Qed.

Lemma enter_busy body σ :
  in_flight (sched σ) = true → enter (guarded body) σ = σ.
Proof.
  intros H. unfold enter. rewrite advance_guarded_unfold, H. simpl.
  rewrite !app_nil_r. by destruct σ.
Qed.

Lemma enter_invariant body σ :
  flagless body →
  single_flight_invariant σ → single_flight_invariant (enter (guarded body) σ).
Proof.
  intros Hbody Hinv.
  destruct (in_flight (sched σ)) eqn:Hbusy.
  { by rewrite enter_busy. }
  unfold single_flight_invariant in Hinv.
  destruct (suspended σ) as [|[[m args] k] rest] eqn:Hsuspended.
  2:{ destruct rest; [|done]. destruct Hinv as [Hinv _]. congruence. }
  unfold enter. rewrite advance_guarded_unfold, Hbusy, Hsuspended.
  pose proof (advance_holding _ (set_in_flight true (sched σ))
                (holding_guarded_rest body Hbody)) as H.
  destruct (advance _ (set_in_flight true (sched σ))) as [[s' tr] [b|e|m args k]];
    try done.
Qed.

Lemma resume_invariant σ i m args k c :
  suspended σ !! i = Some (m, args, k) →
  single_flight_invariant σ → single_flight_invariant (resume i (k c) σ).
Proof.
  intros Hi Hinv. unfold single_flight_invariant in Hinv.
  destruct (suspended σ) as [|[[m' args'] k'] rest] eqn:Hsuspended; [done|].
  destruct rest; [|done]. destruct Hinv as [Hbusy Hk].
  destruct i as [|i]; [|done]. injection Hi as -> -> ->.
  unfold resume. rewrite Hsuspended. simpl.
  pose proof (advance_holding (k c) (sched σ) (Hk c)) as H.
  destruct (advance (k c) (sched σ)) as [[s' tr] [b|e|m' args' k']]; try done.
  unfold single_flight_invariant; simpl. destruct H as [-> H]. done.
Qed.

Lemma step_invariant body σ σ' :
  flagless body →
  step (guarded body) σ σ' →
  single_flight_invariant σ → single_flight_invariant σ'.
Proof.
  intros Hbody Hstep Hinv.
  destruct Hstep as [σ delay _|σ|σ i m args k c Hi|σ name l|σ].
  - by apply enter_invariant.
  - by apply enter_invariant.
  - by apply (resume_invariant σ i m args).
  - done.
  - done.
Qed.

Lemma steps_invariant body σ σ' :
  flagless body →
  rtc (step (guarded body)) σ σ' →
  single_flight_invariant σ → single_flight_invariant σ'.
Proof.
  intros Hbody Hsteps.
  induction Hsteps as [σ|σ1 σ2 σ3 Hstep _ IH]; [done|].
  intros Hinv. apply IH. by apply (step_invariant body σ1).
Qed.

Lemma reachable_invariant body s σ :
  flagless body →
  rtc (step (guarded body)) (fresh s) σ → single_flight_invariant σ.
Proof. intros Hbody Hsteps. by apply (steps_invariant body (fresh s)). Qed.

(** C2.  In either revision, a call of [cycle] on a scheduler whose
    [#in_flight] is set is fulfilled with [false] in the same turn, calls no
    backend operation, emits nothing and leaves the scheduler as it is; and
    whatever the timer, manual callers, the backend, [on] and [destroy] do
    to a scheduler from its construction on, at most one call of [cycle] is
    ever suspended at a backend call, and a call of [cycle] made meanwhile
    changes nothing. *)
Theorem single_flight cycle :
  cycle = Strict.cycle ∨ cycle = ShortCircuit.cycle →
  (∀ s, in_flight s = true → advance cycle s = (s, [], Fulfilled false))
  ∧ (∀ (W : Type) (be : backend W) s w,
       in_flight s = true → run be cycle s w = (Normal false, s, w, []))
  ∧ (∀ s σ,
       rtc (step cycle) (fresh s) σ →
       (length (suspended σ) ≤ 1)%nat
       ∧ (suspended σ ≠ [] → enter cycle σ = σ)).
Proof.
  intros Hcycle.
  assert (∃ body, cycle = guarded body ∧ flagless body) as (body & -> & Hbody).
  { destruct Hcycle as [-> | ->].
    - exists Strict.body. split; [done|]. apply flagless_Strict_body.
    - exists ShortCircuit.body. split; [done|]. apply flagless_ShortCircuit_body. }
  split; [|split].
  - intros s H. by rewrite advance_guarded_unfold, H.
  - intros W be s w H. by apply run_guarded_busy.
  - intros s σ Hsteps.
    pose proof (reachable_invariant body s σ Hbody Hsteps) as Hinv.
    unfold single_flight_invariant in Hinv.
    destruct (suspended σ) as [|[[m args] k] rest] eqn:Hsuspended.
    { split; [simpl; lia | done]. }
    destruct rest; [|done]. split; [simpl; lia|]. intros _.
    destruct Hinv as [Hbusy _].
    rewrite enter_busy by done. done.
Qed.

Lemma single_flight_witness :
  advance ShortCircuit.cycle (set_in_flight true (sample (num 5)))
  = (set_in_flight true (sample (num 5)), [], Fulfilled false)
  ∧ (length (suspended (enter ShortCircuit.cycle
                          (enter ShortCircuit.cycle (fresh (sample (num 5))))))
     ≤ 1)%nat.
Proof.
  destruct (single_flight ShortCircuit.cycle (or_intror eq_refl))
    as (Hbusy & _ & Hone).
  split.
  - apply Hbusy. reflexivity.
  - apply (Hone (sample (num 5))).
    eapply rtc_l; [apply step_manual|].
    eapply rtc_l; [eapply step_tick; reflexivity|].
    apply rtc_refl.
Defined.

(** ** The argument of list *)

Ltac run_body :=
  repeat first
    [ progress simpl
    | match goal with
      | |- context [invoke ?be ?m ?args ?w] =>
          destruct (invoke be m args w) as [[?|?] ?]
      | |- context [if ?b then _ else _] => destruct b
      | |- context [match ?c with Normal _ => _ | Throw _ => _ end] =>
          destruct c
      end ].

Lemma body_traces {W : Type} (be : backend W) body s w :
  body = Strict.body ∨ body = ShortCircuit.body →
  head (calls (trace_of (run be body s w))) = Some (op_list, [])
  ∧ calls_of op_list (trace_of (run be body s w)) = [[]]
  ∧ emissions (trace_of (run be body s w)) = [].
Proof.
  unfold calls_of.
  intros [-> | ->];
    [rewrite run_Strict_body | rewrite run_ShortCircuit_body];
    unfold retained, trace_of; cbv zeta; run_body; done.
Qed.

Lemma Disk_options_list_never_false files args :
  Disk_options_list files args ≠ Normal (VBoolean false).
Proof.
  unfold Disk_options_list, DiskBackupScheduler_list.
  replace (num_lt _ (ToNumber VUndefined)) with false
    by (unfold num_lt, num; done).
  by destruct (Disk_backups files).
Qed.

(** C5 fails on the code.  In either revision a cycle that passes the
    entry guard calls [list] first and once, and with no argument at all: the
    configured limit is not passed.  Behind the override the disk constructor
    installs, [DiskBackupScheduler.list] receives [undefined] as its limit
    and never answers [false]. *)
Theorem list_called_without_limit {W : Type} (be : backend W) cycle s w :
  cycle = Strict.cycle ∨ cycle = ShortCircuit.cycle →
  in_flight s = false →
  head (calls (trace_of (run be cycle s w))) = Some (op_list, [])
  ∧ calls_of op_list (trace_of (run be cycle s w)) = [[]]
  ∧ [] ≠ [get (options s) "limit"]
  ∧ ∀ files args, Disk_options_list files args ≠ Normal (VBoolean false).
Proof.
  intros Hcycle Hfree.
  assert (∃ body, cycle = guarded body
                  ∧ (body = Strict.body ∨ body = ShortCircuit.body))
    as (body & -> & Hbody).
  { destruct Hcycle as [-> | ->]; eexists; split; eauto. }
  unfold calls_of.
  destruct (guarded_trace be body s w Hfree) as [-> _].
  destruct (body_traces be body (set_in_flight true s) w Hbody) as (? & ? & _).
  repeat split; try done. apply Disk_options_list_never_false.
Qed.

Lemma list_called_without_limit_witness :
  head (calls (trace_of (run scripted ShortCircuit.cycle (sample (num 5))
                             [Normal (VArray four)])))
  = Some (op_list, [])
  ∧ Disk_options_list [] [VNumber (num 5)] ≠ Normal (VBoolean false).
Proof.
  destruct (list_called_without_limit scripted ShortCircuit.cycle
              (sample (num 5)) [Normal (VArray four)] (or_intror eq_refl) eq_refl)
    as (Hhead & _ & _ & Hdisk).
  split; [exact Hhead | apply Hdisk].
Defined.

(** With the limit as its argument the disk [list] does take the short
    circuit on a directory with fewer entries. *)
Example Disk_list_with_limit :
  DiskBackupScheduler_list [] (VNumber (num 5)) = Normal (VBoolean false).
Proof. reflexivity. Qed.

(** ** Errors *)

Lemma notify_heard name hs arg :
  Forall (λ l : listener, ∀ e, is_Normal (l e)) hs →
  (notify name hs arg).2 = Normal true.
Proof.
  induction 1 as [|h hs Hh _ IH]; simpl; [done|].
  destruct (Hh arg) as [v ->].
  by destruct (notify name hs arg) as [tr c].
Qed.

Lemma emit_heard s error :
  heard s → (EventEmitter_emit (listeners s) "error" error).2 = Normal true.
Proof.
  intros [Hsome Hall]. unfold EventEmitter_emit.
  destruct (listeners_of "error" (listeners s)) as [|h hs] eqn:E; [done|].
  by apply notify_heard.
Qed.

Lemma emit_unheard s error :
  listeners_of "error" (listeners s) = [] →
  EventEmitter_emit (listeners s) "error" error = ([], Throw (unhandled error)).
Proof. intros H. unfold EventEmitter_emit. by rewrite H. Qed.

(** With a listener for ['error'] that does not throw, a cycle that passes
    the guard returns a boolean, has cleared [#in_flight], and has emitted
    the error of its body once if there was one and nothing otherwise. *)
Lemma heard_error_is_isolated {W : Type} (be : backend W) body s w :
  body = Strict.body ∨ body = ShortCircuit.body →
  in_flight s = false →
  heard s →
  in_flight (scheduler_of (run be (guarded body) s w)) = false
  ∧ match result_of (run be body (set_in_flight true s) w) with
    | Normal _ =>
        result_of (run be (guarded body) s w) = Normal true
        ∧ emissions (trace_of (run be (guarded body) s w)) = []
    | Throw error =>
        result_of (run be (guarded body) s w) = Normal false
        ∧ emissions (trace_of (run be (guarded body) s w)) = [("error", error)]
    end.
Proof.
  intros Hbody Hfree Hheard.
  destruct (guarded_trace be body s w Hfree) as [_ ->].
  destruct (body_traces be body (set_in_flight true s) w Hbody) as (_ & _ & ->).
  pose proof (run_flagless be body (set_in_flight true s) w (flagless_body _ Hbody))
    as Hsame.
  rewrite run_guarded by done.
  destruct (run be body (set_in_flight true s) w) as [[[[[]|error] s'] w'] tr];
    unfold scheduler_of, result_of in *; simpl in *; [done|].
  subst s'. pose proof (emit_heard (set_in_flight true s) error Hheard) as H.
  change (listeners (set_in_flight true s)) with (listeners s) in *.
  by destruct (EventEmitter_emit (listeners s) "error" error) as [tr' [b|e]].
Qed.

(** Without a listener for ['error'], the error of the body leaves the
    cycle through [emit], and [#in_flight] stays set. *)
Lemma unheard_error_is_thrown {W : Type} (be : backend W) body s w error :
  body = Strict.body ∨ body = ShortCircuit.body →
  in_flight s = false →
  listeners_of "error" (listeners s) = [] →
  result_of (run be body (set_in_flight true s) w) = Throw error →
  result_of (run be (guarded body) s w) = Throw (unhandled error)
  ∧ in_flight (scheduler_of (run be (guarded body) s w)) = true.
Proof.
  intros Hbody Hfree Hnone.
  pose proof (run_flagless be body (set_in_flight true s) w (flagless_body _ Hbody))
    as Hsame.
  rewrite run_guarded by done.
  destruct (run be body (set_in_flight true s) w) as [[[[[]|error'] s'] w'] tr];
    unfold scheduler_of, result_of in *; simpl in *; [done|].
  intros [= ->]. subst s'.
  by rewrite (emit_unheard (set_in_flight true s) error Hnone).
Qed.

(** C4 fails on the code.  A scheduler fresh from its constructor has no
    listener for ['error']; when [list] throws in its cycle, [emit] throws
    the error in the [catch] block, and the call of [cycle] is rejected with
    it (in both revisions) instead of returning [false]; no listener has
    received it. *)
Theorem unheard_error_escapes :
  new_BackupScheduler (sample_options (num 5)) = Normal (sample (num 5))
  ∧ run scripted ShortCircuit.cycle (sample (num 5)) [Throw (VError "ECONNRESET")]
    = (Throw (VError "ECONNRESET"), set_in_flight true (sample (num 5)), [],
       [Called op_list []; Emitted "error" (VError "ECONNRESET")])
  ∧ run scripted Strict.cycle (sample (num 5)) [Throw (VError "ECONNRESET")]
    = (Throw (VError "ECONNRESET"), set_in_flight true (sample (num 5)), [],
       [Called op_list []; Emitted "error" (VError "ECONNRESET")]).
Proof. split; [|split]; vm_compute; reflexivity. Qed.

(** C6 fails on the code.  The rejected cycle above has passed the entry
    guard and has not cleared [#in_flight]; the next call of [cycle] on the
    scheduler, with no cycle running, returns [false] at the guard and calls
    nothing (in both revisions). *)
Theorem in_flight_stays_set :
  (let r := run scripted ShortCircuit.cycle (sample (num 5))
                [Throw (VError "ECONNRESET")] in
   result_of r = Throw (VError "ECONNRESET")
   ∧ in_flight (scheduler_of r) = true
   ∧ run scripted ShortCircuit.cycle (scheduler_of r) [Normal (VBoolean false)]
     = (Normal false, scheduler_of r, [Normal (VBoolean false)], []))
  ∧ (let r := run scripted Strict.cycle (sample (num 5))
                  [Throw (VError "ECONNRESET")] in
     result_of r = Throw (VError "ECONNRESET")
     ∧ in_flight (scheduler_of r) = true
     ∧ run scripted Strict.cycle (scheduler_of r) [Normal (VArray [])]
       = (Normal false, scheduler_of r, [Normal (VArray [])], [])).
Proof. split; vm_compute; done. Qed.

(** The same cycles on a scheduler with a listener: the error is delivered
    once, the cycle returns [false] and [#in_flight] is cleared. *)
Example heard_error :
  run scripted ShortCircuit.cycle (on "error" log_error (sample (num 5)))
      [Throw (VError "ECONNRESET")]
  = (Normal false, on "error" log_error (sample (num 5)), [],
     [Called op_list []; Emitted "error" (VError "ECONNRESET");
      Delivered "error" (VError "ECONNRESET")]).
Proof. vm_compute. reflexivity. Qed.

(** ** The examples of the specification *)

(** limit 3, listed A@100, B@200, C@300, D@400: [create] is called once and
    [delete] receives A and B. *)
Example four_backups_limit_three :
  run scripted ShortCircuit.cycle (sample (num 3)) [Normal (VArray four)]
  = (Normal true, sample (num 3), [],
     [Called op_list []; Called op_create [];
      Called op_delete [VArray [backup_at "A" 100; backup_at "B" 200]]]).
Proof. vm_compute. reflexivity. Qed.

(** limit 5, [list] answers [false]: [create] is called once, [delete] is
    not called, the cycle reports success. *)
Example false_limit_five :
  run scripted ShortCircuit.cycle (sample (num 5)) [Normal (VBoolean false)]
  = (Normal true, sample (num 5), [],
     [Called op_list []; Called op_create []]).
Proof. vm_compute. reflexivity. Qed.

(** A limit of 2.5, which the constructor lets through, with two backups
    listed: the overflow is 0.5, and [delete] is called with an empty
    slice. *)
Example fractional_limit :
  run scripted ShortCircuit.cycle (sample (Fin (Q2Qc (5 # 2))))
      [Normal (VArray [backup_at "A" 100; backup_at "B" 200])]
  = (Normal true, sample (Fin (Q2Qc (5 # 2))), [],
     [Called op_list []; Called op_create []; Called op_delete [VArray []]]).
Proof. vm_compute. reflexivity. Qed.

(** The validation of the listed array lets an array through whose first
    element that is no [Backup] is falsy: [find] returns that element, and
    the test reads it as nothing found. *)
Example falsy_element_passes :
  rejected_list (VArray [VNull]) = false
  ∧ rejected_list (VArray [VOpaque 0]) = true.
Proof. split; reflexivity. Qed.

(** * More of the code *)

(** ** The runs of a body *)

Lemma rejected_list_array listed :
  rejected_list listed = false → ∃ l, listed = VArray l.
Proof.
  unfold rejected_list. destruct listed; simpl; try done. by eexists.
Qed.

Lemma run_body_run {W : Type} (be : backend W) strict s w :
  body_run be strict s w (run be (body_of strict) s w).
Proof.
  destruct strict; unfold body_of;
    [rewrite run_Strict_body | rewrite run_ShortCircuit_body].
  - destruct (invoke be op_list [] w) as [[listed|e] w1] eqn:Hlist;
      [|by apply list_threw].
    destruct (rejected_list listed) eqn:Hrej; [by eapply list_rejected|].
    destruct (rejected_list_array listed Hrej) as [l ->]. simpl elements_of.
    destruct (Array_sort by_created_at l) as [sorted|e] eqn:Hsort;
      [|by eapply sort_threw].
    destruct (invoke be op_create [] w1) as [[backup|e] w2] eqn:Hcreate;
      [|by eapply create_threw].
    destruct (instanceof_Backup backup) eqn:Hbackup; simpl negb; cbv iota;
      [|by eapply create_rejected].
    unfold retained.
    destruct (num_lt (num 0) (overflow_of sorted (get (options s) "limit")))
      eqn:Hover; [|by eapply within_limit].
    cbv zeta.
    destruct (invoke be op_delete _ w2) as [c3 w3] eqn:Hdelete.
    by eapply (over_limit be true s w l sorted backup c3 w1 w2 w3).
  - destruct (invoke be op_list [] w) as [[listed|e] w1] eqn:Hlist;
      [|by apply list_threw].
    destruct (is_false listed) eqn:Hfalse.
    { destruct listed as [| |[|]| | | | | | |]; try done.
      destruct (invoke be op_create [] w1) as [c2 w2] eqn:Hcreate.
      by eapply short_circuited. }
    destruct (rejected_list listed) eqn:Hrej; [by eapply list_rejected|].
    destruct (rejected_list_array listed Hrej) as [l ->]. simpl elements_of.
    destruct (Array_sort by_created_at l) as [sorted|e] eqn:Hsort;
      [|by eapply sort_threw].
    destruct (invoke be op_create [] w1) as [[backup|e] w2] eqn:Hcreate;
      [|by eapply create_threw].
    unfold retained.
    destruct (num_lt (num 0) (overflow_of sorted (get (options s) "limit")))
      eqn:Hover; [|by eapply within_limit].
    cbv zeta.
    destruct (invoke be op_delete _ w2) as [c3 w3] eqn:Hdelete.
    by eapply (over_limit be false s w l sorted backup c3 w1 w2 w3).
Qed.

Lemma cycle_of_guarded strict : cycle_of strict = guarded (body_of strict).
Proof. by destruct strict. Qed.

Lemma cycle_of_variant cycle :
  cycle = Strict.cycle ∨ cycle = ShortCircuit.cycle ↔ ∃ strict, cycle = cycle_of strict.
Proof.
  split.
  - intros [-> | ->]; [by exists true | by exists false].
  - intros [[|] ->]; [by left | by right].
Qed.

Lemma guarded_result {W : Type} (be : backend W) body s w :
  in_flight s = false →
  match result_of (run be body (set_in_flight true s) w) with
  | Normal _ => result_of (run be (guarded body) s w) = Normal true
  | Throw _ => result_of (run be (guarded body) s w) ≠ Normal true
  end.
Proof.
  intros H. rewrite run_guarded by done.
  destruct (run be body (set_in_flight true s) w) as [[[[[]|error] s'] w'] tr];
    unfold result_of; simpl; [done|].
  by destruct (EventEmitter_emit (listeners s') "error" error) as [tr' [b|e]].
Qed.

Ltac body_cases be strict s w Hrun :=
  pose proof (run_body_run be strict (set_in_flight true s) w) as Hrun;
  destruct (run be (body_of strict) (set_in_flight true s) w)
    as [[[r s'] w'] tr];
  unfold trace_of, result_of; simpl;
  inversion Hrun; subst; clear Hrun.

(** ** The protocol of a cycle *)

Lemma sort_insert_Permutation comparefn x l r :
  sort_insert comparefn x l = Normal r → r ≡ₚ x :: l.
Proof.
  revert r. induction l as [|y l IH]; intros r.
  { by intros [= <-]. }
  rewrite sort_insert_unfold.
  destruct (SortCompare comparefn x y) as [c|e]; [|done].
  rewrite bind_Normal. destruct (num_lt (num 0) c).
  - destruct (sort_insert comparefn x l) as [r'|e]; [|done].
    rewrite bind_Normal. intros [= <-]. rewrite (IH r' eq_refl).
    apply perm_swap.
  - by intros [= <-].
Qed.

Lemma Array_sort_Permutation comparefn l sorted :
  Array_sort comparefn l = Normal sorted → sorted ≡ₚ l.
Proof.
  revert sorted. induction l as [|x l IH]; intros sorted.
  { by intros [= <-]. }
  rewrite Array_sort_unfold.
  destruct (Array_sort comparefn l) as [s|e]; [|done].
  rewrite bind_Normal. intros H.
  apply sort_insert_Permutation in H. by rewrite H, (IH s eq_refl).
Qed.

Lemma Array_slice_subseteq l start end_ : Array_slice l start end_ ⊆ l.
Proof.
  unfold Array_slice. etrans; [apply subseteq_take|apply subseteq_drop].
Qed.

Lemma Array_slice_from_start l end_ :
  ∃ k, Array_slice l (num 0) end_ = take k l.
Proof.
  unfold Array_slice. rewrite ToIntegerOrInfinity_num. unfold relative_index.
  replace (0 <? 0) with false by done.
  replace (Z.to_nat (0 `min` Z.of_nat (length l))) with 0%nat by lia.
  rewrite drop_0. by eexists.
Qed.

(** X1.  A call of [cycle] that finds [#in_flight] set calls nothing.
    Any other call of [cycle], in either revision and whatever the backend
    answers, calls [list] alone, or [list] and then [create], or [list],
    [create] and then [delete] with one array: no operation is called twice,
    none out of this order.  The array [delete] receives is a prefix of the
    sorted copy of the array [list] returned: the sorted copy is a
    permutation of that array, and its stable sort by creation time when the
    array holds [Backup]s with a time; under a whole limit [L] the prefix
    has [N - L + 1] entries, or all [N] if that is more. *)
Theorem cycle_call_protocol {W : Type} (be : backend W) strict s w :
  (in_flight s = true →
   calls (trace_of (run be (cycle_of strict) s w)) = [])
  ∧ (in_flight s = false →
     calls (trace_of (run be (cycle_of strict) s w)) = [(op_list, [])]
     ∨ calls (trace_of (run be (cycle_of strict) s w))
       = [(op_list, []); (op_create, [])]
     ∨ ∃ l w1 sorted k,
         invoke be op_list [] w = (Normal (VArray l), w1)
         ∧ sorted ≡ₚ l
         ∧ (Forall timed l → stable_sort_of l sorted)
         ∧ calls (trace_of (run be (cycle_of strict) s w))
           = [(op_list, []); (op_create, []);
              (op_delete, [VArray (take k sorted)])]
         ∧ ∀ L : Z,
             get (options s) "limit" = VNumber (num L) →
             0 < Z.of_nat (length l) - L + 1
             ∧ take k sorted
               = take (Z.to_nat (Z.of_nat (length l) - L + 1)) sorted).
Proof.
  rewrite cycle_of_guarded. split; intros H.
  - by rewrite run_guarded_busy.
  - destruct (guarded_trace be (body_of strict) s w H) as [-> _].
    body_cases be strict s w Hrun; eauto.
    right. right.
    pose proof (Array_sort_Permutation by_created_at l sorted) as Hperm.
    destruct (Array_slice_from_start sorted
                (overflow_of sorted (get (options s) "limit"))) as [k Hk].
    exists l, w1, sorted, k. simpl in *.
    split; [done|]. split; [by apply Hperm|]. split; [|split].
    + intros Htimed.
      destruct (Array_sort_timed l Htimed) as (sorted' & Hsorted' & Hstable).
      by assert (sorted' = sorted) as -> by congruence.
    + by rewrite <-Hk.
    + intros L HL. rewrite <-Hk.
      match goal with
      | Hover : num_lt (num 0) _ = true |- _ =>
          rewrite HL, overflow_of_num, num_lt_num in Hover;
          apply bool_decide_eq_true in Hover
      end.
      rewrite <-(Permutation_length (Hperm ltac:(done))).
      split; [done|].
      rewrite HL, overflow_of_num. by apply Array_slice_prefix; lia.
Qed.

Lemma cycle_call_protocol_witness :
  calls (trace_of (run scripted (cycle_of false)
                       (set_in_flight true (sample (num 3)))
                       [Normal (VArray four)])) = []
  ∧ (calls (trace_of (run scripted (cycle_of false) (sample (num 3))
                          [Normal (VArray four)])) = [(op_list, [])]
     ∨ calls (trace_of (run scripted (cycle_of false) (sample (num 3))
                            [Normal (VArray four)]))
       = [(op_list, []); (op_create, [])]
     ∨ ∃ l w1 sorted k,
         invoke scripted op_list [] [Normal (VArray four)]
         = (Normal (VArray l), w1)
         ∧ sorted ≡ₚ l
         ∧ (Forall timed l → stable_sort_of l sorted)
         ∧ calls (trace_of (run scripted (cycle_of false) (sample (num 3))
                                [Normal (VArray four)]))
           = [(op_list, []); (op_create, []);
              (op_delete, [VArray (take k sorted)])]
         ∧ ∀ L : Z,
             get (options (sample (num 3))) "limit" = VNumber (num L) →
             0 < Z.of_nat (length l) - L + 1
             ∧ take k sorted
               = take (Z.to_nat (Z.of_nat (length l) - L + 1)) sorted).
Proof.
  split.
  - apply (cycle_call_protocol scripted false
             (set_in_flight true (sample (num 3)))). reflexivity.
  - apply (cycle_call_protocol scripted false (sample (num 3))). reflexivity.
Defined.

(** X2.  Whatever [list] answers, [delete] is called only after [create]
    has returned, at most once, and with entries that [list] returned in
    this very cycle: the slice is a part of the listed array. *)
Theorem delete_receives_only_listed {W : Type} (be : backend W) strict s w args :
  args ∈ calls_of op_delete (trace_of (run be (cycle_of strict) s w)) →
  ∃ l sliced created w1 w2,
    invoke be op_list [] w = (Normal (VArray l), w1)
    ∧ invoke be op_create [] w1 = (Normal created, w2)
    ∧ args = [VArray sliced]
    ∧ sliced ⊆ l
    ∧ calls_of op_delete (trace_of (run be (cycle_of strict) s w)) = [args].
Proof.
  rewrite cycle_of_guarded. unfold calls_of.
  destruct (in_flight s) eqn:Hbusy.
  { rewrite run_guarded_busy by done. by intros ?%elem_of_nil. }
  destruct (guarded_trace be (body_of strict) s w Hbusy) as [-> _].
  body_cases be strict s w Hrun; try by intros ?%elem_of_nil.
  intros ->%list_elem_of_singleton.
  eexists l, _, backup, w1, w2. repeat split; try done.
  rewrite <-(Array_sort_Permutation by_created_at l sorted) by done.
  apply Array_slice_subseteq.
Qed.

Lemma delete_receives_only_listed_witness :
  ∃ l sliced created w1 w2,
    invoke scripted op_list [] [Normal (VArray four)] = (Normal (VArray l), w1)
    ∧ invoke scripted op_create [] w1 = (Normal created, w2)
    ∧ [VArray [backup_at "A" 100; backup_at "B" 200]] = [VArray sliced]
    ∧ sliced ⊆ l
    ∧ calls_of op_delete
        (trace_of (run scripted (cycle_of false) (sample (num 3))
                       [Normal (VArray four)]))
      = [[VArray [backup_at "A" 100; backup_at "B" 200]]].
Proof.
  apply (delete_receives_only_listed scripted false (sample (num 3))
           [Normal (VArray four)]).
  vm_compute. left.
Defined.

(** A cycle that passes the guard, read off the run of its body. *)
Lemma cycle_by_body {W : Type} (be : backend W) strict s w :
  in_flight s = false →
  ∃ rb wb trb,
    body_run be strict (set_in_flight true s) w (rb, set_in_flight true s, wb, trb)
    ∧ calls (trace_of (run be (cycle_of strict) s w)) = calls trb
    ∧ emissions (trace_of (run be (cycle_of strict) s w))
      = match rb with Normal _ => [] | Throw error => [("error", error)] end
    ∧ match rb with
      | Normal _ => result_of (run be (cycle_of strict) s w) = Normal true
      | Throw _ => result_of (run be (cycle_of strict) s w) ≠ Normal true
      end.
Proof.
  intros Hfree. rewrite cycle_of_guarded.
  destruct (guarded_trace be (body_of strict) s w Hfree) as [-> ->].
  pose proof (guarded_result be (body_of strict) s w Hfree) as Hres.
  pose proof (run_body_run be strict (set_in_flight true s) w) as Hrun.
  assert (emissions (trace_of (run be (body_of strict) (set_in_flight true s) w))
          = []) as ->.
  { destruct strict; apply body_traces; auto. }
  pose proof (run_flagless be (body_of strict) (set_in_flight true s) w) as Hsame.
  destruct (run be (body_of strict) (set_in_flight true s) w)
    as [[[rb sb] wb] trb].
  unfold scheduler_of, trace_of, result_of in *. simpl in Hsame, Hres |- *.
  rewrite Hsame in Hrun by (destruct strict; apply flagless_body; auto).
  by exists rb, wb, trb.
Qed.

Ltac by_body be strict s w Hfree :=
  let rb := fresh "rb" in
  let wb := fresh "wb" in
  let trb := fresh "trb" in
  let Hrun := fresh "Hrun" in
  let Hcalls := fresh "Hcalls" in
  let Hem := fresh "Hem" in
  let Hres := fresh "Hres" in
  let res := fresh "res" in
  destruct (cycle_by_body be strict s w Hfree)
    as (rb & wb & trb & Hrun & Hcalls & Hem & Hres);
  unfold calls_of; rewrite ?Hcalls, ?Hem; clear Hcalls Hem;
  generalize dependent (result_of (run be (cycle_of strict) s w));
  intros res Hres;
  inversion Hrun; subst; clear Hrun; simpl in *.

Ltac same_call :=
  repeat match goal with
         | H1 : invoke ?be ?m ?a ?w = _, H2 : invoke ?be ?m ?a ?w = _ |- _ =>
             rewrite H1 in H2; simplify_eq
         end.

Ltac same_sort :=
  repeat match goal with
         | H1 : Array_sort ?c ?l = _, H2 : Array_sort ?c ?l = _ |- _ =>
             rewrite H1 in H2; simplify_eq
         end.

Ltac members :=
  repeat match goal with
         | H : _ ∈ _ :: _ |- _ => apply elem_of_cons in H as [H|H]
         | H : _ ∈ [] |- _ => by apply elem_of_nil in H
         end.

(** X3.  An operation that throws ends the cycle.  When [list] throws,
    neither [create] nor [delete] is called; when [create] was called and
    threw, [delete] is not called; when [delete] was called and threw,
    nothing is called after it: the calls of the cycle are [list], [create]
    and this [delete].  In all three cases the one event emitted carries the
    thrown value and the cycle does not report success. *)
Theorem failing_operation_ends_cycle {W : Type} (be : backend W) strict s w e :
  in_flight s = false →
  (∀ w1, invoke be op_list [] w = (Throw e, w1) →
     calls (trace_of (run be (cycle_of strict) s w)) = [(op_list, [])]
     ∧ emissions (trace_of (run be (cycle_of strict) s w)) = [("error", e)]
     ∧ result_of (run be (cycle_of strict) s w) ≠ Normal true)
  ∧ (∀ c1 w1 w2,
       invoke be op_list [] w = (c1, w1) →
       invoke be op_create [] w1 = (Throw e, w2) →
       (op_create, []) ∈ calls (trace_of (run be (cycle_of strict) s w)) →
       calls (trace_of (run be (cycle_of strict) s w))
       = [(op_list, []); (op_create, [])]
       ∧ emissions (trace_of (run be (cycle_of strict) s w)) = [("error", e)]
       ∧ result_of (run be (cycle_of strict) s w) ≠ Normal true)
  ∧ (∀ args c1 c2 w1 w2 w3,
       invoke be op_list [] w = (c1, w1) →
       invoke be op_create [] w1 = (c2, w2) →
       invoke be op_delete args w2 = (Throw e, w3) →
       (op_delete, args) ∈ calls (trace_of (run be (cycle_of strict) s w)) →
       calls (trace_of (run be (cycle_of strict) s w))
       = [(op_list, []); (op_create, []); (op_delete, args)]
       ∧ emissions (trace_of (run be (cycle_of strict) s w)) = [("error", e)]
       ∧ result_of (run be (cycle_of strict) s w) ≠ Normal true).
Proof.
  intros Hfree.
  by_body be strict s w Hfree; (split; [|split]); intros; members;
    simplify_eq; same_call; simpl in *; try done.
Qed.

Lemma failing_operation_ends_cycle_witness :
  (calls (trace_of (run scripted (cycle_of false) (sample (num 5))
                        [Normal (VBoolean false); Throw (VError "ENOSPC")]))
   = [(op_list, []); (op_create, [])]
   ∧ emissions (trace_of (run scripted (cycle_of false) (sample (num 5))
                              [Normal (VBoolean false); Throw (VError "ENOSPC")]))
     = [("error", VError "ENOSPC")]
   ∧ result_of (run scripted (cycle_of false) (sample (num 5))
                    [Normal (VBoolean false); Throw (VError "ENOSPC")])
     ≠ Normal true)
  ∧ (calls (trace_of (run scripted (cycle_of false) (sample (num 3))
                          [Normal (VArray four); Normal VUndefined;
                           Throw (VError "EIO")]))
     = [(op_list, []); (op_create, []);
        (op_delete, [VArray [backup_at "A" 100; backup_at "B" 200]])]
     ∧ emissions (trace_of (run scripted (cycle_of false) (sample (num 3))
                                [Normal (VArray four); Normal VUndefined;
                                 Throw (VError "EIO")]))
       = [("error", VError "EIO")]
     ∧ result_of (run scripted (cycle_of false) (sample (num 3))
                      [Normal (VArray four); Normal VUndefined;
                       Throw (VError "EIO")])
       ≠ Normal true).
Proof.
  split.
  - destruct (failing_operation_ends_cycle scripted false (sample (num 5))
                [Normal (VBoolean false); Throw (VError "ENOSPC")]
                (VError "ENOSPC") eq_refl) as (_ & Hcreate & _).
    apply (Hcreate (Normal (VBoolean false)) [Throw (VError "ENOSPC")] []).
    + reflexivity.
    + reflexivity.
    + vm_compute. right. left.
  - destruct (failing_operation_ends_cycle scripted false (sample (num 3))
                [Normal (VArray four); Normal VUndefined; Throw (VError "EIO")]
                (VError "EIO") eq_refl) as (_ & _ & Hdelete).
    apply (Hdelete [VArray [backup_at "A" 100; backup_at "B" 200]]
             (Normal (VArray four)) (Normal VUndefined)
             [Normal VUndefined; Throw (VError "EIO")]
             [Throw (VError "EIO")] []).
    + reflexivity.
    + reflexivity.
    + reflexivity.
    + vm_compute. right. right. left.
Defined.

(** ** Calls of [cycle] one after the other *)

Lemma set_in_flight_back s :
  in_flight s = false → set_in_flight false (set_in_flight true s) = s.
Proof. destruct s; simpl. by intros ->. Qed.

Lemma run_cycle_scheduler {W : Type} (be : backend W) strict s w :
  (is_Normal (result_of (run be (cycle_of strict) s w)) →
   scheduler_of (run be (cycle_of strict) s w) = s)
  ∧ (is_Throw (result_of (run be (cycle_of strict) s w)) →
     in_flight s = false
     ∧ scheduler_of (run be (cycle_of strict) s w) = set_in_flight true s).
Proof.
  rewrite cycle_of_guarded. destruct (in_flight s) eqn:Hbusy.
  { rewrite run_guarded_busy by done. unfold result_of, scheduler_of; simpl.
    split; [done | by intros [? ?]]. }
  rewrite run_guarded by done.
  pose proof (run_flagless be (body_of strict) (set_in_flight true s) w) as Hsame.
  destruct (run be (body_of strict) (set_in_flight true s) w)
    as [[[[[]|error] sb] wb] trb];
    unfold scheduler_of, result_of in *; simpl in *;
    rewrite Hsame by (destruct strict; apply flagless_body; auto).
  - split; [|by intros [? ?]]. intros _. by apply set_in_flight_back.
  - destruct (EventEmitter_emit (listeners (set_in_flight true s)) "error" error)
      as [delivered [b|e]]; simpl.
    + split; [|by intros [? ?]]. intros _. by apply set_in_flight_back.
    + split; [by intros [? ?] | done].
Qed.

Lemma cycle_outcome {W : Type} (be : backend W) strict s w :
  in_flight s = false →
  calls_of op_list (trace_of (run be (cycle_of strict) s w)) = [[]]
  ∧ ((result_of (run be (cycle_of strict) s w) = Normal true
      ∧ emissions (trace_of (run be (cycle_of strict) s w)) = []
      ∧ in_flight (scheduler_of (run be (cycle_of strict) s w)) = false)
     ∨ ∃ error,
         emissions (trace_of (run be (cycle_of strict) s w)) = [("error", error)]
         ∧ (heard s →
            result_of (run be (cycle_of strict) s w) = Normal false
            ∧ in_flight (scheduler_of (run be (cycle_of strict) s w)) = false)).
Proof.
  intros Hfree.
  assert (body_of strict = Strict.body ∨ body_of strict = ShortCircuit.body)
    as Hbody by (destruct strict; auto).
  destruct (body_traces be (body_of strict) (set_in_flight true s) w Hbody)
    as (_ & Hlist & Hquiet).
  destruct (guarded_trace be (body_of strict) s w Hfree) as [Hcalls Hem].
  pose proof (guarded_result be (body_of strict) s w Hfree) as Hres.
  pose proof (heard_error_is_isolated be (body_of strict) s w Hbody Hfree)
    as Hheard.
  pose proof (run_cycle_scheduler be strict s w) as [Hsame _].
  rewrite <-cycle_of_guarded in *. rewrite Hquiet in Hem.
  split; [unfold calls_of in *; by rewrite Hcalls|].
  destruct (result_of (run be (body_of strict) (set_in_flight true s) w))
    as [[]|error].
  - left. split; [done|]. split; [done|].
    rewrite Hsame; [done|]. rewrite Hres. by eexists.
  - right. exists error. split; [done|].
    intros [? [? ?]]%Hheard. done.
Qed.



(** ** The validation of the listed array *)

Lemma Array_find_not_Backup l :
  ToBoolean (Array_find (λ backup, negb (instanceof_Backup backup)) l) = false
  ↔ Forall (λ v, instanceof_Backup v = true) l
    ∨ ∃ pre x post,
        l = pre ++ x :: post
        ∧ Forall (λ v, instanceof_Backup v = true) pre
        ∧ instanceof_Backup x = false ∧ ToBoolean x = false.
Proof.
  unfold Array_find. induction l as [|y l IH].
  { split; [by left | done]. }
  destruct (instanceof_Backup y) eqn:Hy.
  - rewrite filter_cons_False by (rewrite Hy; done). rewrite IH. split.
    + intros [Hall | (pre & x & post & -> & Hpre & Hx & Hfalsy)].
      * left. by constructor.
      * right. exists (y :: pre), x, post. repeat split; try done.
        by constructor.
    + intros [Hall | (pre & x & post & Hl & Hpre & Hx & Hfalsy)].
      * left. by apply Forall_cons in Hall as [_ ?].
      * right. destruct pre as [|y' pre]; simpl in Hl; simplify_eq;
          [congruence|].
        apply Forall_cons in Hpre as [_ Hpre]. by exists pre, x, post.
  - rewrite filter_cons_True by (rewrite Hy; done). simpl. split.
    + intros Hfalsy. right. by exists [], y, l.
    + intros [Hall | (pre & x & post & Hl & Hpre & Hx & Hfalsy)].
      * apply Forall_cons in Hall as [? _]. congruence.
      * destruct pre as [|y' pre]; simpl in Hl; simplify_eq; [done|].
        apply Forall_cons in Hpre as [? _]. congruence.
Qed.

(** X6.  The validation of what [list] returned lets through exactly the
    arrays whose first element that is no [Backup], if there is one, is
    falsy ([null], [undefined], [0], [NaN], the empty string, [false]):
    [find] returns that element, and the test takes it for nothing found.
    An array of [Backup]s passes; a value that is no array never does. *)
Theorem validation_lets_falsy_through listed :
  rejected_list listed = false
  ↔ ∃ l, listed = VArray l
         ∧ (Forall (λ v, instanceof_Backup v = true) l
            ∨ ∃ pre x post,
                l = pre ++ x :: post
                ∧ Forall (λ v, instanceof_Backup v = true) pre
                ∧ instanceof_Backup x = false ∧ ToBoolean x = false).
Proof.
  split.
  - intros H. destruct (rejected_list_array listed H) as [l ->].
    exists l. split; [done|]. by apply Array_find_not_Backup.
  - intros (l & -> & H). unfold rejected_list. simpl.
    by apply Array_find_not_Backup.
Qed.

Lemma validation_lets_falsy_through_witness :
  rejected_list (VArray [backup_at "a" 1; VNull; VString "no backup"]) = false.
Proof.
  apply validation_lets_falsy_through. eexists. split; [done|]. right.
  exists [backup_at "a" 1], VNull, [VString "no backup"].
  repeat split; [by repeat constructor].
Defined.

(** X7.  In the earlier revision a [create] that returns anything but a
    [Backup] (nothing at all, as the [create] of the disk and S3 backends)
    fails the cycle after the backup was made: [list] and [create] are
    called, [delete] is not, the error emitted is the one about [create],
    and the cycle does not report success. *)
Theorem Strict_needs_created_Backup {W : Type} (be : backend W) s w l created
    w1 w2 :
  in_flight s = false →
  invoke be op_list [] w = (Normal (VArray l), w1) →
  Forall timed l →
  invoke be op_create [] w1 = (Normal created, w2) →
  instanceof_Backup created = false →
  calls (trace_of (run be (cycle_of true) s w))
  = [(op_list, []); (op_create, [])]
  ∧ emissions (trace_of (run be (cycle_of true) s w))
    = [("error", VError create_message)]
  ∧ result_of (run be (cycle_of true) s w) ≠ Normal true.
Proof.
  intros Hfree Hlist Hl Hcreate Hcreated.
  pose proof (rejected_list_timed l Hl) as Hok.
  destruct (Array_sort_timed l Hl) as (sorted & Hsorted & _).
  by_body be true s w Hfree; same_call; simplify_eq; try done;
    try congruence;
    match goal with
    | H : true = true → instanceof_Backup _ = true |- _ =>
        specialize (H eq_refl); congruence
    end.
Qed.

Lemma Strict_needs_created_Backup_witness :
  calls (trace_of (run scripted (cycle_of true) (sample (num 3))
                       [Normal (VArray four); Normal VUndefined]))
  = [(op_list, []); (op_create, [])]
  ∧ emissions (trace_of (run scripted (cycle_of true) (sample (num 3))
                             [Normal (VArray four); Normal VUndefined]))
    = [("error", VError create_message)]
  ∧ result_of (run scripted (cycle_of true) (sample (num 3))
                   [Normal (VArray four); Normal VUndefined])
    ≠ Normal true.
Proof.
  apply (Strict_needs_created_Backup scripted (sample (num 3))
           [Normal (VArray four); Normal VUndefined] four VUndefined
           [Normal VUndefined] []).
  - reflexivity.
  - reflexivity.
  - eapply Forall_impl; [apply four_constructed | apply constructed_value_timed].
  - reflexivity.
  - reflexivity.
Defined.

(** ** Limits that are no integers *)

Lemma Qc_of_Z_this (z : Z) : this (Qc_of_Z z) = inject_Z z.
Proof. reflexivity. Qed.

(** The truncation of a positive number is its integer part. *)
Lemma ToIntegerOrInfinity_positive (q : Qc) :
  (Qc_of_Z 0 < q)%Qc →
  ∃ k : Z, ToIntegerOrInfinity (Fin q) = IFin k ∧ 0 ≤ k
           ∧ (Qc_of_Z k ≤ q)%Qc ∧ (q < Qc_of_Z (k + 1))%Qc.
Proof.
  intros Hq. exists (Qfloor (this q)).
  assert (0 < Qnum (this q)) as Hnum.
  { unfold Qclt, Qlt in Hq. rewrite Qc_of_Z_this in Hq. simpl in Hq. lia. }
  split; [|split; [|split]].
  - simpl. f_equal. unfold Qfloor. destruct (this q) as [n d]; simpl in *.
    apply Z.quot_div_nonneg; lia.
  - unfold Qfloor. destruct (this q) as [n d]; simpl in *.
    apply Z.div_pos; lia.
  - unfold Qcle. rewrite Qc_of_Z_this. apply Qfloor_le.
  - unfold Qclt. rewrite Qc_of_Z_this. apply Qlt_floor.
Qed.

Lemma overflow_of_Fin sorted (x : Qc) :
  overflow_of sorted (VNumber (Fin x))
  = Fin (Qc_of_Z (Z.of_nat (length sorted)) - x + Qc_of_Z 1)%Qc.
Proof. reflexivity. Qed.

Lemma Array_slice_from_zero l (k : Z) overflow :
  ToIntegerOrInfinity overflow = IFin k → 0 ≤ k → k ≤ Z.of_nat (length l) →
  Array_slice l (num 0) overflow = take (Z.to_nat k) l
  ∧ length (take (Z.to_nat k) l) = Z.to_nat k.
Proof.
  intros Hk H0 Hlen. unfold Array_slice.
  rewrite ToIntegerOrInfinity_num, Hk. unfold relative_index.
  replace (0 <? 0) with false by done.
  replace (k <? 0) with false by (symmetry; apply Z.ltb_ge; lia).
  replace (Z.to_nat (0 `min` Z.of_nat (length l))) with 0%nat by lia.
  rewrite drop_0, Nat.sub_0_r, Z.min_l by lia.
  split; [done|]. rewrite length_take. lia.
Qed.

(** What the retention step deletes under a limit the constructor lets
    through. *)
Lemma overflow_under_limit sorted limit :
  from_one limit →
  let N := Z.of_nat (length sorted) in
  let overflow := overflow_of sorted (VNumber limit) in
  num_lt (num 0) overflow = num_lt limit (num (N + 1))
  ∧ (num_lt (num 0) overflow = true →
     ∃ k : Z,
       0 ≤ k ≤ N
       ∧ Array_slice sorted (num 0) overflow = take (Z.to_nat k) sorted
       ∧ num_lt (num (N + 1 - k)) limit = false
       ∧ num_lt (num (N + 1 - k)) (num_add limit (num 1)) = true).
Proof.
  intros [Hnan Hone] N overflow.
  destruct limit as [| | |x]; try done.
  subst overflow. rewrite overflow_of_Fin. fold N.
  assert (Qc_of_Z 1 ≤ x)%Qc as Hx
    by (apply Qcnot_lt_le; by apply bool_decide_eq_false in Hone).
  assert (∀ a b : Qc, (a < b ↔ Qc_of_Z 0 < b - a)%Qc) as Hshift.
  { intros a b. rewrite (Qcplus_lt_mono_r a b (- a)), Qcplus_opp_r.
    by rewrite Z2Qc_inj_0. }
  split.
  - unfold num_lt, num. apply bool_decide_ext.
    rewrite (Hshift x (Qc_of_Z (N + 1))), Z2Qc_inj_add.
    by replace (Qc_of_Z N + Qc_of_Z 1 - x)%Qc
      with (Qc_of_Z N - x + Qc_of_Z 1)%Qc by ring.
  - unfold num_lt at 1, num at 1. intros Hpos%bool_decide_eq_true.
    destruct (ToIntegerOrInfinity_positive _ Hpos) as (k & Hk & Hk0 & Hle & Hlt).
    assert (k ≤ N) as HkN.
    { apply Z2Qc_inj_le. etrans; [exact Hle|].
      apply (Qcplus_le_mono_r _ _ (x - Qc_of_Z 1)%Qc).
      replace (Qc_of_Z N - x + Qc_of_Z 1 + (x - Qc_of_Z 1))%Qc
        with (Qc_of_Z N + Qc_of_Z 0)%Qc by (rewrite Z2Qc_inj_0; ring).
      apply Qcplus_le_mono_l. rewrite Z2Qc_inj_0.
      apply (Qcplus_le_mono_r _ _ (Qc_of_Z 1)).
      replace (x - Qc_of_Z 1 + Qc_of_Z 1)%Qc with x by ring.
      by rewrite Qcplus_0_l. }
    exists k. split; [lia|]. split; [|split].
    + by apply (Array_slice_from_zero sorted k).
    + unfold num_lt, num. apply bool_decide_eq_false, Qcle_not_lt.
      apply (Qcplus_le_mono_r _ _ (Qc_of_Z k - x)%Qc).
      replace (x + (Qc_of_Z k - x))%Qc with (Qc_of_Z k) by ring.
      replace (Qc_of_Z (N + 1 - k) + (Qc_of_Z k - x))%Qc
        with (Qc_of_Z N - x + Qc_of_Z 1)%Qc; [done|].
      rewrite Z2Qc_inj_sub, Z2Qc_inj_add. ring.
    + unfold num_add, num_lt, num. apply bool_decide_eq_true.
      apply (Qcplus_lt_mono_r _ _ (Qc_of_Z k - x)%Qc).
      replace (Qc_of_Z (N + 1 - k) + (Qc_of_Z k - x))%Qc
        with (Qc_of_Z N - x + Qc_of_Z 1)%Qc
        by (rewrite Z2Qc_inj_sub, Z2Qc_inj_add; ring).
      replace (x + Qc_of_Z 1 + (Qc_of_Z k - x))%Qc with (Qc_of_Z (k + 1));
        [done|].
      rewrite Z2Qc_inj_add. ring.
Qed.

Lemma successful_cycle_free {W : Type} (be : backend W) strict s w :
  result_of (run be (cycle_of strict) s w) = Normal true → in_flight s = false.
Proof.
  rewrite cycle_of_guarded. destruct (in_flight s) eqn:Hbusy; [|done].
  by rewrite run_guarded_busy.
Qed.

(** The limit [1 + 2^-52] is a double, and so is [3 - (1 + 2^-52)]; the
    sum [3 - (1 + 2^-52) + 1] is not: there the code rounds, and the
    statement below does not speak. *)
Lemma rounded_limit_not_exact :
  let limit := Fin (Q2Qc (4503599627370497 # 4503599627370496)) in
  double limit
  ∧ double (num_sub (num 3) limit)
  ∧ ¬ double (num_add (num_sub (num 3) limit) (num 1)).
Proof.
  split; [|split].
  - exists 4503599627370497, 0, 52.
    split; [reflexivity|]. split; [lia|]. split; [lia|].
    apply Qc_is_canon. reflexivity.
  - exists 9007199254740991, 0, 52.
    split; [reflexivity|]. split; [lia|]. split; [lia|].
    apply Qc_is_canon. reflexivity.
  - intros (m & a & b & Hm & Ha & Hb & Heq).
    change (2 ^ 53) with 9007199254740992 in Hm.
    assert (13510798882111487 * 2 ^ b = m * 2 ^ a * 2 ^ 52) as HZ.
    { apply Z2Qc_inj. rewrite Z2Qc_inj_mul in Heq. rewrite !Z2Qc_inj_mul.
      rewrite <-Heq.
      match goal with
      | |- (_ = ?q * _ * _)%Qc =>
          replace (Qc_of_Z 13510798882111487) with (q * Qc_of_Z (2 ^ 52))%Qc
            by (apply Qc_is_canon; reflexivity)
      end.
      ring. }
    assert (0 < 2 ^ a) as Hpa by (apply Z.pow_pos_nonneg; lia).
    assert (0 < 2 ^ b) as Hpb by (apply Z.pow_pos_nonneg; lia).
    destruct (decide (b < a + 52)) as [Hlt|Hge].
    + assert (2 ^ a * 2 ^ 52 = 2 ^ b * (2 * 2 ^ (a + 52 - b - 1))) as Hsplit.
      { rewrite <-Z.pow_add_r by lia.
        rewrite <-(Z.pow_succ_r 2) by lia.
        rewrite <-Z.pow_add_r by lia. f_equal. lia. }
      assert (13510798882111487 = m * (2 * 2 ^ (a + 52 - b - 1))) as Hodd.
      { apply (Z.mul_cancel_l _ _ (2 ^ b)); [lia|].
        rewrite (Z.mul_comm (2 ^ b) 13510798882111487), HZ.
        rewrite <-Z.mul_assoc, Hsplit. ring. }
      generalize dependent (2 ^ (a + 52 - b - 1)). intros t _ Hodd. lia.
    + assert (2 ^ b = 2 ^ a * 2 ^ 52 * 2 ^ (b - a - 52)) as Hsplit.
      { rewrite <-!Z.pow_add_r by lia. f_equal. lia. }
      assert (0 < 2 ^ (b - a - 52)) as Hpt by (apply Z.pow_pos_nonneg; lia).
      assert (13510798882111487 * 2 ^ (b - a - 52) = m) as Hbig.
      { apply (Z.mul_cancel_l _ _ (2 ^ a * 2 ^ 52)); [lia|].
        replace (2 ^ a * 2 ^ 52 * m) with (m * 2 ^ a * 2 ^ 52) by ring.
        rewrite <-HZ, Hsplit. ring. }
      generalize dependent (2 ^ (b - a - 52)). intros t _ Hpt Hbig. lia.
Qed.

(** X8.  Under a limit the constructor lets through, integer or not, for
    which the subtraction and the addition of the retention step are exact
    (their results are doubles, as for a limit with a few binary places; a
    limit such as [1 + 2^-52] is not among these, the code rounds there), a
    successful cycle that listed [N] backups calls [delete] if and only if
    [limit < N + 1], with the [k] oldest entries, where [k] is the integer
    part of [N - limit + 1]: the [N + 1 - k] backups that are left are at
    least [limit] and fewer than [limit + 1], so a fractional limit is
    rounded up (and [delete] may receive an empty array), and under
    [Infinity] nothing is ever deleted. *)
Theorem retention_under_any_limit {W : Type} (be : backend W) strict s w w1 l
    limit :
  get (options s) "limit" = VNumber limit →
  from_one limit →
  double limit →
  double (num_sub (num (Z.of_nat (length l))) limit) →
  double (num_add (num_sub (num (Z.of_nat (length l))) limit) (num 1)) →
  Forall constructed_value l →
  invoke be op_list [] w = (Normal (VArray l), w1) →
  result_of (run be (cycle_of strict) s w) = Normal true →
  ∃ sorted (k : nat),
    Array_sort by_created_at l = Normal sorted
    ∧ (k ≤ length l)%nat
    ∧ calls_of op_delete (trace_of (run be (cycle_of strict) s w))
      = (if num_lt limit (num (Z.of_nat (length l) + 1))
         then [[VArray (take k sorted)]] else [])
    ∧ (if num_lt limit (num (Z.of_nat (length l) + 1))
       then num_lt (num (Z.of_nat (length l) + 1 - Z.of_nat k)) limit = false
            ∧ num_lt (num (Z.of_nat (length l) + 1 - Z.of_nat k))
                     (num_add limit (num 1)) = true
       else k = 0%nat).
Proof.
  intros Hlimit Hone _ _ _ Hl Hlist Hres.
  pose proof (successful_cycle_free be strict s w Hres) as Hfree.
  assert (Forall timed l) as Hl'
    by (eapply Forall_impl; [exact Hl | apply constructed_value_timed]).
  destruct (Array_sort_timed l Hl') as (sorted & Hsorted & Hperm & _).
  assert (length sorted = length l) as Hlen by (by rewrite Hperm).
  destruct (overflow_under_limit sorted limit Hone) as [Hiff Hover].
  rewrite Hlen in Hiff, Hover.
  exists sorted. revert Hres.
  by_body be strict s w Hfree; same_call; same_sort; simplify_eq; try done;
    intros; simplify_eq;
    match goal with
    | H : get (options s) "limit" = VNumber _ |- _ => rewrite H in *
    end.
  - exists 0%nat. rewrite <-Hiff.
    match goal with H : num_lt (num 0) _ = false |- _ => rewrite H end.
    repeat split; try done. lia.
  - match goal with H : num_lt (num 0) _ = true |- _ =>
      destruct (Hover H) as (k & Hk & Hslice & Hlow & Hhigh);
      rewrite <-Hiff, H
    end.
    exists (Z.to_nat k). rewrite Hslice, Z2Nat.id by lia.
    repeat split; try done. lia.
Qed.

Lemma retention_under_any_limit_witness :
  ∃ sorted (k : nat),
    Array_sort by_created_at [backup_at "A" 100; backup_at "B" 200]
    = Normal sorted
    ∧ (k ≤ 2)%nat
    ∧ calls_of op_delete
        (trace_of (run scripted (cycle_of false) (sample (Fin (Q2Qc (5 # 2))))
                       [Normal (VArray [backup_at "A" 100; backup_at "B" 200])]))
      = [[VArray (take k sorted)]]
    ∧ num_lt (num (3 - Z.of_nat k)) (Fin (Q2Qc (5 # 2))) = false
    ∧ num_lt (num (3 - Z.of_nat k)) (num_add (Fin (Q2Qc (5 # 2))) (num 1))
      = true.
Proof.
  apply (retention_under_any_limit scripted false (sample (Fin (Q2Qc (5 # 2))))
           [Normal (VArray [backup_at "A" 100; backup_at "B" 200])] []
           [backup_at "A" 100; backup_at "B" 200] (Fin (Q2Qc (5 # 2)))).
  - reflexivity.
  - split; [discriminate | reflexivity].
  - exists 5, 0, 1. split; [reflexivity|]. split; [lia|]. split; [lia|].
    apply Qc_is_canon. reflexivity.
  - exists (-1), 0, 1. split; [reflexivity|]. split; [lia|]. split; [lia|].
    apply Qc_is_canon. reflexivity.
  - exists 1, 0, 1. split; [reflexivity|]. split; [lia|]. split; [lia|].
    apply Qc_is_canon. reflexivity.
  - repeat constructor; by apply backup_at_constructed.
  - reflexivity.
  - vm_compute. reflexivity.
Defined.

(** ** The timer after destroy *)

Create HintDb listless.

Lemma listless_bind {A B : Type} (p : prog A) (f : A → prog B) :
  listless p → (∀ a, listless (f a)) → listless (p ≫= f).
Proof.
  unfold mbind, prog_mbind. intros Hp Hf.
  induction Hp; simpl; try by constructor. apply Hf.
Qed.

Lemma listless_try_catch {A : Type} (p : prog A) (h : value → prog A) :
  listless p → (∀ e, listless (h e)) → listless (try_catch p h).
Proof. intros Hp Hh. induction Hp; simpl; try by constructor. apply Hh. Qed.

Lemma listless_settle {A : Type} (c : completion A) : listless (settle c).
Proof. destruct c; constructor. Qed.

Lemma listless_await m args : m ≠ op_list → listless (await m args).
Proof. intros H. constructor; [done|]. apply listless_settle. Qed.

Lemma listless_this_emit name arg : listless (this_emit name arg).
Proof. constructor. apply listless_settle. Qed.

Lemma listless_this_options key : listless (this_options key).
Proof. constructor. constructor. Qed.

Lemma listless_guard (b : bool) (e : value) :
  listless (if b then Raise e else Ret tt).
Proof. destruct b; constructor. Qed.

Lemma listless_this_in_flight_set b : listless (this_in_flight_set b).
Proof. repeat constructor. Qed.

#[local] Hint Constructors listless : listless.
#[local] Hint Resolve listless_settle listless_this_emit listless_this_options
  listless_guard listless_this_in_flight_set : listless.
#[local] Hint Extern 1 (listless (await _ _)) =>
  apply listless_await; discriminate : listless.

Ltac listless_binds :=
  repeat first
    [ solve [auto with listless]
    | apply listless_try_catch; [|intros ?]
    | apply listless_bind; [|intros ?] ].

Lemma listless_delete_overflow sorted : listless (delete_overflow sorted).
Proof. unfold delete_overflow. listless_binds. case_match; listless_binds. Qed.

#[local] Hint Resolve listless_delete_overflow : listless.

(** A call of [cycle] that passes the guard is suspended at its call of
    [list], and calls [list] no more. *)
Lemma enter_lists_once strict s :
  in_flight s = false →
  ∃ k, advance (cycle_of strict) s
       = (set_in_flight true s, [Called op_list []], Suspended op_list [] k)
       ∧ ∀ c, listless (k c).
Proof.
  intros Hfree. rewrite cycle_of_guarded, advance_guarded_unfold, Hfree.
  destruct strict; (eexists; split; [reflexivity|]); intros c; cbv beta.
  - change (listless
      (try_catch ((settle c ≫= λ list,
                    (if rejected_list list then Raise (VError list_message)
                     else Ret tt);;
                    sorted ← sorted_copy list;
                    backup ← await op_create [];
                    (if negb (instanceof_Backup backup)
                     then Raise (VError create_message) else Ret tt);;
                    delete_overflow sorted);; Ret true)
                 (λ error, this_emit "error" error;; Ret false)
       ≫= λ success, this_in_flight_set false;; Ret success)).
    unfold sorted_copy. listless_binds.
  - change (listless
      (try_catch ((settle c ≫= λ list,
                    if is_false list then await op_create [];; Ret tt
                    else
                      (if rejected_list list then Raise (VError list_message)
                       else Ret tt);;
                      sorted ← sorted_copy list;
                      await op_create [];;
                      delete_overflow sorted);; Ret true)
                 (λ error, this_emit "error" error;; Ret false)
       ≫= λ success, this_in_flight_set false;; Ret success)).
    unfold sorted_copy. listless_binds. case_match; listless_binds.
Qed.

Lemma advance_listless {A : Type} (p : prog A) s :
  listless p →
  calls_of op_list (advance p s).1.2 = []
  ∧ interval (advance p s).1.1 = interval s
  ∧ match (advance p s).2 with
    | Suspended _ _ k => ∀ c, listless (k c)
    | _ => True
    end.
Proof.
  intros Hp. revert s.
  induction Hp as [a|e|k _ IH|b k _ IH|key k _ IH|m args k Hm Hk _
                   |name arg k _ IH];
    intros s; simpl; try done; try apply IH.
  - apply (IH (set_in_flight b s)).
  - repeat split; [|done]. unfold calls_of. simpl. by destruct m.
  - pose proof (EventEmitter_emit_calls (listeners s) name arg) as [Hc _].
    destruct (EventEmitter_emit (listeners s) name arg) as [delivered c].
    specialize (IH c s).
    destruct (advance (k c) s) as [[s' tr] pr]. simpl in *.
    destruct IH as (IH1 & IH2 & IH3). repeat split; try done.
    unfold calls_of in *. simpl. by rewrite calls_app, omap_app, Hc, IH1.
Qed.

Lemma enter_after_destroy strict σ :
  interval (sched σ) = None →
  listed_already σ →
  ∀ σ', timer_step (cycle_of strict) σ σ' →
    interval (sched σ') = None
    ∧ listed_already σ'
    ∧ calls_of op_list (history σ') = calls_of op_list (history σ)
    ∧ (length (suspended σ') ≤ length (suspended σ))%nat.
Proof.
  intros Hnone Hinv σ' Hstep.
  destruct Hstep as [σ delay Hsome|σ i m args k c Hi|σ name l|σ];
    [congruence| |done|done].
  assert (listless (k c)) as Hk.
  { unfold listed_already in Hinv. rewrite Forall_forall in Hinv.
    apply (Hinv (m, args, k)). by eapply list_elem_of_lookup_2. }
  destruct (advance_listless (k c) (sched σ) Hk) as (Hcalls & Hint & Hsusp).
  unfold resume.
  destruct (advance (k c) (sched σ)) as [[s' tr] pr]. simpl in *.
  assert (suspended σ = take i (suspended σ) ++ (m, args, k) :: drop (S i) (suspended σ))
    as Hsplit by (by rewrite take_drop_middle).
  split; [congruence|]. split; [|split].
  - unfold listed_already in *. simpl. rewrite Hsplit in Hinv.
    apply Forall_app in Hinv as [Hpre Hpost].
    apply Forall_cons in Hpost as [_ Hpost].
    apply Forall_app. split; [done|]. apply Forall_app. split; [|done].
    destruct pr; simpl; by repeat constructor.
  - unfold calls_of in *. by rewrite calls_app, omap_app, Hcalls, app_nil_r.
  - apply lookup_lt_Some in Hi. clear Hsplit Hinv. revert Hi.
    unfold suspension. generalize (suspended σ) as L. intros L Hi.
    rewrite !length_app, length_take, length_drop.
    destruct pr; simpl; lia.
Qed.

Lemma step_listed_already strict σ σ' :
  step (cycle_of strict) σ σ' → listed_already σ → listed_already σ'.
Proof.
  assert (∀ σ, listed_already σ → listed_already (enter (cycle_of strict) σ))
    as Henter.
  { intros σ0 Hinv. unfold enter.
    destruct (in_flight (sched σ0)) eqn:Hbusy.
    - rewrite cycle_of_guarded, advance_guarded_unfold, Hbusy.
      unfold listed_already in *. simpl. by rewrite app_nil_r.
    - destruct (enter_lists_once strict (sched σ0) Hbusy) as (k & -> & Hk).
      unfold listed_already in *. simpl. apply Forall_app. split; [done|].
      by repeat constructor. }
  intros Hstep Hinv.
  destruct Hstep as [σ delay _|σ|σ i m args k c Hi|σ name l|σ];
    [by apply Henter|by apply Henter| |done|done].
  assert (listless (k c)) as Hk.
  { unfold listed_already in Hinv. rewrite Forall_forall in Hinv.
    apply (Hinv (m, args, k)). by eapply list_elem_of_lookup_2. }
  destruct (advance_listless (k c) (sched σ) Hk) as (_ & _ & Hsusp).
  unfold resume, listed_already in *.
  destruct (advance (k c) (sched σ)) as [[s' tr] pr]. simpl in *.
  rewrite <-(take_drop_middle (suspended σ) i (m, args, k)) in Hinv by done.
  apply Forall_app in Hinv as [Hpre Hpost].
  apply Forall_cons in Hpost as [_ Hpost].
  apply Forall_app. split; [done|]. apply Forall_app. split; [|done].
  destruct pr; simpl; by repeat constructor.
Qed.

Lemma steps_listed_already strict σ σ' :
  rtc (step (cycle_of strict)) σ σ' → listed_already σ → listed_already σ'.
Proof.
  intros Hsteps. induction Hsteps as [σ1|σ1 σ2 σ3 Hstep _ IH]; [done|].
  intros Hinv. apply IH. by apply (step_listed_already strict σ1).
Qed.

Lemma reachable_listed_already strict s σ :
  rtc (step (cycle_of strict)) (fresh s) σ → listed_already σ.
Proof.
  intros Hsteps. apply (steps_listed_already strict (fresh s)); [done|].
  constructor.
Qed.

Lemma timer_steps_after_destroy strict σ σ' :
  rtc (timer_step (cycle_of strict)) σ σ' →
  interval (sched σ) = None → listed_already σ →
  interval (sched σ') = None
  ∧ calls_of op_list (history σ') = calls_of op_list (history σ)
  ∧ (length (suspended σ') ≤ length (suspended σ))%nat.
Proof.
  intros Hsteps. induction Hsteps as [σ1|σ1 σ2 σ3 Hstep _ IH]; [done|].
  intros Hnone Hlisted.
  destruct (enter_after_destroy strict σ1 Hnone Hlisted σ2 Hstep)
    as (Hnone' & Hlisted' & Hcalls & Hlen).
  destruct (IH Hnone' Hlisted') as (? & ? & ?).
  split; [done|]. split; [congruence | lia].
Qed.



(** ** The constructors of the two backends *)

Lemma S3_super_options_other given key :
  ¬ S3_written key → get (S3_super_options given) key = get given key.
Proof.
  intros Hkey. unfold S3_super_options, get.
  rewrite !lookup_insert.
  repeat (case_decide;
          [exfalso; apply Hkey; unfold S3_written, credential_key; subst; tauto|]).
  by destruct given.
Qed.

Lemma S3_super_options_accepted given :
  accepted (S3_super_options given)
  ↔ at_least_one (get given "interval") ∧ at_least_one (get given "limit").
Proof.
  assert (∀ key, key = "interval" ∨ key = "limit" → ¬ S3_written key) as Hkey.
  { intros key Hkey Hwritten. unfold S3_written, credential_key in Hwritten.
    destruct Hkey as [-> | ->]; intuition discriminate. }
  unfold accepted.
  rewrite (S3_super_options_other given "interval") by (apply Hkey; auto).
  rewrite (S3_super_options_other given "limit") by (apply Hkey; auto).
  split; [tauto|]. intros [? ?]. split; [by eexists|].
  repeat split; try done;
    unfold S3_super_options, get; rewrite !lookup_insert;
    repeat case_decide; done.
Qed.

(** X10.  The S3 constructor succeeds exactly on an object whose [bucket],
    [accessKeyId], [secretAccessKey] and [region] are non-empty strings,
    whose [name] and [prepare] are functions and whose [interval] and
    [limit] are numbers not below 1: [list], [create] and [delete] need not
    be given.  On success [options] holds the scheduler's own three
    functions whatever was given under these keys, every key the constructor
    does not write is handed on, and the bucket and the credentials as given
    go to the [bucket] field and to the client. *)
Theorem S3_constructor_accepts given :
  (is_Normal (new_S3BackupScheduler given)
   ↔ (∃ properties, given = Object properties)
     ∧ nonempty_string (get given "bucket")
     ∧ nonempty_string (get given "accessKeyId")
     ∧ nonempty_string (get given "secretAccessKey")
     ∧ nonempty_string (get given "region")
     ∧ callable (get given "name")
     ∧ callable (get given "prepare")
     ∧ at_least_one (get given "interval")
     ∧ at_least_one (get given "limit"))
  ∧ (∀ s3, new_S3BackupScheduler given = Normal s3 →
       get (options (S3_super s3)) "list" = list_override
       ∧ get (options (S3_super s3)) "create" = create_override
       ∧ get (options (S3_super s3)) "delete" = delete_override
       ∧ (∀ key, ¬ S3_written key →
                 get (options (S3_super s3)) key = get given key)
       ∧ S3_name s3 = get given "name"
       ∧ S3_prepare s3 = get given "prepare"
       ∧ S3_bucket s3 = get given "bucket"
       ∧ region (S3_client s3) = get given "region"
       ∧ credentials_accessKeyId (S3_client s3) = get given "accessKeyId"
       ∧ credentials_secretAccessKey (S3_client s3)
         = get given "secretAccessKey").
Proof.
  split.
  - unfold new_S3BackupScheduler, nonempty_string.
    destruct (arg_not given || arg_typeof_isnt given "object") eqn:Hobj.
    { split; [by intros [? ?]|]. intros ([properties ->] & _). done. }
    repeat match goal with
    | |- context [if not_ ?v || typeof_isnt ?v "string" then _ else _] =>
        let H := fresh "H" in
        destruct (not_ v || typeof_isnt v "string") eqn:H;
          [split; [by intros [? ?]|];
           intros (_ & ? & ? & ? & ? & _);
           assert (not_ v || typeof_isnt v "string" = false)
             by (by apply string_test);
           congruence
          |apply string_test in H]
    | |- context [if not_ ?v || typeof_isnt ?v "function" then _ else _] =>
        let H := fresh "H" in
        destruct (not_ v || typeof_isnt v "function") eqn:H;
          [split; [by intros [? ?]|];
           intros (_ & _ & _ & _ & _ & ? & ? & _);
           assert (not_ v || typeof_isnt v "function" = false)
             by (by apply function_test);
           congruence
          |apply function_test in H]
    end.
    destruct (new_BackupScheduler (S3_super_options given)) as [base|e] eqn:Hbase.
    + apply new_BackupScheduler_Normal in Hbase as [Hacc _].
      apply S3_super_options_accepted in Hacc as [? ?].
      split; [|by eexists]. intros _.
      split; [by destruct given; [eexists|]|]. done.
    + split; [by intros [? ?]|].
      intros (_ & _ & _ & _ & _ & _ & _ & ? & ?).
      assert (accepted (S3_super_options given)) as Hacc
        by (by apply S3_super_options_accepted).
      assert (is_Normal (new_BackupScheduler (S3_super_options given))) as [? ?]
        by (eexists; by apply new_BackupScheduler_Normal).
      congruence.
  - intros s3 H.
    pose proof (new_S3BackupScheduler_options given s3 H) as Hopts.
    rewrite Hopts.
    split; [by unfold S3_super_options, get; rewrite lookup_insert_ne,
              lookup_insert_ne, lookup_insert_eq|].
    split; [by unfold S3_super_options, get; rewrite lookup_insert_ne,
              lookup_insert_eq|].
    split; [by unfold S3_super_options, get; rewrite lookup_insert_eq|].
    split; [apply S3_super_options_other|].
    revert H. unfold new_S3BackupScheduler.
    repeat match goal with
           | |- (if ?c then _ else _) = _ → _ => destruct c; [done|]
           end.
    destruct (new_BackupScheduler (S3_super_options given)); [|done].
    by intros [= <-].
Qed.

Lemma S3_constructor_accepts_witness :
  is_Normal (new_S3BackupScheduler
               (S3_sample_options "eu-west-1" "vault" "AKIA1" "s3cr3t"))
  ∧ credentials_secretAccessKey
      (S3_client (S3_sample "eu-west-1" "vault" "AKIA1" "s3cr3t"))
    = VString "s3cr3t".
Proof.
  destruct (S3_constructor_accepts
              (S3_sample_options "eu-west-1" "vault" "AKIA1" "s3cr3t"))
    as [Hiff Hfields].
  split.
  - apply Hiff. split; [by eexists|].
    repeat split; try (by eexists); try done.
  - apply (Hfields (S3_sample "eu-west-1" "vault" "AKIA1" "s3cr3t")).
    vm_compute. reflexivity.
Defined.

Lemma Disk_super_options_other given key :
  key ≠ "list" → key ≠ "create" → key ≠ "delete" →
  get (Disk_super_options given) key = get given key.
Proof.
  intros ? ? ?. unfold Disk_super_options, get.
  rewrite !lookup_insert. repeat (case_decide; [congruence|]).
  by destruct given.
Qed.

Lemma Disk_super_options_accepted given :
  accepted (Disk_super_options given)
  ↔ at_least_one (get given "interval") ∧ at_least_one (get given "limit").
Proof.
  unfold accepted.
  rewrite (Disk_super_options_other given "interval") by done.
  rewrite (Disk_super_options_other given "limit") by done.
  split; [tauto|]. intros [? ?]. split; [by eexists|].
  repeat split; try done;
    unfold Disk_super_options, get; rewrite !lookup_insert;
    repeat case_decide; done.
Qed.

(** X11.  The disk constructor returns exactly on an object whose [path]
    is a non-empty string, whose [name] and [prepare] are functions and
    whose [interval] and [limit] are numbers not below 1, when
    [FileSystem.access] takes the path and [path.resolve] resolves it.  It
    has asked the file system for the directory, with the path as given,
    exactly when its own four checks passed and [FileSystem.access] took the
    path: also when the constructor of the core then throws for the interval
    or the limit.  On a return [options] holds the scheduler's own three
    functions whatever was given under these keys, every other key is handed
    on, and [path] holds the resolved path. *)
Theorem Disk_constructor_accepts access resolve given :
  let own :=
    (∃ properties, given = Object properties)
    ∧ callable (get given "name")
    ∧ callable (get given "prepare")
    ∧ ∃ p, get given "path" = VString p ∧ p ≠ EmptyString
           ∧ is_Normal (access p) in
  let made := new_DiskBackupScheduler access resolve given in
  (is_Normal made.2
   ↔ own
     ∧ (∃ p, get given "path" = VString p ∧ is_Normal (resolve p))
     ∧ at_least_one (get given "interval")
     ∧ at_least_one (get given "limit"))
  ∧ (own → made.1 = [FileSystem_access (get given "path")])
  ∧ (¬ own → made.1 = [] ∧ ¬ is_Normal made.2)
  ∧ (∀ disk, made.2 = Normal disk →
       get (options (Disk_super disk)) "list" = list_override
       ∧ get (options (Disk_super disk)) "create" = create_override
       ∧ get (options (Disk_super disk)) "delete" = delete_override
       ∧ (∀ key, key ≠ "list" → key ≠ "create" → key ≠ "delete" →
                 get (options (Disk_super disk)) key = get given key)
       ∧ Disk_name disk = get given "name"
       ∧ Disk_prepare disk = get given "prepare"
       ∧ ∃ p resolved, get given "path" = VString p
                       ∧ resolve p = Normal resolved
                       ∧ Disk_path disk = VString resolved).
Proof.
  intros own made. subst own made.
  unfold new_DiskBackupScheduler.
  destruct (arg_not given || arg_typeof_isnt given "object") eqn:Hobj.
  { assert (¬ ∃ properties, given = Object properties) as Hno.
    { intros [properties ->]. done. }
    simpl. split; [split; [by intros [? ?]|tauto]|].
    split; [tauto|]. split; [|done]. intros _. split; [done|]. by intros [? ?]. }
  destruct (not_ (get given "path") || typeof_isnt (get given "path") "string")
    eqn:Hpath.
  { assert (¬ ∃ p, get given "path" = VString p ∧ p ≠ EmptyString
                   ∧ is_Normal (access p)) as Hno.
    { intros (p & Hp & Hne & _).
      assert (not_ (get given "path")
              || typeof_isnt (get given "path") "string" = false)
        by (apply string_test; by exists p).
      congruence. }
    simpl. split; [split; [by intros [? ?]|tauto]|].
    split; [tauto|]. split; [|done]. intros _. split; [done|]. by intros [? ?]. }
  apply string_test in Hpath.
  assert (∃ properties, given = Object properties) as Hgiven.
  { destruct given; [by eexists|]. by destruct Hpath as (? & ? & ?). }
  destruct (not_ (get given "name") || typeof_isnt (get given "name") "function")
    eqn:Hname.
  { assert (¬ callable (get given "name")) as Hno.
    { intros H%function_test. congruence. }
    simpl. split; [split; [by intros [? ?]|tauto]|].
    split; [tauto|]. split; [|done]. intros _. split; [done|]. by intros [? ?]. }
  apply function_test in Hname.
  destruct (not_ (get given "prepare")
            || typeof_isnt (get given "prepare") "function") eqn:Hprepare.
  { assert (¬ callable (get given "prepare")) as Hno.
    { intros H%function_test. congruence. }
    simpl. split; [split; [by intros [? ?]|tauto]|].
    split; [tauto|]. split; [|done]. intros _. split; [done|]. by intros [? ?]. }
  apply function_test in Hprepare.
  destruct Hpath as (p & Hp & Hne). rewrite Hp. simpl.
  destruct (access p) as [[]|denied] eqn:Haccess; simpl.
  2:{ assert (¬ ∃ p', VString p = VString p' ∧ p' ≠ EmptyString
                      ∧ is_Normal (access p')) as Hno.
      { intros (p' & [= <-] & _ & [? ?]). congruence. }
      split; [split; [by intros [? ?]|tauto]|].
      split; [tauto|]. split; [|done]. intros _. split; [done|]. by intros [? ?]. }
  assert (∃ p', VString p = VString p' ∧ p' ≠ EmptyString
                ∧ is_Normal (access p')) as Haccessed.
  { exists p. split; [done|]. split; [done|]. rewrite Haccess. by eexists. }
  destruct (new_BackupScheduler (Disk_super_options given)) as [base|e] eqn:Hbase;
    simpl.
  - apply new_BackupScheduler_Normal in Hbase as [Hacc ->].
    pose proof Hacc as [? ?]%Disk_super_options_accepted.
    destruct (resolve p) as [resolved|e] eqn:Hresolve; simpl.
    + split; [split; [intros _|by eexists]|].
      { repeat split; try done. exists p. split; [done|]. rewrite Hresolve.
        by eexists. }
      split; [done|]. split; [tauto|].
      intros disk [= <-]. simpl.
      split; [by unfold Disk_super_options, get; rewrite lookup_insert_ne,
                lookup_insert_ne, lookup_insert_eq|].
      split; [by unfold Disk_super_options, get; rewrite lookup_insert_ne,
                lookup_insert_eq|].
      split; [by unfold Disk_super_options, get; rewrite lookup_insert_eq|].
      split; [apply Disk_super_options_other|].
      split; [done|]. split; [done|]. by exists p, resolved.
    + split; [split; [by intros [? ?]|]|].
      { intros (_ & (p' & [= <-] & [? ?]) & _). congruence. }
      split; [done|]. split; [tauto|]. done.
  - split; [split; [by intros [? ?]|]|].
    { intros (_ & _ & ? & ?).
      assert (is_Normal (new_BackupScheduler (Disk_super_options given)))
        as [? ?].
      { eexists. apply new_BackupScheduler_Normal. split; [|done].
        by apply Disk_super_options_accepted. }
      congruence. }
    split; [done|]. split; [tauto|]. done.
Qed.

Lemma Disk_constructor_accepts_witness :
  (new_DiskBackupScheduler (λ _, Normal tt) (λ p, Normal ("/srv/" +:+ p))
     (Object (<["interval" := VNumber (num 0)]> (spread Disk_sample_options)))).1
  = [FileSystem_access (VString "./backups")].
Proof.
  pose proof (Disk_constructor_accepts (λ _, Normal tt)
                (λ p, Normal ("/srv/" +:+ p))
                (Object (<["interval" := VNumber (num 0)]>
                           (spread Disk_sample_options)))) as H.
  cbv zeta in H. destruct H as (_ & H & _). apply H.
  split; [by eexists|]. split; [done|]. split; [done|].
  exists "./backups". split; [done|]. split; [done|]. by eexists.
Defined.



(** ** The disk backend: [list] *)

Lemma Disk_time_or_else file :
  or_else (or_else (VNumber (birthtimeMs file)) (VNumber (mtimeMs file)))
          (VNumber (ctimeMs file))
  = VNumber (Disk_time file).
Proof.
  unfold or_else, Disk_time; simpl.
  destruct (num_truthy (birthtimeMs file)) eqn:Hbirth; simpl.
  - by rewrite Hbirth.
  - by destruct (num_truthy (mtimeMs file)) eqn:Hm; simpl; rewrite ?Hm.
Qed.

Lemma Disk_backup_Normal file b :
  new_Backup (VString (name file))
    (or_else (or_else (VNumber (birthtimeMs file)) (VNumber (mtimeMs file)))
             (VNumber (ctimeMs file)))
  = Normal b
  ↔ Disk_valid file ∧ VBackup b = Disk_backup file.
Proof.
  rewrite Disk_time_or_else, new_Backup_Normal.
  unfold Disk_valid, Disk_backup. destruct b as [id created_at]; simpl. split.
  - intros ([= ->] & ? & [= ->] & ?). done.
  - intros ([? ?] & [= -> ->]). done.
Qed.

Lemma Disk_backups_Normal files backups :
  Disk_backups files = Normal backups
  ↔ Forall Disk_valid (filter (λ file, isFile file = true) files)
    ∧ backups = Disk_backup <$> filter (λ file, isFile file = true) files.
Proof.
  revert backups. induction files as [|file files IH]; intros backups.
  { simpl. split; [by intros [= <-]|by intros [_ ->]]. }
  simpl. destruct (isFile file) eqn:Hfile; simpl.
  - rewrite filter_cons_True by done. rewrite Forall_cons. simpl.
    destruct (new_Backup _ _) as [b|e] eqn:Hb; simpl.
    + apply Disk_backup_Normal in Hb as [Hvalid Hb].
      destruct (Disk_backups files) as [rest|e] eqn:Hrest; simpl.
      * destruct (IH rest) as [[Hall ->] _]; [done|].
        rewrite Hb. split; [by intros [= <-]|by intros [_ ->]].
      * split; [done|]. intros [[_ Hall] _].
        destruct (IH (Disk_backup <$> filter (λ file, isFile file = true) files))
          as [_ H].
        by specialize (H (conj Hall eq_refl)).
    + split; [done|]. intros [[Hvalid _] _].
      assert (is_Normal (new_Backup (VString (name file))
                (or_else (or_else (VNumber (birthtimeMs file))
                                  (VNumber (mtimeMs file)))
                         (VNumber (ctimeMs file))))) as [b' Hb'].
      { destruct (Disk_backup_Normal file
                    (Backup.make (name file) (Disk_time file))) as [_ H].
        eexists. by apply H. }
      congruence.
  - rewrite filter_cons_False by (by rewrite Hfile). apply IH.
Qed.

Lemma Disk_backup_constructed file :
  Disk_valid file → constructed_value (Disk_backup file).
Proof.
  intros Hvalid. eexists. split; [done|].
  exists (VString (name file)), (VNumber (Disk_time file)).
  apply new_Backup_Normal. by destruct Hvalid.
Qed.

Lemma rejected_list_Backups l :
  Forall (λ v, instanceof_Backup v = true) l → rejected_list (VArray l) = false.
Proof.
  intros Hall. unfold rejected_list. simpl.
  apply Array_find_not_Backup. by left.
Qed.

Lemma num_lt_count (a b : Z) n :
  a ≤ b → num_lt (num b) n = true → num_lt (num a) n = true.
Proof.
  intros Hab. destruct n as [| | |x]; unfold num_lt, num; try done.
  rewrite !bool_decide_eq_true. intros Hlt.
  apply Z2Qc_inj_le in Hab.
  by apply Qcle_lt_trans with (Qc_of_Z b).
Qed.

(** X13.  Given a number as its limit, the disk backend's [list] answers
    [false] exactly when the directory has fewer entries than the limit,
    directories counted.  It then holds fewer files than the limit, and
    under a whole limit the retention step of the core would not have
    deleted anything from the full listing either. *)
Theorem Disk_list_short_circuit files limit :
  let regular := filter (λ file, isFile file = true) files in
  (DiskBackupScheduler_list files (VNumber limit) = Normal (VBoolean false)
   ↔ num_lt (num (Z.of_nat (length files))) limit = true)
  ∧ (DiskBackupScheduler_list files (VNumber limit) = Normal (VBoolean false) →
     num_lt (num (Z.of_nat (length regular))) limit = true
     ∧ ∀ (z : Z) backups sorted,
         limit = num z →
         Disk_backups files = Normal backups →
         sorted ≡ₚ backups →
         num_lt (num 0) (overflow_of sorted (VNumber limit)) = false).
Proof.
  intros regular.
  assert (DiskBackupScheduler_list files (VNumber limit) = Normal (VBoolean false)
          ↔ num_lt (num (Z.of_nat (length files))) limit = true) as Hiff.
  { unfold DiskBackupScheduler_list; simpl.
    destruct (num_lt (num (Z.of_nat (length files))) limit); [done|].
    split; [|done]. by destruct (Disk_backups files). }
  split; [done|]. intros Hfalse%Hiff.
  assert (length regular ≤ length files)%nat as Hlen
    by apply length_filter.
  split.
  - apply num_lt_count with (Z.of_nat (length files)); [lia|done].
  - intros z backups sorted -> [_ ->]%Disk_backups_Normal Hsorted.
    rewrite num_lt_num in Hfalse. apply bool_decide_eq_true in Hfalse.
    unfold overflow_of. simpl ToNumber.
    rewrite num_sub_num, num_add_num, num_lt_num.
    apply bool_decide_eq_false.
    rewrite (Permutation_length Hsorted), length_fmap. fold regular. lia.
Qed.

Lemma Disk_list_short_circuit_witness :
  num_lt (num (Z.of_nat (length (filter (λ file, isFile file = true)
                                        sample_directory)))) (num 7) = true.
Proof.
  apply (Disk_list_short_circuit sample_directory (num 7)).
  reflexivity.
Defined.

(** X14.  When it does not answer [false], the disk backend's [list]
    returns exactly when every file of the directory has a non-empty name and
    a time that is a number not below 1, where the time of a file is its
    birth time unless that is zero, then its modification time unless that is
    zero, then its change time.  It then answers one [Backup] for each file,
    directories left out, in the order of the directory, with the name as id:
    an array of constructed backups, which passes the validation of the
    core. *)
Theorem Disk_list_backups files (limit : option number) listed :
  let regular := filter (λ file, isFile file = true) files in
  num_lt (num (Z.of_nat (length files))) (ToNumber (optional VNumber limit))
  = false →
  (DiskBackupScheduler_list files (optional VNumber limit) = Normal listed
   ↔ Forall Disk_valid regular ∧ listed = VArray (Disk_backup <$> regular))
  ∧ (Forall Disk_valid regular →
     Forall constructed_value (Disk_backup <$> regular)
     ∧ rejected_list (VArray (Disk_backup <$> regular)) = false
     ∧ omap time_of (Disk_backup <$> regular) = Disk_time <$> regular).
Proof.
  intros regular Hfull. split.
  - unfold DiskBackupScheduler_list. rewrite Hfull.
    destruct (Disk_backups files) as [backups|e] eqn:Hbackups; simpl.
    + apply Disk_backups_Normal in Hbackups as [Hall ->]. fold regular.
      split; [by intros [= <-]|by intros [_ ->]].
    + split; [done|]. intros [Hall _].
      destruct (Disk_backups_Normal files (Disk_backup <$> regular)) as [_ H].
      rewrite H in Hbackups; done.
  - intros Hall. split; [|split].
    + apply Forall_fmap. eapply Forall_impl; [exact Hall|].
      apply Disk_backup_constructed.
    + apply rejected_list_Backups. apply Forall_fmap.
      by apply Forall_true.
    + clear Hall. induction regular as [|file rest IH]; [done|].
      rewrite !fmap_cons. simpl. f_equal. exact IH.
Qed.

Lemma Disk_list_backups_witness :
  DiskBackupScheduler_list sample_directory VUndefined
  = Normal (VArray [backup_at "monday.sql" 1000; backup_at "tuesday.sql" 2000]).
Proof.
  apply (Disk_list_backups sample_directory None); [reflexivity|].
  split; [|reflexivity].
  repeat constructor; done.
Defined.

(** ** The S3 backend: [list] *)

Lemma S3_backups_Normal files backups :
  S3_backups files = Normal backups
  ↔ Forall S3_valid files ∧ backups = S3_backup <$> files.
Proof.
  revert backups. induction files as [|file files IH]; intros backups.
  { simpl. split; [by intros [= <-]|by intros [_ ->]]. }
  rewrite Forall_cons, fmap_cons. simpl.
  destruct (LastModified file) as [t|] eqn:Ht; simpl.
  - destruct (new_Backup (optional VString (Key file)) (VNumber t))
      as [b|e] eqn:Hb; simpl.
    + apply new_Backup_Normal in Hb as (Hkey & Hne & [= Hcreated] & Hone).
      assert (S3_valid file ∧ VBackup b = S3_backup file) as [Hvalid Hbackup].
      { unfold S3_valid, S3_backup. rewrite Ht.
        destruct (Key file) as [key|]; [|done]. simpl in *.
        injection Hkey as ->. subst t. split; [|by destruct b].
        by exists (Backup.id b), (Backup.created_at b). }
      destruct (S3_backups files) as [rest|e] eqn:Hrest; simpl.
      * destruct (IH rest) as [[Hall ->] _]; [done|]. rewrite Hbackup.
        split; [by intros [= <-]|by intros [_ ->]].
      * split; [done|]. intros [[_ Hall] _].
        destruct (IH (S3_backup <$> files)) as [_ H].
        by specialize (H (conj Hall eq_refl)).
    + split; [done|]. intros [[(key & t' & Hkey & Hne & Ht' & Hone) _] _].
      rewrite Hkey in Hb. simpl in Hb.
      assert (t' = t) as -> by congruence.
      assert (is_Normal (new_Backup (VString key) (VNumber t))) as [b' Hb'].
      { exists (Backup.make key t). by apply new_Backup_Normal. }
      congruence.
  - split; [done|]. intros [[(key & t' & _ & _ & Ht' & _) _] _]. congruence.
Qed.

Lemma S3_backup_constructed file :
  S3_valid file → constructed_value (S3_backup file).
Proof.
  intros (key & t & Hkey & Hne & Ht & Hone). eexists. split; [done|].
  exists (VString key), (VNumber t). apply new_Backup_Normal.
  by rewrite Hkey, Ht.
Qed.

Lemma S3_more_token response :
  ToBoolean (S3_more response) = true →
  ToBoolean (optional VString (NextContinuationToken response)) = true.
Proof.
  unfold S3_more, or_else, and_then.
  destruct (IsTruncated response) as [[|]|]; simpl; try done.
  by destruct (ToBoolean (optional VString (NextContinuationToken response))).
Qed.

Lemma S3_list_unfold requests client limit token response :
  client token = Normal response →
  S3BackupScheduler_list (S requests) client limit token
  = if not_ (S3_more response) && not_ token
       && num_lt (ToNumber (S3_count response)) (ToNumber limit) then
      Some (Normal (VBoolean false))
    else
      match S3_backups (default [] (Contents response)) with
      | Throw e => Some (Throw e)
      | Normal backups =>
          if ToBoolean (S3_more response) then
            match S3BackupScheduler_list requests client limit
                    (optional VString (NextContinuationToken response)) with
            | None => None
            | Some (Throw e) => Some (Throw e)
            | Some (Normal more_backups) =>
                if ToBoolean more_backups then
                  Some (Normal (VArray (backups ++ elements_of more_backups)))
                else Some (Normal (VArray backups))
            end
          else Some (Normal (VArray backups))
      end.
Proof. intros H. simpl. by rewrite H. Qed.

Lemma serves_nonempty client token pages :
  serves client token pages → (0 < length pages)%nat.
Proof. destruct 1; simpl; lia. Qed.

Lemma S3_objects_valid pages :
  Forall (Forall S3_valid) pages → Forall S3_valid (concat pages).
Proof.
  induction 1 as [|page pages Hpage _ IH]; [done|].
  simpl. by apply Forall_app.
Qed.

Lemma S3_list_continues requests client limit token response :
  client token = Normal response →
  ToBoolean (S3_more response) = true →
  Forall S3_valid (default [] (Contents response)) →
  S3BackupScheduler_list (S requests) client limit token
  = match S3BackupScheduler_list requests client limit
            (optional VString (NextContinuationToken response)) with
    | None => None
    | Some (Throw e) => Some (Throw e)
    | Some (Normal more_backups) =>
        if ToBoolean more_backups then
          Some (Normal (VArray ((S3_backup <$> default [] (Contents response))
                                ++ elements_of more_backups)))
        else Some (Normal (VArray (S3_backup <$> default [] (Contents response))))
    end.
Proof.
  intros Hclient Hmore Hvalid.
  rewrite (S3_list_unfold _ _ _ _ _ Hclient).
  replace (not_ (S3_more response)) with false by (unfold not_; by rewrite Hmore).
  destruct (S3_backups_Normal (default [] (Contents response))
              (S3_backup <$> default [] (Contents response))) as [_ ->]; [|done].
  by rewrite Hmore.
Qed.

Lemma S3_list_few_requests client limit token pages requests :
  serves client token pages →
  Forall (Forall S3_valid) pages →
  (requests < length pages)%nat →
  S3BackupScheduler_list requests client limit token = None.
Proof.
  intros Hserves. revert requests.
  induction Hserves as [token response Hclient Hmore
                       |token response pages Hclient Hmore Hrest IH];
    intros requests Hvalid Hfuel; simpl in Hfuel.
  - by replace requests with 0%nat by lia.
  - apply Forall_cons in Hvalid as [Hvalid Hvalid'].
    destruct requests as [|requests]; [done|].
    rewrite (S3_list_continues _ _ _ _ _ Hclient Hmore Hvalid).
    rewrite IH; [done|done|lia].
Qed.

Lemma S3_list_by_pages client limit token pages requests :
  serves client token pages →
  Forall (Forall S3_valid) pages →
  (length pages ≤ requests)%nat →
  ToBoolean token = true ∨ limit = VUndefined ∨ (1 < length pages)%nat →
  S3BackupScheduler_list requests client limit token
  = Some (Normal (VArray (S3_backup <$> concat pages))).
Proof.
  intros Hserves. revert requests.
  induction Hserves as [token response Hclient Hmore
                       |token response pages Hclient Hmore Hrest IH];
    intros requests Hvalid Hfuel Hfull; simpl in Hfuel;
    apply Forall_cons in Hvalid as [Hvalid Hvalid'];
    (destruct requests as [|requests]; [lia|]).
  - simpl concat. rewrite app_nil_r.
    rewrite (S3_list_unfold _ _ _ _ _ Hclient).
    replace (not_ (S3_more response) && not_ token
             && num_lt (ToNumber (S3_count response)) (ToNumber limit))
      with false.
    2:{ destruct Hfull as [Htoken | [-> | ?]]; [| |simpl in *; lia].
        - unfold not_ at 2. rewrite Htoken. simpl. by rewrite andb_false_r.
        - replace (num_lt _ (ToNumber VUndefined)) with false.
          + by rewrite andb_false_r.
          + by destruct (ToNumber (S3_count response)). }
    destruct (S3_backups_Normal (default [] (Contents response))
                (S3_backup <$> default [] (Contents response))) as [_ ->];
      [|done].
    by rewrite Hmore.
  - rewrite (S3_list_continues _ _ _ _ _ Hclient Hmore Hvalid).
    rewrite (IH requests Hvalid'); [|lia|left; by apply S3_more_token].
    simpl. by rewrite fmap_app.
Qed.

(** X15.  Against a service that holds valid objects in pages, the S3
    backend's [list] makes one request for each page and no more, and, when
    it is not asked for a single page under a limit (it continues a listing,
    or has no limit, as when the core calls it, or there are more pages),
    answers the backups of all the pages in the order of the service, one for
    each object with the key as id: an array of constructed backups, which
    passes the validation of the core. *)
Theorem S3_list_pages client limit token pages requests :
  serves client token pages →
  Forall (Forall S3_valid) pages →
  ((requests < length pages)%nat →
   S3BackupScheduler_list requests client limit token = None)
  ∧ ((length pages ≤ requests)%nat →
     ToBoolean token = true ∨ limit = VUndefined ∨ (1 < length pages)%nat →
     S3BackupScheduler_list requests client limit token
     = Some (Normal (VArray (S3_backup <$> concat pages)))
     ∧ Forall constructed_value (S3_backup <$> concat pages)
     ∧ rejected_list (VArray (S3_backup <$> concat pages)) = false).
Proof.
  intros Hserves Hvalid. split.
  - by apply S3_list_few_requests.
  - intros Hfuel Hfull. split; [by apply S3_list_by_pages|].
    pose proof (S3_objects_valid pages Hvalid) as Hobjects.
    split.
    + apply Forall_fmap. eapply Forall_impl; [exact Hobjects|].
      apply S3_backup_constructed.
    + apply rejected_list_Backups, Forall_fmap. by apply Forall_true.
Qed.

Lemma S3_list_pages_witness :
  S3_options_list 2 sample_client []
  = Some (Normal (VArray [backup_at "a" 100; backup_at "b" 200;
                          backup_at "c" 300]))
  ∧ S3_options_list 1 sample_client [] = None.
Proof.
  assert (serves sample_client VUndefined sample_pages) as Hserves.
  { apply (serves_more sample_client VUndefined
             (mkListObjectsV2Output (Some (num 2))
                (Some [mkS3Object (Some "a") (Some (num 100));
                       mkS3Object (Some "b") (Some (num 200))])
                (Some true) (Some "page2")) [_]); [done|done|].
    apply (serves_last sample_client (VString "page2")
             (mkListObjectsV2Output (Some (num 1))
                (Some [mkS3Object (Some "c") (Some (num 300))])
                (Some false) None)); done. }
  assert (Forall (Forall S3_valid) sample_pages) as Hvalid.
  { repeat constructor; eexists _, _; done. }
  split.
  - apply (S3_list_pages sample_client VUndefined VUndefined sample_pages 2
             Hserves Hvalid); [simpl; lia|by right; left].
  - apply (S3_list_pages sample_client VUndefined VUndefined sample_pages 1
             Hserves Hvalid). simpl; lia.
Defined.

(** X16.  Whatever the service answers, the S3 backend's [list] returns
    [false] or an array of constructed backups, which passes the validation
    of the core.  It returns [false] only to a first request, when the
    service has nothing more and has counted fewer keys than the limit: never
    from a continuation, and never without a limit, so that behind the
    override the constructor installs it never answers [false]. *)
Theorem S3_list_answers requests client (limit : option number) token listed :
  (S3BackupScheduler_list requests client (optional VNumber limit) token
   = Some (Normal listed) →
   (listed = VBoolean false
    ∧ ToBoolean token = false
    ∧ ∃ n response,
        limit = Some n ∧ client token = Normal response
        ∧ ToBoolean (S3_more response) = false
        ∧ num_lt (ToNumber (S3_count response)) n = true)
   ∨ (∃ backups, listed = VArray backups
                 ∧ Forall constructed_value backups
                 ∧ rejected_list listed = false))
  ∧ ∀ args, S3_options_list requests client args
            ≠ Some (Normal (VBoolean false)).
Proof.
  assert (∀ requests (limit : option number) token listed,
            S3BackupScheduler_list requests client (optional VNumber limit) token
            = Some (Normal listed) →
            (listed = VBoolean false
             ∧ ToBoolean token = false
             ∧ ∃ n response,
                 limit = Some n ∧ client token = Normal response
                 ∧ ToBoolean (S3_more response) = false
                 ∧ num_lt (ToNumber (S3_count response)) n = true)
            ∨ (∃ backups, listed = VArray backups
                          ∧ Forall constructed_value backups
                          ∧ rejected_list listed = false)) as Hshape.
  { clear. intros requests limit.
    induction requests as [|requests IH]; intros token listed; [done|].
    destruct (client token) as [response|e] eqn:Hclient;
      [|by simpl; rewrite Hclient].
    rewrite (S3_list_unfold _ _ _ _ _ Hclient).
    destruct (not_ (S3_more response) && not_ token
              && num_lt (ToNumber (S3_count response))
                        (ToNumber (optional VNumber limit))) eqn:Hshort.
    { intros [= <-]. left.
      apply andb_true_iff in Hshort as [[Hmore Htoken]%andb_true_iff Hlt].
      apply negb_true_iff in Hmore, Htoken.
      split; [done|]. split; [done|].
      destruct limit as [n|]; [by exists n, response|].
      by destruct (ToNumber (S3_count response)). }
    destruct (S3_backups (default [] (Contents response)))
      as [backups|e] eqn:Hbackups; [|done].
    apply S3_backups_Normal in Hbackups as [Hvalid ->].
    assert (Forall constructed_value
              (S3_backup <$> default [] (Contents response))) as Hhere.
    { apply Forall_fmap. eapply Forall_impl; [exact Hvalid|].
      apply S3_backup_constructed. }
    assert (∀ l, Forall constructed_value l → rejected_list (VArray l) = false)
      as Hpass.
    { intros l Hl. apply rejected_list_Backups.
      eapply Forall_impl; [exact Hl|]. by intros v (b & -> & _). }
    destruct (ToBoolean (S3_more response)).
    - destruct (S3BackupScheduler_list requests client (optional VNumber limit)
                  (optional VString (NextContinuationToken response)))
        as [[more_backups|e]|] eqn:Hmore; [|done|done].
      apply IH in Hmore as [(-> & _) | (l & -> & Hl & _)]; simpl.
      + intros [= <-]. right. eexists. eauto.
      + intros [= <-]. right. eexists. split; [done|].
        assert (Forall constructed_value
                  ((S3_backup <$> default [] (Contents response)) ++ l))
          by (by apply Forall_app).
        eauto.
    - intros [= <-]. right. eexists. eauto. }
  split; [exact (Hshape _ _ _ _)|].
  intros args Hfalse. unfold S3_options_list in Hfalse.
  apply (Hshape requests None) in Hfalse
    as [(_ & _ & n & response & ? & _) | (backups & ? & _)]; done.
Qed.

Lemma S3_list_answers_witness :
  ToBoolean VUndefined = false
  ∧ ∀ args, S3_options_list 1 (λ _, sample_client (VString "page2")) args
            ≠ Some (Normal (VBoolean false)).
Proof.
  destruct (S3_list_answers 1 (λ _, sample_client (VString "page2"))
              (Some (num 7)) VUndefined (VBoolean false)) as [Hshape Hnever].
  split; [|exact Hnever].
  destruct (Hshape eq_refl) as [(_ & Htoken & _) | (backups & ? & _)];
    [exact Htoken|done].
Defined.

(** ** A cycle on top of a backend *)

Section Sources.
Context {A : Type} (backup_of : A → value) (time : A → number).
Context (valid : A → Prop).
Hypothesis backup_of_constructed :
  ∀ a, valid a → constructed_value (backup_of a).
Hypothesis backup_of_time : ∀ a, time_of (backup_of a) = Some (time a).

(** A successful cycle whose [list] answered the backups of [sources]:
    what it has called [delete] with, in terms of the sources. *)
Lemma cycle_over_sources {W : Type} (be : backend W) strict s w w1
    (sources : list A) (L : Z) :
  get (options s) "limit" = VNumber (num L) →
  1 ≤ L →
  Forall valid sources →
  invoke be op_list [] w = (Normal (VArray (backup_of <$> sources)), w1) →
  result_of (run be (cycle_of strict) s w) = Normal true →
  ∃ oldest kept,
    oldest ++ kept ≡ₚ sources
    ∧ Z.of_nat (length oldest) = Z.max 0 (Z.of_nat (length sources) - L + 1)
    ∧ (∀ d k, d ∈ oldest → k ∈ kept → num_lt (time k) (time d) = false)
    ∧ calls (trace_of (run be (cycle_of strict) s w))
      = [(op_list, []); (op_create, [])]
        ++ (if bool_decide (0 < Z.of_nat (length sources) - L + 1)
            then [(op_delete, [VArray (backup_of <$> oldest)])] else []).
Proof using backup_of_constructed backup_of_time.
  intros HL HL1 Hvalid Hlist Hres.
  pose proof (successful_cycle_free be strict s w Hres) as Hfree.
  assert (Forall timed (backup_of <$> sources)) as Htimed.
  { apply Forall_fmap. eapply Forall_impl; [exact Hvalid|].
    intros a Ha. by apply constructed_value_timed, backup_of_constructed. }
  destruct (successful_cycle_calls be (cycle_of strict) s w w1
              (backup_of <$> sources) L)
    as (sorted & Hsorted & Hcalls); try done.
  { apply cycle_of_variant. by exists strict. }
  destruct (Array_sort_timed _ Htimed) as (sorted' & Hsorted' & Hstable).
  assert (sorted' = sorted) as -> by congruence.
  destruct Hstable as (Hperm & Hasc & _).
  destruct (Permutation_map_inv backup_of sources Hperm)
    as (ordered & -> & Hordered).
  change (map backup_of ordered) with (backup_of <$> ordered) in *.
  assert (length ordered = length sources) as Hlen by (by rewrite Hordered).
  rewrite length_fmap, Hlen in Hcalls.
  set (n := Z.to_nat (Z.max 0 (Z.of_nat (length sources) - L + 1))).
  exists (take n ordered), (drop n ordered).
  split; [by rewrite take_drop|]. split; [rewrite length_take; lia|]. split.
  - intros d k Hd Hk.
    assert (not_after (backup_of d) (backup_of k))
      as (td & tk & Htd & Htk & _ & _ & Hle).
    { apply (StronglySorted_app_1_elem_of _ (backup_of <$> take n ordered)
               (backup_of <$> drop n ordered)).
      - by rewrite <-fmap_app, take_drop.
      - by apply list_elem_of_fmap_2.
      - by apply list_elem_of_fmap_2. }
    rewrite backup_of_time in Htd, Htk. by simplify_eq.
  - rewrite Hcalls. case_bool_decide; [|done].
    rewrite fmap_take. unfold n. by rewrite Z.max_r by lia.
Qed.
End Sources.

(** X17.  The disk backend under the core, from end to end.  A cycle that
    succeeds on a directory whose [N] files are valid, under a whole limit
    [L], asks [unlink] for exactly the [max(0, N - L + 1)] oldest files of
    the directory as it was listed, by their names under the path of the
    scheduler; directories are never touched, and no file unlinked is newer
    than a file that is kept. *)
Theorem disk_cycle_unlinks_oldest {W : Type} (be : backend W) strict s w w1
    files (L : Z) path :
  let regular := filter (λ file, isFile file = true) files in
  get (options s) "limit" = VNumber (num L) →
  1 ≤ L →
  Forall Disk_valid regular →
  invoke be op_list [] w = (Disk_options_list files [], w1) →
  result_of (run be (cycle_of strict) s w) = Normal true →
  ∃ oldest kept backups,
    oldest ++ kept ≡ₚ regular
    ∧ Z.of_nat (length oldest) = Z.max 0 (Z.of_nat (length regular) - L + 1)
    ∧ (∀ d k, d ∈ oldest → k ∈ kept →
              num_lt (Disk_time k) (Disk_time d) = false)
    ∧ calls (trace_of (run be (cycle_of strict) s w))
      = [(op_list, []); (op_create, [])]
        ++ (if bool_decide (0 < Z.of_nat (length regular) - L + 1)
            then [(op_delete, [VArray (VBackup <$> backups)])] else [])
    ∧ DiskBackupScheduler_delete path backups
      = (λ file, path +:+ "/" +:+ name file) <$> oldest.
Proof.
  intros regular HL HL1 Hvalid Hlist Hres.
  assert (Disk_options_list files []
          = Normal (VArray (Disk_backup <$> regular))) as Hlisted.
  { unfold Disk_options_list, DiskBackupScheduler_list.
    replace (num_lt _ (ToNumber VUndefined)) with false
      by (unfold num_lt, num; done).
    destruct (Disk_backups_Normal files (Disk_backup <$> regular))
      as [_ ->]; done. }
  rewrite Hlisted in Hlist.
  destruct (cycle_over_sources Disk_backup Disk_time Disk_valid
              Disk_backup_constructed (λ _, eq_refl)
              be strict s w w1 regular L HL HL1 Hvalid Hlist Hres)
    as (oldest & kept & Hperm & Hlen & Horder & Hcalls).
  exists oldest, kept,
    ((λ file, Backup.make (name file) (Disk_time file)) <$> oldest).
  split; [done|]. split; [done|]. split; [done|]. split.
  - rewrite Hcalls. by rewrite <-list_fmap_compose.
  - unfold DiskBackupScheduler_delete. by rewrite <-list_fmap_compose.
Qed.

Lemma disk_cycle_unlinks_oldest_witness :
  ∃ oldest kept backups,
    oldest ++ kept
    ≡ₚ filter (λ file, isFile file = true) sample_directory
    ∧ Z.of_nat (length oldest)
      = Z.max 0 (Z.of_nat (length (filter (λ file, isFile file = true)
                                          sample_directory)) - 2 + 1)
    ∧ (∀ d k, d ∈ oldest → k ∈ kept →
              num_lt (Disk_time k) (Disk_time d) = false)
    ∧ calls (trace_of (run scripted (cycle_of false) (sample (num 2))
                           [Disk_options_list sample_directory []]))
      = [(op_list, []); (op_create, [])]
        ++ (if bool_decide
                 (0 < Z.of_nat (length (filter (λ file, isFile file = true)
                                               sample_directory)) - 2 + 1)
            then [(op_delete, [VArray (VBackup <$> backups)])] else [])
    ∧ DiskBackupScheduler_delete "/srv/backups" backups
      = (λ file, "/srv/backups" +:+ "/" +:+ name file) <$> oldest.
Proof.
  apply (disk_cycle_unlinks_oldest scripted false (sample (num 2))
           [Disk_options_list sample_directory []] [] sample_directory 2
           "/srv/backups").
  - reflexivity.
  - lia.
  - repeat constructor; done.
  - reflexivity.
  - vm_compute. reflexivity.
Defined.

(** X18.  The S3 backend under the core, from end to end.  A cycle that
    succeeds on a bucket whose pages hold [N] valid objects, under a whole
    limit [L], asks [deleteObjects] once for exactly the keys of the
    [max(0, N - L + 1)] oldest objects of the bucket as it was listed over
    all its pages; no object deleted is newer than an object that is kept. *)
Theorem S3_cycle_deletes_oldest {W : Type} (be : backend W) strict s w w1
    client pages requests listed (L : Z) :
  let objects := concat pages in
  get (options s) "limit" = VNumber (num L) →
  1 ≤ L →
  serves client VUndefined pages →
  Forall (Forall S3_valid) pages →
  S3_options_list requests client [] = Some listed →
  invoke be op_list [] w = (listed, w1) →
  result_of (run be (cycle_of strict) s w) = Normal true →
  ∃ oldest kept backups,
    oldest ++ kept ≡ₚ objects
    ∧ Z.of_nat (length oldest) = Z.max 0 (Z.of_nat (length objects) - L + 1)
    ∧ (∀ d k, d ∈ oldest → k ∈ kept →
              num_lt (default NaN (LastModified k))
                     (default NaN (LastModified d)) = false)
    ∧ calls (trace_of (run be (cycle_of strict) s w))
      = [(op_list, []); (op_create, [])]
        ++ (if bool_decide (0 < Z.of_nat (length objects) - L + 1)
            then [(op_delete, [VArray (VBackup <$> backups)])] else [])
    ∧ S3BackupScheduler_delete backups
      = (λ object, default EmptyString (Key object)) <$> oldest.
Proof.
  intros objects HL HL1 Hserves Hvalid Hlisted Hlist Hres.
  assert (listed = Normal (VArray (S3_backup <$> objects))) as ->.
  { unfold S3_options_list in Hlisted.
    destruct (decide (requests < length pages)%nat) as [Hlt|Hge].
    - by rewrite (S3_list_few_requests _ _ _ _ _ Hserves Hvalid Hlt) in Hlisted.
    - rewrite (S3_list_by_pages _ _ _ _ _ Hserves Hvalid) in Hlisted;
        [|lia|by right; left].
      subst objects. congruence. }
  pose proof (S3_objects_valid pages Hvalid) as Hobjects.
  destruct (cycle_over_sources S3_backup
              (λ object, default NaN (LastModified object)) S3_valid
              S3_backup_constructed (λ _, eq_refl)
              be strict s w w1 objects L HL HL1 Hobjects Hlist Hres)
    as (oldest & kept & Hperm & Hlen & Horder & Hcalls).
  exists oldest, kept,
    ((λ object, Backup.make (default EmptyString (Key object))
                            (default NaN (LastModified object))) <$> oldest).
  split; [done|]. split; [done|]. split; [done|]. split.
  - rewrite Hcalls. by rewrite <-list_fmap_compose.
  - unfold S3BackupScheduler_delete. by rewrite <-list_fmap_compose.
Qed.

Lemma S3_cycle_deletes_oldest_witness :
  ∃ oldest kept backups,
    oldest ++ kept ≡ₚ concat sample_pages
    ∧ Z.of_nat (length oldest)
      = Z.max 0 (Z.of_nat (length (concat sample_pages)) - 2 + 1)
    ∧ (∀ d k, d ∈ oldest → k ∈ kept →
              num_lt (default NaN (LastModified k))
                     (default NaN (LastModified d)) = false)
    ∧ calls (trace_of (run scripted (cycle_of false) (sample (num 2))
               [Normal (VArray [backup_at "a" 100; backup_at "b" 200;
                                backup_at "c" 300])]))
      = [(op_list, []); (op_create, [])]
        ++ (if bool_decide (0 < Z.of_nat (length (concat sample_pages)) - 2 + 1)
            then [(op_delete, [VArray (VBackup <$> backups)])] else [])
    ∧ S3BackupScheduler_delete backups
      = (λ object, default EmptyString (Key object)) <$> oldest.
Proof.
  apply (S3_cycle_deletes_oldest scripted false (sample (num 2))
           [Normal (VArray [backup_at "a" 100; backup_at "b" 200;
                            backup_at "c" 300])] []
           sample_client sample_pages 2
           (Normal (VArray [backup_at "a" 100; backup_at "b" 200;
                            backup_at "c" 300])) 2).
  - reflexivity.
  - lia.
  - apply (serves_more sample_client VUndefined
             (mkListObjectsV2Output (Some (num 2))
                (Some [mkS3Object (Some "a") (Some (num 100));
                       mkS3Object (Some "b") (Some (num 200))])
                (Some true) (Some "page2")) [_]); [done|done|].
    apply (serves_last sample_client (VString "page2")
             (mkListObjectsV2Output (Some (num 1))
                (Some [mkS3Object (Some "c") (Some (num 300))])
                (Some false) None)); done.
  - repeat constructor; eexists _, _; done.
  - reflexivity.
  - reflexivity.
  - vm_compute. reflexivity.
Defined.
